(** * StreamRouteCollection: the stream-route registry of the audio route manager

    A shallow embedding of [audio_hal::StreamRouteCollection]
    (src/audio_route_manager/StreamRouteCollection.hpp) and of its private
    [RouteMasks] aggregator, with the properties of the route/stream
    matching pass and of the mask arithmetic.

    Conventions
    - [uint32_t] is [Z] in the range [0, 2^32); the only operator of the
      source that can leave the range is [~], whose wrap-around is written
      out in [u32_not].
    - Pointers are [option] of an object identity, [None] being [NULL].
    - Code that the C++ standard leaves undefined (calling a member through
      [NULL], reading through a past-the-end iterator) evaluates to
      [Undefined].
    - The classes [AudioStreamRoute] and [IoStream] are collaborators whose
      code is not in this file: their member functions are the fields of
      the class [Collaborators], over an abstract state [World] of all the
      collaborator objects. *)

From Stdlib Require Import ZArith List String Ascii Bool Lia.
Import ListNotations.
Local Open Scope Z_scope.

(** ** 32-bit unsigned integers *)

Definition u32_modulus : Z := 2 ^ 32.

Definition is_u32 (x : Z) : Prop := 0 <= x < u32_modulus.

Definition wrap32 (x : Z) : Z := x mod u32_modulus.

(** [~x] on a [uint32_t]. *)
Definition u32_not (x : Z) : Z := wrap32 (Z.lnot x).

(** ** RouteMasks: the per-direction aggregator (lines 349-470) *)

Module RouteMasks.

Record t : Type := mk {
  needReflow : Z;   (* routes that need to be muted / unmuted *)
  needRepath : Z;   (* routes that need to be disabled / enabled *)
  enabled : Z;      (* enabled routes *)
  prevEnabled : Z   (* previously enabled routes *)
}.

(** The constructor [RouteMasks()]. *)
Definition init : t := mk 0 0 0 0.

(** [mask |= index] *)
Definition setBit (index mask : Z) : Z := Z.lor mask index.

Definition setEnabledRoute (index : Z) (m : t) : t :=
  mk (needReflow m) (needRepath m) (setBit index (enabled m)) (prevEnabled m).

Definition needReflowRoutes (m : t) : Z := needReflow m.

Definition setNeedReflowRoute (index : Z) (m : t) : t :=
  mk (setBit index (needReflow m)) (needRepath m) (enabled m) (prevEnabled m).

Definition enabledRoutes (m : t) : Z := enabled m.

Definition setNeedRepathRoute (index : Z) (m : t) : t :=
  mk (needReflow m) (setBit index (needRepath m)) (enabled m) (prevEnabled m).

Definition needRepathRoutes (m : t) : Z := needRepath m.

Definition prevEnabledRoutes (m : t) : Z := prevEnabled m.

Definition routingHasChanged (m : t) : bool :=
  negb (prevEnabledRoutes m =? enabledRoutes m)
  || negb (needReflowRoutes m =? 0)
  || negb (needRepathRoutes m =? 0).

(** The four assignments of [reset()], in the order of the source. *)
Definition reset (m : t) : t :=
  let m1 := mk (needReflow m) (needRepath m) (enabled m) (enabled m) in
  let m2 := mk (needReflow m1) (needRepath m1) 0 (prevEnabled m1) in
  let m3 := mk 0 (needRepath m2) (enabled m2) (prevEnabled m2) in
  mk (needReflow m3) 0 (enabled m3) (prevEnabled m3).

Definition unmutedRoutes (m : t) : Z :=
  Z.land (Z.land (prevEnabledRoutes m) (enabledRoutes m))
         (u32_not (needReflowRoutes m)).

Definition routesToMute (m : t) : Z :=
  Z.lor (Z.land (prevEnabledRoutes m) (u32_not (enabledRoutes m)))
        (needReflowRoutes m).

Definition openedRoutes (m : t) : Z :=
  Z.land (Z.land (prevEnabledRoutes m) (enabledRoutes m))
         (u32_not (needRepathRoutes m)).

Definition routesToDisable (m : t) : Z :=
  Z.lor (Z.land (prevEnabledRoutes m) (u32_not (enabledRoutes m)))
        (needRepathRoutes m).

(** Every field holds a [uint32_t]. *)
Definition wf (m : t) : Prop :=
  is_u32 (needReflow m) /\ is_u32 (needRepath m) /\
  is_u32 (enabled m) /\ is_u32 (prevEnabled m).

End RouteMasks.

(** ** Directions *)

(** Modelled from the spec: [Direction.hpp] is not part of the sources; the
    spec has two directions, input and output, each with its own stream
    list and its own masks. The collection indexes its two-element arrays
    both by [Direction::Input] / [Direction::Output] and by the [bool]
    returned by [isOut()], so [Output] is the index [1] ([true]), [Input]
    the index [0] ([false]) and [gNbDirections] is [2]. *)
Inductive Direction : Type := Input | Output.

Definition direction_of_isOut (b : bool) : Direction :=
  if b then Output else Input.

(** An array [T x[Direction::gNbDirections]]. *)
Record PerDirection (T : Type) : Type := mkPerDirection {
  at_Input : T;
  at_Output : T
}.
Arguments mkPerDirection {T} _ _.
Arguments at_Input {T} _.
Arguments at_Output {T} _.

Definition array_get {T : Type} (a : PerDirection T) (d : Direction) : T :=
  match d with Input => at_Input a | Output => at_Output a end.

Definition array_set {T : Type} (a : PerDirection T) (d : Direction) (x : T)
  : PerDirection T :=
  match d with
  | Input => mkPerDirection x (at_Output a)
  | Output => mkPerDirection (at_Input a) x
  end.

Definition all_directions : list Direction := [Input; Output].

(** ** The collaborators: AudioStreamRoute and IoStream *)

(** Objects are named by their identity (their address). *)
Definition RouteId : Type := nat.
Definition StreamId : Type := nat.

(** [AudioStreamRoute *] and [IoStream *]: [None] is [NULL]. *)
Definition AudioStreamRoutePtr : Type := option RouteId.
Definition IoStreamPtr : Type := option StreamId.

(** [android::status_t] and [android::OK]. *)
Definition status_t : Type := Z.
Definition OK : status_t := 0.

(** The member functions of [AudioStreamRoute] and [IoStream] that the
    collection calls. [AudioStreamRoute.hpp] and [IoStream.hpp] are not part
    of the sources, so they are parameters: [World] is the state of all the
    route and stream objects, the queries read it and the other member
    functions return the new one. The collection itself is not reachable
    from [World]. *)
Class Collaborators : Type := {
  World : Type;
  (* AudioStreamRoute, queries *)
  getName : World -> RouteId -> string;
  isOut : World -> RouteId -> bool;
  getMask : World -> RouteId -> Z;
  isUsed : World -> RouteId -> bool;
  previouslyUsed : World -> RouteId -> bool;
  needReflow : World -> RouteId -> bool;
  needRepath : World -> RouteId -> bool;
  isMatchingWithStream : World -> RouteId -> StreamId -> bool;
  (* AudioStreamRoute, actions *)
  setUsed : RouteId -> World -> World;
  setStream : RouteId -> StreamId -> World -> bool * World;
  route : RouteId -> bool -> World -> status_t * World;
  unroute : RouteId -> bool -> World -> World;
  AudioStreamRoute_resetAvailability : RouteId -> World -> World;
  (* IoStream, queries *)
  IoStream_isOut : World -> StreamId -> bool;
  isDirect : World -> StreamId -> bool;
  isStarted : World -> StreamId -> bool;
  isRoutedByPolicy : World -> StreamId -> bool;
  isNewRouteAvailable : World -> StreamId -> bool;
  (* [getMask] returns a [uint32_t] *)
  getMask_u32 : forall w r, is_u32 (getMask w r)
}.

(** ** Observable events: log lines and calls of the collaborators' actions *)

Inductive Event : Type :=
| Log_Warning (msg : string)
| Log_Error (msg : string)
| Log_Verbose (msg : string)
| Call_setUsed (r : RouteId)
| Call_setStream (r : RouteId) (s : StreamId)
| Call_route (r : RouteId) (isPreEnable : bool)
| Call_unroute (r : RouteId) (isPostDisable : bool)
| Call_resetAvailability (r : RouteId).

(** ** The monad of member functions: world passing, events, undefined behaviour *)

Inductive outcome (A : Type) : Type :=
| Done (a : A)
| Undefined.
Arguments Done {A} _.
Arguments Undefined {A}.

Definition M `{Collaborators} (A : Type) : Type :=
  World -> outcome (A * World * list Event).

Definition ret `{Collaborators} {A : Type} (a : A) : M A :=
  fun w => Done (a, w, []).

Definition bind `{Collaborators} {A B : Type} (m : M A) (f : A -> M B) : M B :=
  fun w =>
    match m w with
    | Undefined => Undefined
    | Done (a, w1, t1) =>
        match f a w1 with
        | Undefined => Undefined
        | Done (b, w2, t2) => Done (b, w2, t1 ++ t2)
        end
    end.

Declare Scope hal_scope.
Delimit Scope hal_scope with hal.
Notation "x <- m ;; k" := (bind m (fun x => k))
  (at level 100, m at next level, right associativity) : hal_scope.
Notation "m ;; k" := (bind m (fun _ => k))
  (at level 100, right associativity) : hal_scope.
Local Open Scope hal_scope.

Definition undefined `{Collaborators} {A : Type} : M A := fun _ => Undefined.

(** A query of the world. *)
Definition query `{Collaborators} {A : Type} (f : World -> A) : M A :=
  fun w => Done (f w, w, []).

(** An action of a collaborator, recorded as the event [e]. *)
Definition action `{Collaborators} {A : Type} (e : Event) (f : World -> A * World)
  : M A :=
  fun w => let (a, w') := f w in Done (a, w', [e]).

Definition log `{Collaborators} (e : Event) : M unit :=
  fun w => Done (tt, w, [e]).

(** [p->...]: a member call through [NULL] is undefined. *)
Definition deref `{Collaborators} {A : Type} (p : option A) : M A :=
  match p with
  | Some a => ret a
  | None => undefined
  end.

(** [*l.begin()]: reading through [begin()] of an empty [std::list] reads
    through the past-the-end iterator, which is undefined. *)
Definition deref_begin `{Collaborators} {A : Type} (l : list A) : M A :=
  match l with
  | x :: _ => ret x
  | [] => undefined
  end.

(** [for (auto x : l) body], the body threading the state [S]. *)
Fixpoint for_each `{Collaborators} {A S : Type}
    (l : list A) (body : A -> S -> M S) (s : S) : M S :=
  match l with
  | [] => ret s
  | x :: l' => s' <- body x s ;; for_each l' body s'
  end.

(** ** The base class std::map<std::string, AudioStreamRoute *>

    The entries in iteration order, that is by increasing key:
    [std::less<std::string>] is the lexicographic order on bytes, which is
    [String.compare]. *)

Definition RouteMap : Type := list (string * AudioStreamRoutePtr).

(** [m.find(key)]: the value of the entry of key [key], [None] for [end()]. *)
Fixpoint map_find (key : string) (m : RouteMap) : option AudioStreamRoutePtr :=
  match m with
  | [] => None
  | (k, v) :: m' => if String.eqb key k then Some v else map_find key m'
  end.

(** [m[key] = v]: the entry of key [key] is created at its place in the
    order when there is none, and receives [v]. *)
Fixpoint map_assign (key : string) (v : AudioStreamRoutePtr) (m : RouteMap)
  : RouteMap :=
  match m with
  | [] => [(key, v)]
  | (k, v') :: m' =>
      match String.compare key k with
      | Lt => (key, v) :: (k, v') :: m'
      | Eq => (key, v) :: m'
      | Gt => (k, v') :: map_assign key v m'
      end
  end.

(** The keys of a [std::map] are strictly increasing. *)
Fixpoint map_sorted (m : RouteMap) : Prop :=
  match m with
  | [] => True
  | (k, _) :: m' =>
      match m' with
      | [] => True
      | (k', _) :: _ => String.compare k k' = Lt
      end /\ map_sorted m'
  end.

(** ** StreamRouteCollection *)

Record StreamRouteCollection : Type := mkCollection {
  routes : RouteMap;                               (* the base class *)
  mOrderedStreamList : PerDirection (list IoStreamPtr);
  mRoutes : PerDirection RouteMasks.t
}.

(** A collection as constructed: no route, no stream, masks at zero. *)
Definition empty_collection : StreamRouteCollection :=
  mkCollection [] (mkPerDirection [] [])
               (mkPerDirection RouteMasks.init RouteMasks.init).

Definition set_routes (c : StreamRouteCollection) (m : RouteMap) :=
  mkCollection m (mOrderedStreamList c) (mRoutes c).

Definition set_streams (c : StreamRouteCollection) (d : Direction)
    (l : list IoStreamPtr) :=
  mkCollection (routes c) (array_set (mOrderedStreamList c) d l) (mRoutes c).

Definition set_masks (c : StreamRouteCollection) (d : Direction)
    (m : RouteMasks.t) :=
  mkCollection (routes c) (mOrderedStreamList c) (array_set (mRoutes c) d m).

Definition streams_of (c : StreamRouteCollection) (d : Direction) :=
  array_get (mOrderedStreamList c) d.

Definition masks_of (c : StreamRouteCollection) (d : Direction) :=
  array_get (mRoutes c) d.

Definition tab : string := String (ascii_of_nat 9) EmptyString.

Section Collection.

Context `{HAL : Collaborators}.

(** The body of the second loop of [resetAvailability], for the entry [it]. *)
Definition resetAvailability_body (it : string * AudioStreamRoutePtr)
    (c : StreamRouteCollection) : M StreamRouteCollection :=
  r <- deref (snd it) ;;
  action (Call_resetAvailability r)
         (fun w => (tt, AudioStreamRoute_resetAvailability r w)) ;;
  ret c.

(** [resetAvailability()], lines 49-57. *)
Definition resetAvailability (c : StreamRouteCollection)
  : M StreamRouteCollection :=
  let c1 := fold_left
              (fun c' i => set_masks c' i (RouteMasks.reset (masks_of c' i)))
              all_directions c in
  for_each (routes c1) resetAvailability_body c1.

(** [push_back(element)], lines 65-74. *)
Definition push_back (element : AudioStreamRoutePtr) (c : StreamRouteCollection)
  : M StreamRouteCollection :=
  e <- deref element ;;
  name <- query (fun w => getName w e) ;;
  out <- query (fun w => isOut w e) ;;
  let key := (name ++ (if out then "_Playback" else "_Capture"))%string in
  match map_find key (routes c) with
  | Some _ =>
      log (Log_Warning
             ("push_back" ++ ": element(" ++ key ++ ") already added")%string) ;;
      ret c
  | None => ret (set_routes c (map_assign key element (routes c)))
  end.

(** The loop of [setStreamForRoute], over the streams not yet visited. *)
Fixpoint setStreamForRoute_loop (r : RouteId) (l : list IoStreamPtr) : M bool :=
  match l with
  | [] => ret false
  | p :: l' =>
      stream <- deref p ;;
      candidate <- query (fun w => isStarted w stream
                                   && isRoutedByPolicy w stream
                                   && negb (isNewRouteAvailable w stream)) ;;
      if candidate : bool then
        matching <- query (fun w => isMatchingWithStream w r stream) ;;
        if matching : bool then
          name <- query (fun w => getName w r) ;;
          log (Log_Verbose ("setStreamForRoute" ++ ": route " ++ name
                            ++ " is maching with the stream")%string) ;;
          action (Call_setStream r stream) (setStream r stream)
        else setStreamForRoute_loop r l'
      else setStreamForRoute_loop r l'
  end.

(** [setStreamForRoute(route)], lines 146-160. *)
Definition setStreamForRoute (r : RouteId) (c : StreamRouteCollection) : M bool :=
  out <- query (fun w => isOut w r) ;;
  setStreamForRoute_loop r (streams_of c (direction_of_isOut out)).

(** The body of the loop of [prepareRouting], for the entry [it]. *)
Definition prepareRouting_body (it : string * AudioStreamRoutePtr)
    (c : StreamRouteCollection) : M StreamRouteCollection :=
  match snd it with
  | None => ret c
  | Some r =>
      used <- query (fun w => isUsed w r) ;;
      if negb used then
        found <- setStreamForRoute r c ;;
        if found : bool then
          action (Call_setUsed r) (fun w => (tt, setUsed r w)) ;;
          out <- query (fun w => isOut w r) ;;
          mask <- query (fun w => getMask w r) ;;
          let d := direction_of_isOut out in
          let c1 := set_masks c d (RouteMasks.setEnabledRoute mask (masks_of c d)) in
          reflow <- query (fun w => needReflow w r) ;;
          c2 <- (if reflow : bool then
                   out <- query (fun w => isOut w r) ;;
                   mask <- query (fun w => getMask w r) ;;
                   let d := direction_of_isOut out in
                   ret (set_masks c1 d
                          (RouteMasks.setNeedReflowRoute mask (masks_of c1 d)))
                 else ret c1) ;;
          repath <- query (fun w => needRepath w r) ;;
          if repath : bool then
            out <- query (fun w => isOut w r) ;;
            mask <- query (fun w => getMask w r) ;;
            let d := direction_of_isOut out in
            ret (set_masks c2 d
                   (RouteMasks.setNeedRepathRoute mask (masks_of c2 d)))
          else ret c2
        else ret c
      else ret c
  end.

(** [prepareRouting()], lines 76-91. *)
Definition prepareRouting (c : StreamRouteCollection) : M StreamRouteCollection :=
  for_each (routes c) prepareRouting_body c.

(** [routingHasChanged()], lines 93-97. *)
Definition routingHasChanged (c : StreamRouteCollection) : bool :=
  RouteMasks.routingHasChanged (masks_of c Output)
  || RouteMasks.routingHasChanged (masks_of c Input).

(** The mask queries, lines 104-117 and 295-328. *)
Definition needRepathRouteMask (c : StreamRouteCollection) (dir : Direction) : Z :=
  RouteMasks.needRepathRoutes (masks_of c dir).
Definition needReflowRouteMask (c : StreamRouteCollection) (dir : Direction) : Z :=
  RouteMasks.needReflowRoutes (masks_of c dir).
Definition enabledRouteMask (c : StreamRouteCollection) (dir : Direction) : Z :=
  RouteMasks.enabledRoutes (masks_of c dir).
Definition prevEnabledRouteMask (c : StreamRouteCollection) (dir : Direction) : Z :=
  RouteMasks.prevEnabledRoutes (masks_of c dir).
Definition unmutedRoutes (c : StreamRouteCollection) (dir : Direction) : Z :=
  RouteMasks.unmutedRoutes (masks_of c dir).
Definition routesToMute (c : StreamRouteCollection) (dir : Direction) : Z :=
  RouteMasks.routesToMute (masks_of c dir).
Definition openedRoutes (c : StreamRouteCollection) (dir : Direction) : Z :=
  RouteMasks.openedRoutes (masks_of c dir).
Definition routesToDisable (c : StreamRouteCollection) (dir : Direction) : Z :=
  RouteMasks.routesToDisable (masks_of c dir).

(** [addStream(stream)], lines 119-127; [stream] is a reference. *)
Definition addStream (stream : StreamId) (c : StreamRouteCollection)
  : M StreamRouteCollection :=
  direct <- query (fun w => isDirect w stream) ;;
  if direct : bool then
    out <- query (fun w => IoStream_isOut w stream) ;;
    let d := direction_of_isOut out in
    ret (set_streams c d (Some stream :: streams_of c d))
  else
    out <- query (fun w => IoStream_isOut w stream) ;;
    let d := direction_of_isOut out in
    ret (set_streams c d (streams_of c d ++ [Some stream])).

(** [getVoiceStreamRoute()], lines 162-171. *)
Definition getVoiceStreamRoute (c : StreamRouteCollection) : M IoStreamPtr :=
  let it := streams_of c Output in        (* the list from [begin()] on *)
  p <- deref_begin it ;;
  match p with
  | None => log (Log_Error ("getVoiceStreamRoute"
                            ++ ": current stream NOT FOUND for echo ref")%string)
  | Some _ => ret tt
  end ;;
  deref_begin it.

(** The body of the loop of [disableRoutes], for the entry [it]. *)
Definition disableRoutes_body (isPostDisable : bool)
    (it : string * AudioStreamRoutePtr) (_ : unit) : M unit :=
  match snd it with
  | None => ret tt
  | Some r =>
      todo <- query (fun w => (previouslyUsed w r && negb (isUsed w r))
                              || needRepath w r) ;;
      if todo : bool then
        name <- query (fun w => getName w r) ;;
        log (Log_Verbose ("disableRoutes" ++ ": Route " ++ name
                          ++ " to be disabled")%string) ;;
        action (Call_unroute r isPostDisable)
               (fun w => (tt, unroute r isPostDisable w))
      else ret tt
  end.

(** [disableRoutes(isPostDisable)], lines 182-194. *)
Definition disableRoutes (isPostDisable : bool) (c : StreamRouteCollection)
  : M unit :=
  for_each (routes c) (disableRoutes_body isPostDisable) tt.

(** The body of the loop of [enableRoutes], for the entry [it]. *)
Definition enableRoutes_body (isPreEnable : bool)
    (it : string * AudioStreamRoutePtr) (_ : unit) : M unit :=
  match snd it with
  | None => ret tt
  | Some r =>
      todo <- query (fun w => (negb (previouslyUsed w r) && isUsed w r)
                              || needRepath w r) ;;
      if todo : bool then
        name <- query (fun w => getName w r) ;;
        log (Log_Verbose ("enableRoutes" ++ ": Route" ++ name
                          ++ " to be enabled")%string) ;;
        status <- action (Call_route r isPreEnable) (route r isPreEnable) ;;
        if negb (status =? OK) then
          name <- query (fun w => getName w r) ;;
          log (Log_Error (tab ++ " error while routing " ++ name)%string)
        else ret tt
      else ret tt
  end.

(** [enableRoutes(isPreEnable)], lines 206-221. *)
Definition enableRoutes (isPreEnable : bool) (c : StreamRouteCollection)
  : M unit :=
  for_each (routes c) (enableRoutes_body isPreEnable) tt.

(** [postDisableRoutes()] and [preEnableRoutes()], lines 269-283. *)
Definition postDisableRoutes (c : StreamRouteCollection) : M unit :=
  disableRoutes true c.

Definition preEnableRoutes (c : StreamRouteCollection) : M unit :=
  enableRoutes true c.

End Collection.

(** ** Vocabulary of the properties *)

(** The routes of the registry, in iteration order ([NULL] entries, which
    every loop that tests [route] skips, left out). *)
Definition registered_in (m : RouteMap) : list RouteId :=
  flat_map (fun it => match snd it with Some r => [r] | None => [] end) m.

Definition registered (c : StreamRouteCollection) : list RouteId :=
  registered_in (routes c).

(** No entry of the registry is [NULL]. *)
Definition routes_valid (c : StreamRouteCollection) : Prop :=
  Forall (fun it => snd it <> None) (routes c).

(** No element of a stream list is [NULL]. *)
Definition streams_valid (c : StreamRouteCollection) : Prop :=
  forall d, Forall (fun p : IoStreamPtr => p <> None) (streams_of c d).

(** The streams that the elements of a list point to. *)
Definition pointees (l : list IoStreamPtr) : list StreamId :=
  flat_map (fun p : IoStreamPtr => match p with Some s => [s] | None => [] end) l.

(** The calls recorded in a trace. *)
Definition route_calls (t : list Event) : list (RouteId * bool) :=
  flat_map (fun e => match e with Call_route r b => [(r, b)] | _ => [] end) t.

Definition unroute_calls (t : list Event) : list (RouteId * bool) :=
  flat_map (fun e => match e with Call_unroute r b => [(r, b)] | _ => [] end) t.

Definition setStream_calls (t : list Event) : list (RouteId * StreamId) :=
  flat_map (fun e => match e with Call_setStream r s => [(r, s)] | _ => [] end) t.

Definition setUsed_calls (t : list Event) : list RouteId :=
  flat_map (fun e => match e with Call_setUsed r => [r] | _ => [] end) t.

(** The streams bound to the route [r] by the calls of a trace. *)
Definition bound_to (r : RouteId) (t : list Event) : list StreamId :=
  map snd (filter (fun rs => Nat.eqb (fst rs) r) (setStream_calls t)).

(** Every bit of [a] is a bit of [b]. *)
Definition bits_included (a b : Z) : Prop :=
  forall i, Z.testbit a i = true -> Z.testbit b i = true.

(** The masks of [c'] extend those of [c]: no bit of [enabled], [needReflow]
    or [needRepath] is cleared and [prevEnabled] is the same. *)
Definition masks_grow (c c' : StreamRouteCollection) : Prop :=
  forall d,
    bits_included (RouteMasks.enabled (masks_of c d))
                  (RouteMasks.enabled (masks_of c' d))
    /\ bits_included (RouteMasks.needReflow (masks_of c d))
                     (RouteMasks.needReflow (masks_of c' d))
    /\ bits_included (RouteMasks.needRepath (masks_of c d))
                     (RouteMasks.needRepath (masks_of c' d))
    /\ RouteMasks.prevEnabled (masks_of c' d)
       = RouteMasks.prevEnabled (masks_of c d).

Section Vocabulary.

Context `{HAL : Collaborators}.

(** The transitions that [enableRoutes] and [disableRoutes] test. *)
Definition to_enable (w : World) (r : RouteId) : bool :=
  (negb (previouslyUsed w r) && isUsed w r) || needRepath w r.

Definition to_disable (w : World) (r : RouteId) : bool :=
  (previouslyUsed w r && negb (isUsed w r)) || needRepath w r.

(** A stream that the scan of [setStreamForRoute] pairs with the route. *)
Definition eligible (w : World) (r : RouteId) (s : StreamId) : bool :=
  isStarted w s && isRoutedByPolicy w s && negb (isNewRouteAvailable w s)
  && isMatchingWithStream w r s.

Definition matching_log (w : World) (r : RouteId) : Event :=
  Log_Verbose ("setStreamForRoute" ++ ": route " ++ getName w r
               ++ " is maching with the stream")%string.

(** The routes of [l], in order, whose transition holds when the loop of
    [enableRoutes] reaches them, the world being changed by the calls of
    [route] made until then; the same for [disableRoutes] and [unroute]. *)
Fixpoint routes_to_enable (flag : bool) (l : list RouteId) (w : World)
  : list RouteId :=
  match l with
  | [] => []
  | r :: l' =>
      if to_enable w r
      then r :: routes_to_enable flag l' (snd (route r flag w))
      else routes_to_enable flag l' w
  end.

Fixpoint routes_to_disable (flag : bool) (l : list RouteId) (w : World)
  : list RouteId :=
  match l with
  | [] => []
  | r :: l' =>
      if to_disable w r
      then r :: routes_to_disable flag l' (unroute r flag w)
      else routes_to_disable flag l' w
  end.

(** Opening the device of a route does not change which other routes are to
    be enabled, and closing it does not change which other routes are to be
    disabled. *)
Definition route_is_local : Prop :=
  forall w r b r',
    r' <> r -> to_enable (snd (route r b w)) r' = to_enable w r'.

Definition unroute_is_local : Prop :=
  forall w r b r',
    r' <> r -> to_disable (unroute r b w) r' = to_disable w r'.

(** The collections reached from [c] by calls of [addStream], each in the
    world of its time. *)
Inductive after_adds (c : StreamRouteCollection) : StreamRouteCollection -> Prop :=
| after_adds_refl : after_adds c c
| after_adds_step : forall c1 c2 s w w' t,
    after_adds c c1 ->
    addStream s c1 w = Done (c2, w', t) ->
    after_adds c c2.

(** *** The match phase as the specification words it

    For a route not in use: the first stream of the list of the route's
    direction that is started, routed by policy, without a new route and
    matching is paired with the route; on success the route is marked used
    and its mask is folded into [enabled], and into [needReflow] and
    [needRepath] when the route flags them. *)
Definition fold_route_masks (w : World) (r : RouteId)
    (c : StreamRouteCollection) : StreamRouteCollection :=
  let d := direction_of_isOut (isOut w r) in
  let mask := getMask w r in
  let m := masks_of c d in
  set_masks c d
    (RouteMasks.mk
       (if needReflow w r then Z.lor (RouteMasks.needReflow m) mask
        else RouteMasks.needReflow m)
       (if needRepath w r then Z.lor (RouteMasks.needRepath m) mask
        else RouteMasks.needRepath m)
       (Z.lor (RouteMasks.enabled m) mask)
       (RouteMasks.prevEnabled m)).

Definition spec_match_route (r : RouteId) (c : StreamRouteCollection) (w : World)
  : StreamRouteCollection * World * list Event :=
  if isUsed w r then (c, w, [])
  else
    match find (eligible w r)
               (pointees (streams_of c (direction_of_isOut (isOut w r)))) with
    | None => (c, w, [])
    | Some s =>
        let (paired, w1) := setStream r s w in
        let t1 := [matching_log w r; Call_setStream r s] in
        if paired : bool then
          let w2 := setUsed r w1 in
          (fold_route_masks w2 r c, w2, t1 ++ [Call_setUsed r])
        else (c, w1, t1)
    end.

Fixpoint spec_match_phase (l : list RouteId) (c : StreamRouteCollection)
    (w : World) : StreamRouteCollection * World * list Event :=
  match l with
  | [] => (c, w, [])
  | r :: l' =>
      let '(c1, w1, t1) := spec_match_route r c w in
      let '(c2, w2, t2) := spec_match_phase l' c1 w1 in
      (c2, w2, t1 ++ t2)
  end.

End Vocabulary.

(** *** The derived route sets as the specification words them

    Sets of routes as sets of bits: [a & ~b] is the set difference. *)
Definition spec_unmutedRoutes (previouslyEnabled enabled needReflow : Z) : Z :=
  Z.ldiff (Z.land previouslyEnabled enabled) needReflow.

Definition spec_routesToMute (previouslyEnabled enabled needReflow : Z) : Z :=
  Z.lor (Z.ldiff previouslyEnabled enabled) needReflow.

Definition spec_openedRoutes (previouslyEnabled enabled needRepath : Z) : Z :=
  Z.ldiff (Z.land previouslyEnabled enabled) needRepath.

Definition spec_routesToDisable (previouslyEnabled enabled needRepath : Z) : Z :=
  Z.lor (Z.ldiff previouslyEnabled enabled) needRepath.

(** ** A reference implementation of the collaborators *)

Module Reference.

(** Modelled from the spec: the state of an [AudioStreamRoute], whose code
    is not part of the sources. The spec lists its attributes: name,
    direction, mask, "in use this cycle", "was in use previous cycle" and
    the route-local reflow and repath flags. The capability that streams
    are matched against, whether the route accepts streams, the stream
    paired with it, the status of its device and whether the device is open
    are this implementation's own: the properties of the collection hold
    for every implementation, and this one only provides examples. *)
Record RouteState : Type := mkRoute {
  r_name : string;
  r_isOut : bool;
  r_mask : Z;
  r_used : bool;
  r_previouslyUsed : bool;
  r_needReflow : bool;
  r_needRepath : bool;
  r_capabilities : Z;
  r_acceptsStreams : bool;
  r_newStream : IoStreamPtr;
  r_deviceStatus : status_t;
  r_opened : bool
}.

(** Modelled from the spec: the state of an [IoStream], whose code is not
    part of the sources. The spec lists its attributes: direction, started,
    routed-by-policy, "new route available" and direct; the attributes that
    routes are matched against are this implementation's own. *)
Record StreamState : Type := mkStream {
  s_isOut : bool;
  s_isDirect : bool;
  s_isStarted : bool;
  s_isRoutedByPolicy : bool;
  s_attributes : Z;
  s_newRoute : AudioStreamRoutePtr
}.

(** The objects, each at the position that is its identity. *)
Record RefWorld : Type := mkWorld {
  route_objects : list RouteState;
  stream_objects : list StreamState
}.

Definition no_route : RouteState :=
  mkRoute EmptyString false 0 false false false false 0 false None OK false.

Definition no_stream : StreamState := mkStream false false false false 0 None.

Definition route_at (w : RefWorld) (r : RouteId) : RouteState :=
  nth r (route_objects w) no_route.

Definition stream_at (w : RefWorld) (s : StreamId) : StreamState :=
  nth s (stream_objects w) no_stream.

Fixpoint update_nth {A : Type} (n : nat) (f : A -> A) (l : list A) : list A :=
  match l, n with
  | [], _ => []
  | x :: l', O => f x :: l'
  | x :: l', S n' => x :: update_nth n' f l'
  end.

Definition update_route (r : RouteId) (f : RouteState -> RouteState)
    (w : RefWorld) : RefWorld :=
  mkWorld (update_nth r f (route_objects w)) (stream_objects w).

Definition update_stream (s : StreamId) (f : StreamState -> StreamState)
    (w : RefWorld) : RefWorld :=
  mkWorld (route_objects w) (update_nth s f (stream_objects w)).

Definition with_used (b : bool) (x : RouteState) : RouteState :=
  mkRoute (r_name x) (r_isOut x) (r_mask x) b (r_previouslyUsed x)
          (r_needReflow x) (r_needRepath x) (r_capabilities x)
          (r_acceptsStreams x) (r_newStream x) (r_deviceStatus x) (r_opened x).

Definition with_newStream (p : IoStreamPtr) (x : RouteState) : RouteState :=
  mkRoute (r_name x) (r_isOut x) (r_mask x) (r_used x) (r_previouslyUsed x)
          (r_needReflow x) (r_needRepath x) (r_capabilities x)
          (r_acceptsStreams x) p (r_deviceStatus x) (r_opened x).

Definition with_opened (b : bool) (x : RouteState) : RouteState :=
  mkRoute (r_name x) (r_isOut x) (r_mask x) (r_used x) (r_previouslyUsed x)
          (r_needReflow x) (r_needRepath x) (r_capabilities x)
          (r_acceptsStreams x) (r_newStream x) (r_deviceStatus x) b.

Definition next_cycle (x : RouteState) : RouteState :=
  mkRoute (r_name x) (r_isOut x) (r_mask x) false (r_used x)
          (r_needReflow x) (r_needRepath x) (r_capabilities x)
          (r_acceptsStreams x) None (r_deviceStatus x) (r_opened x).

Definition with_newRoute (p : AudioStreamRoutePtr) (x : StreamState)
  : StreamState :=
  mkStream (s_isOut x) (s_isDirect x) (s_isStarted x) (s_isRoutedByPolicy x)
           (s_attributes x) p.

(** Modelled from the spec: [setStream(stream)->bool], of which the spec
    gives the signature only. Here it pairs the stream with the route,
    after which the stream has a new route available, and it fails for a
    stream of the other direction and for a route that accepts no stream. *)
Definition ref_setStream (r : RouteId) (s : StreamId) (w : RefWorld)
  : bool * RefWorld :=
  if r_acceptsStreams (route_at w r)
     && Bool.eqb (r_isOut (route_at w r)) (s_isOut (stream_at w s))
  then (true, update_stream s (with_newRoute (Some r))
                (update_route r (with_newStream (Some s)) w))
  else (false, w).

(** Modelled from the spec: [route(isPreEnable)->status] is the device-open
    action of the route and [unroute(isPostDisable)] its device-close
    action. Here the first answers the status of the device. *)
Definition ref_route (r : RouteId) (isPreEnable : bool) (w : RefWorld)
  : status_t * RefWorld :=
  (r_deviceStatus (route_at w r), update_route r (with_opened true) w).

Definition ref_unroute (r : RouteId) (isPostDisable : bool) (w : RefWorld)
  : RefWorld :=
  update_route r (with_opened false) w.

(** Modelled from the spec: [isMatchingWithStream(stream)->bool] compares
    the capability of the route with the attributes of the stream. Here a
    route matches when it has all the attributes that the stream asks for. *)
Definition ref_isMatchingWithStream (w : RefWorld) (r : RouteId) (s : StreamId)
  : bool :=
  Z.land (r_capabilities (route_at w r)) (s_attributes (stream_at w s))
  =? s_attributes (stream_at w s).

End Reference.

(** The reference collaborators as an instance of the interface. *)
Definition reference_collaborators : Collaborators := {|
  World := Reference.RefWorld;
  getName := fun w r => Reference.r_name (Reference.route_at w r);
  isOut := fun w r => Reference.r_isOut (Reference.route_at w r);
  getMask := fun w r => wrap32 (Reference.r_mask (Reference.route_at w r));
  isUsed := fun w r => Reference.r_used (Reference.route_at w r);
  previouslyUsed := fun w r => Reference.r_previouslyUsed (Reference.route_at w r);
  needReflow := fun w r => Reference.r_needReflow (Reference.route_at w r);
  needRepath := fun w r => Reference.r_needRepath (Reference.route_at w r);
  isMatchingWithStream := Reference.ref_isMatchingWithStream;
  setUsed := fun r w => Reference.update_route r (Reference.with_used true) w;
  setStream := Reference.ref_setStream;
  route := Reference.ref_route;
  unroute := Reference.ref_unroute;
  AudioStreamRoute_resetAvailability :=
    fun r w => Reference.update_route r Reference.next_cycle w;
  IoStream_isOut := fun w s => Reference.s_isOut (Reference.stream_at w s);
  isDirect := fun w s => Reference.s_isDirect (Reference.stream_at w s);
  isStarted := fun w s => Reference.s_isStarted (Reference.stream_at w s);
  isRoutedByPolicy :=
    fun w s => Reference.s_isRoutedByPolicy (Reference.stream_at w s);
  isNewRouteAvailable :=
    fun w s => match Reference.s_newRoute (Reference.stream_at w s) with
               | Some _ => true
               | None => false
               end;
  getMask_u32 :=
    fun w r => Z.mod_pos_bound (Reference.r_mask (Reference.route_at w r))
                               u32_modulus eq_refl
|}.

(** ** Concrete states used as examples *)

Module Examples.

Import Reference.

(** No collaborator object at all. *)
Definition empty_world : RefWorld := mkWorld [] [].

(** Masks at the end of a cycle in which the route of mask [0x1] was
    enabled. *)
Definition busy_masks : RouteMasks.t := RouteMasks.mk 0 0 1 0.

Definition busy_collection : StreamRouteCollection :=
  set_masks empty_collection Output busy_masks.

(** Masks in the middle of a cycle: routes [0x2] and [0x4] were enabled,
    routes [0x1] and [0x2] are, route [0x1] needs a reflow and route [0x2]
    a repath. *)
Definition cycle_masks : RouteMasks.t := RouteMasks.mk 1 2 3 6.

Definition cycle_collection : StreamRouteCollection :=
  set_masks empty_collection Output cycle_masks.

(** Three routes: [Media] (output, object 0), [Voice] (output, object 1,
    which accepts no stream) and [Mic] (input, object 2, in use in the
    previous cycle). Three streams: a plain output stream (object 0), a
    direct output stream (object 1) and an input stream that is not
    started (object 2). *)
Definition media : RouteState :=
  mkRoute "Media" true 1 false false false false 1 true None OK false.
Definition voice : RouteState :=
  mkRoute "Voice" true 2 false false false false 1 false None OK false.
Definition mic : RouteState :=
  mkRoute "Mic" false 1 false true false false 1 true None OK true.

Definition plain_stream : StreamState := mkStream true false true true 1 None.
Definition direct_stream : StreamState := mkStream true true true true 1 None.
Definition idle_capture : StreamState := mkStream false false false true 1 None.

(** The world at the start of the match phase. *)
Definition before_match : RefWorld :=
  mkWorld [media; voice; mic] [plain_stream; direct_stream; idle_capture].

(** The world after the match phase: [Media] is used. *)
Definition after_match : RefWorld :=
  mkWorld [with_used true media; voice; mic]
          [plain_stream; direct_stream; idle_capture].

(** The collection with the three routes registered and the three streams
    added, the plain output stream first; [Mic] was enabled in the previous
    cycle. *)
Definition demo_collection : StreamRouteCollection :=
  mkCollection
    [("Media_Playback"%string, Some 0%nat); ("Mic_Capture"%string, Some 2%nat);
     ("Voice_Playback"%string, Some 1%nat)]
    (mkPerDirection [Some 2%nat] [Some 1%nat; Some 0%nat])
    (mkPerDirection (RouteMasks.mk 0 0 0 1) RouteMasks.init).

End Examples.

(** ** The rest of the collection: removeStream, findMatchingRouteForStream,
    handleDeviceConnectionState and reset *)

(** [p == q] on [IoStream *]. *)
Definition IoStreamPtr_eqb (p q : IoStreamPtr) : bool :=
  match p, q with
  | Some a, Some b => Nat.eqb a b
  | None, None => true
  | _, _ => false
  end.

(** [l.remove(p)] of [std::list]: every element equal to [p] is erased. *)
Definition list_remove (p : IoStreamPtr) (l : list IoStreamPtr)
  : list IoStreamPtr :=
  filter (fun q => negb (IoStreamPtr_eqb q p)) l.

(** [l'] is [l] with some elements left out, the others in their order. *)
Inductive subsequence {A : Type} : list A -> list A -> Prop :=
| subsequence_nil : subsequence [] []
| subsequence_keep : forall x l' l,
    subsequence l' l -> subsequence (x :: l') (x :: l)
| subsequence_drop : forall x l' l,
    subsequence l' l -> subsequence l' (x :: l).

(** The number of elements of [l] equal to [p]. *)
Definition occurrences (p : IoStreamPtr) (l : list IoStreamPtr) : nat :=
  List.length (filter (IoStreamPtr_eqb p) l).

Section MoreOfTheCollection.

Context `{HAL : Collaborators}.

(** [removeStream(streamToRemove)], lines 129-132; the argument is a
    reference. *)
Definition removeStream (streamToRemove : StreamId) (c : StreamRouteCollection)
  : M StreamRouteCollection :=
  out <- query (fun w => IoStream_isOut w streamToRemove) ;;
  let d := direction_of_isOut out in
  ret (set_streams c d (list_remove (Some streamToRemove) (streams_of c d))).

(** The loop of [findMatchingRouteForStream], over the entries not yet
    visited; [streamRoute->isMatchingWithStream] is called without a test
    of [streamRoute]. *)
Fixpoint findMatchingRouteForStream_loop (stream : StreamId) (l : RouteMap)
  : M AudioStreamRoutePtr :=
  match l with
  | [] => ret None
  | it :: l' =>
      let streamRoute := snd it in
      r <- deref streamRoute ;;
      matching <- query (fun w => isMatchingWithStream w r stream) ;;
      if matching : bool then ret streamRoute
      else findMatchingRouteForStream_loop stream l'
  end.

(** [findMatchingRouteForStream(stream)], lines 231-240. *)
Definition findMatchingRouteForStream (stream : StreamId)
    (c : StreamRouteCollection) : M AudioStreamRoutePtr :=
  findMatchingRouteForStream_loop stream (routes c).

End MoreOfTheCollection.

(** The member functions of [AudioStreamRoute] that
    [handleDeviceConnectionState] and [reset] call. Like the others they are
    parameters, [AudioStreamRoute.hpp] not being part of the sources:
    [delete_route] is what [delete route] does to the collaborators. *)
Class RouteLifecycle `{Collaborators} : Type := {
  getSupportedDeviceMask : World -> RouteId -> Z;
  loadCapabilities : RouteId -> World -> World;
  resetCapabilities : RouteId -> World -> World;
  delete_route : RouteId -> World -> World;
  (* [getSupportedDeviceMask] returns a [uint32_t] *)
  getSupportedDeviceMask_u32 : forall w r, is_u32 (getSupportedDeviceMask w r)
}.

(** The calls of these member functions. *)
Inductive LifecycleCall : Type :=
| Call_loadCapabilities (r : RouteId)
| Call_resetCapabilities (r : RouteId)
| Call_delete (r : RouteId).

Section Lifecycle.

Context `{HAL : Collaborators} `{LC : !RouteLifecycle}.

(** The loop of [handleDeviceConnectionState]; [device] is an
    [audio_devices_t], a [uint32_t]. The route is not tested against
    [NULL]. *)
Fixpoint handleDeviceConnectionState_loop (device : Z) (isConnected : bool)
    (l : RouteMap) (w : World) : outcome (World * list LifecycleCall) :=
  match l with
  | [] => Done (w, [])
  | it :: l' =>
      match snd it with
      | None => Undefined
      | Some r =>
          if Z.land (getSupportedDeviceMask w r) device =? device then
            let (w1, e) :=
              if isConnected
              then (loadCapabilities r w, Call_loadCapabilities r)
              else (resetCapabilities r w, Call_resetCapabilities r) in
            match handleDeviceConnectionState_loop device isConnected l' w1 with
            | Done (w2, t) => Done (w2, e :: t)
            | Undefined => Undefined
            end
          else handleDeviceConnectionState_loop device isConnected l' w
      end
  end.

(** [handleDeviceConnectionState(device, isConnected)], lines 248-260. *)
Definition handleDeviceConnectionState (device : Z) (isConnected : bool)
    (c : StreamRouteCollection) (w : World)
  : outcome (World * list LifecycleCall) :=
  handleDeviceConnectionState_loop device isConnected (routes c) w.

(** The loop of [reset]: [delete] of [NULL] does nothing, [delete] of a
    pointer that was deleted already ([deleted]) is undefined. *)
Fixpoint reset_loop (l : RouteMap) (deleted : list RouteId) (w : World)
  : outcome (World * list LifecycleCall) :=
  match l with
  | [] => Done (w, [])
  | it :: l' =>
      match snd it with
      | None => reset_loop l' deleted w
      | Some r =>
          if existsb (Nat.eqb r) deleted then Undefined
          else
            match reset_loop l' (r :: deleted) (delete_route r w) with
            | Done (w2, t) => Done (w2, Call_delete r :: t)
            | Undefined => Undefined
            end
      end
  end.

(** [reset()], lines 38-44: the routes are deleted and the map is cleared;
    the stream lists and the masks are members of their own, which [reset]
    does not touch. *)
Definition reset (c : StreamRouteCollection) (w : World)
  : outcome (StreamRouteCollection * World * list LifecycleCall) :=
  match reset_loop (routes c) [] w with
  | Done (w', t) => Done (set_routes c [], w', t)
  | Undefined => Undefined
  end.

(** The routes that support [device]: [(mask & device) == device]. *)
Definition supports (device : Z) (w : World) (r : RouteId) : bool :=
  Z.land (getSupportedDeviceMask w r) device =? device.

(** Loading or resetting the capabilities of a route does not change the
    devices that the other routes support. *)
Definition capabilities_are_local : Prop :=
  forall w r r',
    r' <> r ->
    getSupportedDeviceMask (loadCapabilities r w) r' = getSupportedDeviceMask w r'
    /\ getSupportedDeviceMask (resetCapabilities r w) r'
       = getSupportedDeviceMask w r'.

End Lifecycle.

(** The calls recorded in a list of lifecycle calls. *)
Definition loaded (t : list LifecycleCall) : list RouteId :=
  flat_map (fun e => match e with Call_loadCapabilities r => [r] | _ => [] end) t.

Definition unloaded (t : list LifecycleCall) : list RouteId :=
  flat_map (fun e => match e with Call_resetCapabilities r => [r] | _ => [] end) t.

Definition deleted_routes (t : list LifecycleCall) : list RouteId :=
  flat_map (fun e => match e with Call_delete r => [r] | _ => [] end) t.

(** The error lines of a trace. *)
Definition error_logs (t : list Event) : list string :=
  flat_map (fun e => match e with Log_Error msg => [msg] | _ => [] end) t.

Definition Direction_eqb (d d' : Direction) : bool :=
  match d, d' with
  | Input, Input | Output, Output => true
  | _, _ => false
  end.

Section MoreVocabulary.

Context `{HAL : Collaborators}.

(** Pairing a stream with a route and marking a route used change neither
    the mask nor the direction of any route: the topology of the routes is
    static. *)
Definition identity_is_stable : Prop :=
  forall r r' w,
    (forall s, getMask (snd (setStream r s w)) r' = getMask w r'
               /\ isOut (snd (setStream r s w)) r' = isOut w r')
    /\ getMask (setUsed r w) r' = getMask w r'
    /\ isOut (setUsed r w) r' = isOut w r'.

(** The masks of the routes of [l] whose direction is [d], folded into
    [mask] by [|]. *)
Definition fold_masks_of (w : World) (d : Direction) (l : list RouteId)
    (mask : Z) : Z :=
  fold_left Z.lor
    (map (getMask w)
         (filter (fun r => Direction_eqb (direction_of_isOut (isOut w r)) d) l))
    mask.

(** The error lines of [enableRoutes] on the routes [l]: one for each route
    that is in transition when the loop reaches it and whose [route()] does
    not answer [OK], the world being changed by the calls made until
    then. *)
Fixpoint route_failures (flag : bool) (l : list RouteId) (w : World)
  : list string :=
  match l with
  | [] => []
  | r :: l' =>
      if to_enable w r then
        let w1 := snd (route r flag w) in
        (if negb (fst (route r flag w) =? OK)
         then [(tab ++ " error while routing " ++ getName w1 r)%string]
         else [])
        ++ route_failures flag l' w1
      else route_failures flag l' w
  end.

End MoreVocabulary.

Section Built.

Context `{HAL : Collaborators}.

(** The collections that the member functions build from the collection as
    constructed, in whatever worlds they are called. *)
Inductive built : StreamRouteCollection -> Prop :=
| built_empty : built empty_collection
| built_push_back : forall c element w c' w' t,
    built c -> push_back element c w = Done (c', w', t) -> built c'
| built_addStream : forall c stream w c' w' t,
    built c -> addStream stream c w = Done (c', w', t) -> built c'
| built_removeStream : forall c stream w c' w' t,
    built c -> removeStream stream c w = Done (c', w', t) -> built c'
| built_resetAvailability : forall c w c' w' t,
    built c -> resetAvailability c w = Done (c', w', t) -> built c'
| built_prepareRouting : forall c w c' w' t,
    built c -> prepareRouting c w = Done (c', w', t) -> built c'.

End Built.

(** ** The reference collaborators, continued *)

Module ReferenceLifecycle.

Import Reference.

Definition with_capabilities (z : Z) (x : RouteState) : RouteState :=
  mkRoute (r_name x) (r_isOut x) (r_mask x) (r_used x) (r_previouslyUsed x)
          (r_needReflow x) (r_needRepath x) z
          (r_acceptsStreams x) (r_newStream x) (r_deviceStatus x) (r_opened x).

(** Modelled from the spec: [getSupportedDeviceMask()->uint32],
    [loadCapabilities()] and [resetCapabilities()], of which the spec gives
    the signatures only, and the destruction of a route. Here the devices
    that the routes support are the table [devices], loading gives a route
    the capability [1], resetting the capability [0], and a route that is
    deleted is replaced by [no_route]. *)
Definition lifecycle (devices : list Z)
  : @RouteLifecycle reference_collaborators :=
  @Build_RouteLifecycle reference_collaborators
    (fun _ r => wrap32 (nth r devices 0))
    (fun r w => update_route r (with_capabilities 1) w)
    (fun r w => update_route r (with_capabilities 0) w)
    (fun r w => update_route r (fun _ => no_route) w)
    (fun _ r => Z.mod_pos_bound (nth r devices 0) u32_modulus eq_refl).

(** The devices of the routes of the examples: [Media] supports the devices
    [0x2] and [0x4], [Voice] the device [0x4], [Mic] the device [0x1]. *)
Definition demo_devices : list Z := [6; 4; 1].

Definition demo_lifecycle : @RouteLifecycle reference_collaborators :=
  lifecycle demo_devices.

End ReferenceLifecycle.

(** ** More concrete states *)

Module MoreExamples.

Import Reference Examples.

(** The world of the examples at the end of a cycle in which [Media] was
    used and no stream is started any more. *)
Definition quiet_world : RefWorld :=
  mkWorld [with_used true media; voice; mic]
          [mkStream true false false true 1 None;
           mkStream true true false true 1 None;
           idle_capture].

(** The collection of the examples at the end of that cycle: [Media], of
    mask [0x1], is enabled for the output. *)
Definition used_collection : StreamRouteCollection :=
  set_masks demo_collection Output (RouteMasks.mk 0 0 1 0).

(** A collection with the plain output stream only. *)
Definition one_stream_collection : StreamRouteCollection :=
  set_streams empty_collection Output [Some 0%nat].

(** A registry in which the route [Media] is registered under two keys. *)
Definition twice_registered : StreamRouteCollection :=
  set_routes empty_collection
    [("Media_Playback"%string, Some 0%nat); ("Other_Playback"%string, Some 0%nat)].

(** A registry with a [NULL] entry after the route [Media]. *)
Definition null_entry_collection : StreamRouteCollection :=
  set_routes empty_collection
    [("Media_Playback"%string, Some 0%nat); ("Null_Playback"%string, None)].

(** A world in which the device of every route fails to open. *)
Definition failing_world : RefWorld :=
  mkWorld
    [mkRoute "Media" true 1 true false false false 1 true None (-1) false;
     mkRoute "Voice" true 2 true false false false 1 false None (-1) false;
     mkRoute "Mic" false 1 false true false false 1 true None (-1) true]
    [plain_stream; direct_stream; idle_capture].

(** The collection of the examples before its first cycle. *)
Definition fresh_collection : StreamRouteCollection :=
  mkCollection (routes demo_collection) (mOrderedStreamList demo_collection)
               (mkPerDirection RouteMasks.init RouteMasks.init).

(** A world whose only stream asks for an attribute that no route has. *)
Definition picky_world : RefWorld :=
  mkWorld [media; voice; mic] [mkStream true false true true 2 None].

End MoreExamples.

(** * Properties *)

(** ** Arithmetic of 32-bit masks *)

Lemma u32_not_bits (x n : Z) :
  0 <= n -> Z.testbit (u32_not x) n = (n <? 32) && negb (Z.testbit x n).
Proof.
  intros Hn. unfold u32_not, wrap32, u32_modulus.
  destruct (Z.ltb_spec n 32) as [Hlt | Hge].
  - rewrite Z.mod_pow2_bits_low by lia. now rewrite Z.lnot_spec.
  - now rewrite Z.mod_pow2_bits_high by lia.
Qed.

Lemma u32_bits_high (x n : Z) : is_u32 x -> 32 <= n -> Z.testbit x n = false.
Proof.
  unfold is_u32, u32_modulus. intros Hx Hn.
  rewrite <- (Z.mod_small x (2 ^ 32)) by lia.
  apply Z.mod_pow2_bits_high. lia.
Qed.

Lemma u32_not_is_u32 (x : Z) : is_u32 (u32_not x).
Proof.
  unfold is_u32, u32_not, wrap32. apply Z.mod_pos_bound. reflexivity.
Qed.

Lemma land_u32_not (a b : Z) : is_u32 a -> Z.land a (u32_not b) = Z.ldiff a b.
Proof.
  intros Ha. apply Z.bits_inj'. intros n Hn.
  rewrite Z.land_spec, Z.ldiff_spec, u32_not_bits by assumption.
  destruct (Z.ltb_spec n 32) as [Hlt | Hge]; [reflexivity |].
  now rewrite (u32_bits_high a n Ha Hge).
Qed.

Lemma is_u32_of_bits (x : Z) :
  (forall n, 32 <= n -> Z.testbit x n = false) -> is_u32 x.
Proof.
  intros Hhigh.
  assert (E : x mod 2 ^ 32 = x).
  { apply Z.bits_inj'. intros n Hn.
    destruct (Z.ltb_spec n 32) as [Hlt | Hge].
    - apply Z.mod_pow2_bits_low. lia.
    - rewrite Z.mod_pow2_bits_high by lia. symmetry. now apply Hhigh. }
  unfold is_u32, u32_modulus. rewrite <- E. apply Z.mod_pos_bound. reflexivity.
Qed.

Lemma land_is_u32 (a b : Z) : is_u32 a -> is_u32 (Z.land a b).
Proof.
  intros Ha. apply is_u32_of_bits. intros n Hn.
  now rewrite Z.land_spec, (u32_bits_high a n Ha Hn).
Qed.

Lemma lor_is_u32 (a b : Z) : is_u32 a -> is_u32 b -> is_u32 (Z.lor a b).
Proof.
  intros Ha Hb. apply is_u32_of_bits. intros n Hn.
  now rewrite Z.lor_spec, (u32_bits_high a n Ha Hn), (u32_bits_high b n Hb Hn).
Qed.

(** ** C1: the derived route sets *)

(** C1. For every direction and every state of its [RouteMasks] (four
    [uint32_t] fields), the derived queries are the set formulas of the
    specification: [unmutedRoutes = previouslyEnabled & enabled & ~needReflow],
    [routesToMute = (previouslyEnabled & ~enabled) | needReflow],
    [openedRoutes = previouslyEnabled & enabled & ~needRepath],
    [routesToDisable = (previouslyEnabled & ~enabled) | needRepath], and
    [routingHasChanged] is true if and only if [previouslyEnabled <> enabled]
    or [needReflow <> 0] or [needRepath <> 0]. *)
Theorem derived_route_sets (c : StreamRouteCollection) (dir : Direction) :
  RouteMasks.wf (masks_of c dir) ->
  let m := masks_of c dir in
  let previouslyEnabled := RouteMasks.prevEnabled m in
  let enabled := RouteMasks.enabled m in
  let needReflow := RouteMasks.needReflow m in
  let needRepath := RouteMasks.needRepath m in
  unmutedRoutes c dir = spec_unmutedRoutes previouslyEnabled enabled needReflow
  /\ routesToMute c dir = spec_routesToMute previouslyEnabled enabled needReflow
  /\ openedRoutes c dir = spec_openedRoutes previouslyEnabled enabled needRepath
  /\ routesToDisable c dir
     = spec_routesToDisable previouslyEnabled enabled needRepath
  /\ (RouteMasks.routingHasChanged m = true
      <-> previouslyEnabled <> enabled \/ needReflow <> 0 \/ needRepath <> 0).
Proof.
  intros (Hf & Hp & He & Hpe). cbv zeta.
  unfold unmutedRoutes, routesToMute, openedRoutes, routesToDisable,
    RouteMasks.unmutedRoutes, RouteMasks.routesToMute, RouteMasks.openedRoutes,
    RouteMasks.routesToDisable, RouteMasks.routingHasChanged,
    RouteMasks.prevEnabledRoutes, RouteMasks.enabledRoutes,
    RouteMasks.needReflowRoutes, RouteMasks.needRepathRoutes,
    spec_unmutedRoutes, spec_routesToMute, spec_openedRoutes,
    spec_routesToDisable.
  repeat split.
  - apply land_u32_not, land_is_u32; assumption.
  - now rewrite land_u32_not.
  - apply land_u32_not, land_is_u32; assumption.
  - now rewrite land_u32_not.
  - rewrite !orb_true_iff, !negb_true_iff, !Z.eqb_neq. tauto.
  - rewrite !orb_true_iff, !negb_true_iff, !Z.eqb_neq. tauto.
Qed.

(** The collection reports a change when one of its directions does. *)
Lemma routingHasChanged_any_direction (c : StreamRouteCollection) :
  routingHasChanged c = true
  <-> exists dir, RouteMasks.routingHasChanged (masks_of c dir) = true.
Proof.
  unfold routingHasChanged. rewrite orb_true_iff. split.
  - intros [H | H]; [exists Output | exists Input]; exact H.
  - intros [[|] H]; [right | left]; exact H.
Qed.

(** ** Running member functions *)

Ltac run :=
  unfold bind, ret, query, action, log, deref, deref_begin, undefined; cbn.

Section Properties.

Context `{HAL : Collaborators}.

(** ** Laws of the monad *)

Lemma bind_ret {A B : Type} (a : A) (k : A -> M B) (w : World) :
  bind (ret a) k w = k a w.
Proof.
  unfold bind, ret. destruct (k a w) as [[[b w2] t2] |]; reflexivity.
Qed.

Lemma bind_query {A B : Type} (f : World -> A) (k : A -> M B) (w : World) :
  bind (query f) k w = k (f w) w.
Proof.
  unfold bind, query. destruct (k (f w) w) as [[[b w2] t2] |]; reflexivity.
Qed.

Lemma bind_deref {A B : Type} (a : A) (k : A -> M B) (w : World) :
  bind (deref (Some a)) k w = k a w.
Proof. apply bind_ret. Qed.

Lemma bind_log {B : Type} (e : Event) (k : unit -> M B) (w : World) :
  bind (log e) k w
  = match k tt w with
    | Undefined => Undefined
    | Done (b, w2, t2) => Done (b, w2, e :: t2)
    end.
Proof. reflexivity. Qed.

Lemma bind_action {A B : Type} (e : Event) (f : World -> A * World)
    (k : A -> M B) (w : World) :
  bind (action e f) k w
  = match k (fst (f w)) (snd (f w)) with
    | Undefined => Undefined
    | Done (b, w2, t2) => Done (b, w2, e :: t2)
    end.
Proof. unfold bind, action. destruct (f w) as [a w1]. reflexivity. Qed.

Lemma action_run {A : Type} (e : Event) (f : World -> A * World) (w : World) :
  action e f w = Done (fst (f w), snd (f w), [e]).
Proof. unfold action. destruct (f w); reflexivity. Qed.


(** ** C4, C5: resetAvailability *)

Lemma reset_masks (m : RouteMasks.t) :
  RouteMasks.reset m = RouteMasks.mk 0 0 0 (RouteMasks.enabled m).
Proof. reflexivity. Qed.

(** The second loop of [resetAvailability] calls the availability reset of
    every route, in order, and leaves the collection alone. *)
Lemma resetAvailability_loop (l : RouteMap) (c : StreamRouteCollection) (w : World) :
  Forall (fun it => snd it <> None) l ->
  for_each l resetAvailability_body c w
  = Done (c, fold_left (fun w r => AudioStreamRoute_resetAvailability r w)
                       (registered_in l) w,
          map Call_resetAvailability (registered_in l)).
Proof.
  intros Hvalid. revert w. induction Hvalid as [| [k [r |]] l Hr Hl IH]; intros w.
  - reflexivity.
  - cbn [for_each]. unfold bind at 1, resetAvailability_body. run.
    fold (registered_in l). rewrite IH. reflexivity.
  - now cbn in Hr.
Qed.

Lemma resetAvailability_run (c : StreamRouteCollection) (w : World) :
  routes_valid c ->
  resetAvailability c w
  = Done (mkCollection (routes c) (mOrderedStreamList c)
            (mkPerDirection
               (RouteMasks.mk 0 0 0 (RouteMasks.enabled (masks_of c Input)))
               (RouteMasks.mk 0 0 0 (RouteMasks.enabled (masks_of c Output)))),
          fold_left (fun w r => AudioStreamRoute_resetAvailability r w)
                    (registered c) w,
          map Call_resetAvailability (registered c)).
Proof.
  intros Hvalid. unfold resetAvailability.
  cbn [all_directions fold_left].
  rewrite resetAvailability_loop by exact Hvalid.
  reflexivity.
Qed.

(** C4. [resetAvailability] resets the masks of each direction as follows
    and only as follows: [previouslyEnabled] receives the old value of
    [enabled], and [enabled], [needReflow] and [needRepath] are set to 0. It
    calls the availability reset of each registered route, once and in
    order, and nothing else of the collaborators; the registry (no route
    created or destroyed) and the stream lists are unchanged. *)
Theorem resetAvailability_spec (c : StreamRouteCollection) (w : World) :
  routes_valid c ->
  exists c' w' t,
    resetAvailability c w = Done (c', w', t)
    /\ (forall d, masks_of c' d
                  = RouteMasks.mk 0 0 0 (RouteMasks.enabled (masks_of c d)))
    /\ routes c' = routes c
    /\ mOrderedStreamList c' = mOrderedStreamList c
    /\ t = map Call_resetAvailability (registered c)
    /\ w' = fold_left (fun w r => AudioStreamRoute_resetAvailability r w)
                      (registered c) w.
Proof.
  intros Hvalid. eexists _, _, _. split; [apply resetAvailability_run, Hvalid |].
  repeat split. intros []; reflexivity.
Qed.

(** C5. One call of [resetAvailability] leaves [enabled],
    [needReflow] and [needRepath] at 0 and moves the old [enabled] into
    [previouslyEnabled]; a second call in a row leaves the four masks at 0.
    So two calls yield the same masks as one exactly when [enabled] was 0
    before the first call. *)
Theorem resetAvailability_twice (c : StreamRouteCollection) (w : World) :
  routes_valid c ->
  exists c1 w1 t1 c2 w2 t2,
    resetAvailability c w = Done (c1, w1, t1)
    /\ resetAvailability c1 w1 = Done (c2, w2, t2)
    /\ forall d,
         masks_of c1 d = RouteMasks.mk 0 0 0 (RouteMasks.enabled (masks_of c d))
         /\ masks_of c2 d = RouteMasks.mk 0 0 0 0
         /\ (masks_of c2 d = masks_of c1 d
             <-> RouteMasks.enabled (masks_of c d) = 0).
Proof.
  intros Hvalid. eexists _, _, _, _, _, _.
  split; [apply resetAvailability_run, Hvalid |].
  split; [apply resetAvailability_run, Hvalid |].
  intros []; cbn; (split; [reflexivity |]); (split; [reflexivity |]);
    (split; [intros E; now injection E | intros ->; reflexivity]).
Qed.

(** ** C6: getVoiceStreamRoute *)

(** C6. With no output stream, [getVoiceStreamRoute] reads through
    [begin()] of an empty list, which is the past-the-end iterator: its
    behaviour is undefined, no error is reported and nothing is returned.
    With an output stream it returns the head of the list, reporting an
    error when that pointer is [NULL]. *)
Theorem getVoiceStreamRoute_spec (c : StreamRouteCollection) (w : World) :
  getVoiceStreamRoute (set_streams c Output []) w = Undefined
  /\ forall (p : IoStreamPtr) (l : list IoStreamPtr),
       getVoiceStreamRoute (set_streams c Output (p :: l)) w
       = Done (p, w,
               match p with
               | None =>
                   [Log_Error ("getVoiceStreamRoute"
                               ++ ": current stream NOT FOUND for echo ref")]
               | Some _ => []
               end).
Proof.
  split; [reflexivity |].
  intros [s |] l; reflexivity.
Qed.

(** ** C7: push_back *)

Lemma compare_refl (k : string) : String.compare k k = Eq.
Proof.
  pose proof (String.compare_antisym k k) as Hanti.
  destruct (String.compare k k); [reflexivity | discriminate | discriminate].
Qed.

Lemma map_find_assign_same (key : string) (v : AudioStreamRoutePtr) (m : RouteMap) :
  map_find key (map_assign key v m) = Some v.
Proof.
  induction m as [| [k v'] m IH]; cbn.
  - now rewrite String.eqb_refl.
  - destruct (String.compare key k) eqn:E; cbn.
    + now rewrite String.eqb_refl.
    + now rewrite String.eqb_refl.
    + destruct (String.eqb_spec key k) as [-> | _]; [| exact IH].
      rewrite compare_refl in E. discriminate E.
Qed.

Lemma map_find_assign_other (key k' : string) (v : AudioStreamRoutePtr)
    (m : RouteMap) :
  k' <> key -> map_find k' (map_assign key v m) = map_find k' m.
Proof.
  intros Hneq. induction m as [| [k v'] m IH]; cbn.
  - destruct (String.eqb_spec k' key); [contradiction | reflexivity].
  - destruct (String.compare key k) eqn:E; cbn.
    + apply String.compare_eq_iff in E. subst k.
      destruct (String.eqb_spec k' key); [contradiction | reflexivity].
    + destruct (String.eqb_spec k' key); [contradiction | reflexivity].
    + now rewrite IH.
Qed.

Lemma compare_Gt_Lt (a b : string) :
  String.compare a b = Gt -> String.compare b a = Lt.
Proof. intros E. rewrite String.compare_antisym, E. reflexivity. Qed.

Lemma map_sorted_assign (key : string) (v : AudioStreamRoutePtr) (m : RouteMap) :
  map_sorted m -> map_sorted (map_assign key v m).
Proof.
  induction m as [| [k v'] m IH]; cbn [map_assign].
  - intros _. cbn. auto.
  - intros Hsorted. destruct (String.compare key k) eqn:E.
    + apply String.compare_eq_iff in E. subst k. exact Hsorted.
    + split; [exact E | exact Hsorted].
    + destruct Hsorted as [Hhead Htail]. specialize (IH Htail).
      split; [| exact IH].
      destruct m as [| [k2 v2] m2]; cbn [map_assign].
      * now apply compare_Gt_Lt.
      * destruct (String.compare key k2); [| | exact Hhead];
          now apply compare_Gt_Lt.
Qed.

(** C7. [push_back] of a route whose key, its name followed by
    [_Playback] or [_Capture], is already in the registry leaves the
    collection and the collaborators unchanged, so the registered route is
    not overwritten, and a warning is the only effect. With a fresh key the
    route is inserted under that key: the other keys keep their routes, the
    keys stay ordered and nothing is logged. *)
Theorem push_back_spec (c : StreamRouteCollection) (w : World) (element : RouteId) :
  let key := (getName w element
              ++ (if isOut w element then "_Playback" else "_Capture"))%string in
  (forall registered : AudioStreamRoutePtr,
      map_find key (routes c) = Some registered ->
      push_back (Some element) c w
      = Done (c, w, [Log_Warning ("push_back: element(" ++ key
                                  ++ ") already added")%string]))
  /\ (map_find key (routes c) = None ->
      exists c',
        push_back (Some element) c w = Done (c', w, [])
        /\ map_find key (routes c') = Some (Some element)
        /\ (forall k, k <> key -> map_find k (routes c') = map_find k (routes c))
        /\ (map_sorted (routes c) -> map_sorted (routes c'))
        /\ mOrderedStreamList c' = mOrderedStreamList c
        /\ mRoutes c' = mRoutes c).
Proof.
  cbv zeta. split.
  - intros old Hfind. unfold push_back. run. rewrite Hfind. reflexivity.
  - intros Hfind. eexists. split.
    + unfold push_back. run. rewrite Hfind. reflexivity.
    + cbn. split; [apply map_find_assign_same |].
      split; [intros k Hk; now apply map_find_assign_other |].
      split; [apply map_sorted_assign |]. split; reflexivity.
Qed.

(** The state reached by a loop is related to the initial one by any
    preorder that the body respects. *)
Lemma for_each_preserves {A S : Type} (R : S -> S -> Prop)
    (body : A -> S -> M S) (l : list A) :
  (forall s, R s s) ->
  (forall s1 s2 s3, R s1 s2 -> R s2 s3 -> R s1 s3) ->
  (forall x s w s' w' t, In x l -> body x s w = Done (s', w', t) -> R s s') ->
  forall s w s' w' t, for_each l body s w = Done (s', w', t) -> R s s'.
Proof.
  intros Hrefl Htrans. induction l as [| x l IH]; intros Hbody s w s' w' t.
  - cbn. unfold ret. intros E. injection E as <- _ _. apply Hrefl.
  - cbn [for_each]. unfold bind.
    destruct (body x s w) as [[[s1 w1] t1] |] eqn:Ehead; [| discriminate].
    destruct (for_each l body s1 w1) as [[[s2 w2] t2] |] eqn:Etail; [| discriminate].
    intros E. injection E as <- _ _.
    apply Htrans with s1.
    + eapply Hbody; [left; reflexivity | exact Ehead].
    + eapply IH; [| exact Etail]. intros; eapply Hbody; [right |]; eassumption.
Qed.

(** ** The scan of setStreamForRoute *)

Lemma eligible_false_cases (w : World) (r : RouteId) (s : StreamId) :
  eligible w r s = false ->
  isStarted w s && isRoutedByPolicy w s && negb (isNewRouteAvailable w s) = false
  \/ isMatchingWithStream w r s = false.
Proof.
  unfold eligible. rewrite andb_false_iff. tauto.
Qed.

Lemma scan_step_eligible (w : World) (r : RouteId) (s : StreamId)
    (l : list IoStreamPtr) :
  eligible w r s = true ->
  setStreamForRoute_loop r (Some s :: l) w
  = Done (fst (setStream r s w), snd (setStream r s w),
          [matching_log w r; Call_setStream r s]).
Proof.
  unfold eligible. rewrite andb_true_iff. intros [Hcand Hmatch].
  cbn [setStreamForRoute_loop].
  rewrite bind_deref, bind_query, Hcand, bind_query, Hmatch, bind_query, bind_log.
  rewrite action_run. reflexivity.
Qed.

Lemma scan_step_not_eligible (w : World) (r : RouteId) (s : StreamId)
    (l : list IoStreamPtr) :
  eligible w r s = false ->
  setStreamForRoute_loop r (Some s :: l) w = setStreamForRoute_loop r l w.
Proof.
  intros Hnot. cbn [setStreamForRoute_loop].
  rewrite bind_deref, bind_query.
  destruct (eligible_false_cases w r s Hnot) as [Hcand | Hmatch].
  - now rewrite Hcand.
  - destruct (isStarted w s && isRoutedByPolicy w s
              && negb (isNewRouteAvailable w s)); [| reflexivity].
    now rewrite bind_query, Hmatch.
Qed.

(** On a list without [NULL] the scan pairs the route with the first
    eligible stream, if any. *)
Lemma scan_first_eligible (w : World) (r : RouteId) (l : list IoStreamPtr) :
  Forall (fun p : IoStreamPtr => p <> None) l ->
  setStreamForRoute_loop r l w
  = match find (eligible w r) (pointees l) with
    | None => Done (false, w, [])
    | Some s => Done (fst (setStream r s w), snd (setStream r s w),
                      [matching_log w r; Call_setStream r s])
    end.
Proof.
  induction 1 as [| [s |] l Hs Hl IH].
  - reflexivity.
  - cbn [pointees flat_map app find].
    destruct (eligible w r s) eqn:E.
    + now apply scan_step_eligible.
    + rewrite scan_step_not_eligible by exact E. exact IH.
  - now contradiction Hs.
Qed.

(** The scan does not go past an eligible stream. *)
Lemma scan_stops_at_eligible (w : World) (r : RouteId) (s : StreamId)
    (l1 rest : list IoStreamPtr) :
  eligible w r s = true ->
  setStreamForRoute_loop r (l1 ++ Some s :: rest) w
  = setStreamForRoute_loop r (l1 ++ [Some s]) w.
Proof.
  intros Hs. induction l1 as [| [s1 |] l1 IH]; cbn [app].
  - now rewrite !scan_step_eligible.
  - destruct (eligible w r s1) eqn:E.
    + now rewrite !scan_step_eligible.
    + now rewrite !scan_step_not_eligible.
  - reflexivity.
Qed.

(** ** The match phase *)

Lemma setStreamForRoute_unfold (r : RouteId) (c : StreamRouteCollection) (w : World) :
  setStreamForRoute r c w
  = setStreamForRoute_loop r (streams_of c (direction_of_isOut (isOut w r))) w.
Proof. unfold setStreamForRoute. now rewrite bind_query. Qed.

(** What the body of the loop of [prepareRouting] does for a route. *)
Lemma prepareRouting_body_run (k : string) (r : RouteId)
    (c : StreamRouteCollection) (w : World) :
  prepareRouting_body (k, Some r) c w
  = if isUsed w r then Done (c, w, [])
    else
      match setStreamForRoute r c w with
      | Undefined => Undefined
      | Done (found, w1, t1) =>
          if found : bool then
            Done (fold_route_masks (setUsed r w1) r c, setUsed r w1,
                  t1 ++ [Call_setUsed r])
          else Done (c, w1, t1 ++ [])
      end.
Proof.
  unfold prepareRouting_body. cbn [snd]. rewrite bind_query.
  destruct (isUsed w r); cbn [negb]; [reflexivity |].
  unfold bind at 1.
  destruct (setStreamForRoute r c w) as [[[[|] w1] t1] |]; [| reflexivity | reflexivity].
  rewrite bind_action. cbn [fst snd].
  set (w2 := setUsed r w1).
  unfold fold_route_masks, bind, query, ret.
  destruct (needReflow w2 r), (needRepath w2 r), (isOut w2 r); reflexivity.
Qed.

Lemma prepareRouting_body_null (k : string) (c : StreamRouteCollection) (w : World) :
  prepareRouting_body (k, None) c w = Done (c, w, []).
Proof. reflexivity. Qed.

Lemma fold_route_masks_streams (w : World) (r : RouteId) (c : StreamRouteCollection) :
  mOrderedStreamList (fold_route_masks w r c) = mOrderedStreamList c.
Proof. reflexivity. Qed.

Lemma spec_match_route_streams (r : RouteId) (c : StreamRouteCollection) (w : World) :
  mOrderedStreamList (fst (fst (spec_match_route r c w))) = mOrderedStreamList c.
Proof.
  unfold spec_match_route.
  destruct (isUsed w r); [reflexivity |].
  destruct (find _ _) as [s |]; [| reflexivity].
  destruct (setStream r s w) as [[|] w1]; reflexivity.
Qed.

(** With no [NULL] stream, the body of the loop is the pairing step of the
    specification. *)
Lemma prepareRouting_body_spec (k : string) (r : RouteId)
    (c : StreamRouteCollection) (w : World) :
  streams_valid c ->
  prepareRouting_body (k, Some r) c w = Done (spec_match_route r c w).
Proof.
  intros Hvalid. rewrite prepareRouting_body_run. unfold spec_match_route.
  destruct (isUsed w r); [reflexivity |].
  rewrite setStreamForRoute_unfold, scan_first_eligible by apply Hvalid.
  destruct (find _ _) as [s |]; [| reflexivity].
  destruct (setStream r s w) as [[|] w1]; reflexivity.
Qed.

Lemma prepareRouting_loop_spec (l : RouteMap) (c : StreamRouteCollection) (w : World) :
  streams_valid c ->
  for_each l prepareRouting_body c w
  = Done (spec_match_phase (registered_in l) c w).
Proof.
  revert c w. induction l as [| [k [r |]] l IH]; intros c w Hvalid.
  - reflexivity.
  - cbn [for_each registered_in flat_map snd app spec_match_phase]. unfold bind.
    fold (registered_in l).
    rewrite prepareRouting_body_spec by exact Hvalid.
    pose proof (spec_match_route_streams r c w) as Hstreams.
    destruct (spec_match_route r c w) as [[c1 w1] t1]. cbn [fst] in Hstreams.
    rewrite IH.
    + destruct (spec_match_phase _ c1 w1) as [[c2 w2] t2]. reflexivity.
    + intros d. unfold streams_of. rewrite Hstreams. apply Hvalid.
  - cbn [for_each registered_in flat_map snd app]. unfold bind.
    fold (registered_in l).
    rewrite prepareRouting_body_null, IH by exact Hvalid.
    destruct (spec_match_phase _ c w) as [[c2 w2] t2]. reflexivity.
Qed.

(** The calls of [setStream] of a trace, by route. *)
Lemma bound_to_app (r : RouteId) (t1 t2 : list Event) :
  bound_to r (t1 ++ t2) = bound_to r t1 ++ bound_to r t2.
Proof.
  unfold bound_to, setStream_calls.
  now rewrite flat_map_app, filter_app, map_app.
Qed.

Lemma spec_match_route_bound (r0 r : RouteId) (c : StreamRouteCollection) (w : World) :
  (List.length (bound_to r (snd (spec_match_route r0 c w))) <= 1)%nat
  /\ (r <> r0 -> bound_to r (snd (spec_match_route r0 c w)) = []).
Proof.
  unfold spec_match_route.
  destruct (isUsed w r0); [cbn; split; [lia | reflexivity] |].
  destruct (find _ _) as [s |]; [| cbn; split; [lia | reflexivity]].
  assert (Hone : forall t, (t = [] \/ t = [Call_setUsed r0]) ->
            (List.length (bound_to r ([matching_log w r0; Call_setStream r0 s] ++ t)) <= 1)%nat
            /\ (r <> r0 ->
                bound_to r ([matching_log w r0; Call_setStream r0 s] ++ t) = [])).
  { intros t Ht. unfold bound_to.
    assert (E : setStream_calls ([matching_log w r0; Call_setStream r0 s] ++ t)
                = [(r0, s)]) by (destruct Ht as [-> | ->]; reflexivity).
    rewrite E. cbn. destruct (Nat.eqb_spec r0 r) as [-> | Hneq]; cbn.
    - split; [lia | congruence].
    - split; [lia | reflexivity]. }
  destruct (setStream r0 s w) as [[|] w1]; cbn [snd].
  - apply Hone. now right.
  - apply (Hone []). now left.
Qed.

Lemma spec_match_phase_bound (l : list RouteId) (r : RouteId)
    (c : StreamRouteCollection) (w : World) :
  NoDup l ->
  (List.length (bound_to r (snd (spec_match_phase l c w))) <= 1)%nat
  /\ (~ In r l -> bound_to r (snd (spec_match_phase l c w)) = []).
Proof.
  intros Hnodup. revert c w.
  induction Hnodup as [| r0 l Hnotin Hnodup IH]; intros c w.
  - cbn. split; [lia | reflexivity].
  - cbn [spec_match_phase].
    destruct (spec_match_route_bound r0 r c w) as [Hhead Hother].
    destruct (spec_match_route r0 c w) as [[c1 w1] t1]. cbn [snd] in Hhead, Hother.
    destruct (IH c1 w1) as [Htail Habsent].
    destruct (spec_match_phase l c1 w1) as [[c2 w2] t2]. cbn [snd] in *.
    rewrite bound_to_app, List.length_app. split.
    + destruct (Nat.eq_dec r r0) as [-> | Hneq].
      * rewrite (Habsent Hnotin). cbn. lia.
      * rewrite (Hother Hneq). cbn. lia.
    + intros Hnot. rewrite Hother, Habsent; [reflexivity | |]; cbn in Hnot; intuition.
Qed.

(** C2. With no [NULL] stream, [prepareRouting] is the match phase of the
    specification: each route of the registry that is not in use, in order,
    is paired with the first stream of the list of its direction that is
    started, routed by policy, without a new route and matching; when the
    pairing succeeds the route is marked used and its mask is folded into
    [enabled], and into [needReflow] and [needRepath] when the route flags
    them. Consequently, each route being registered once, at most one
    stream is bound to any route by a match phase. *)
Theorem prepareRouting_match_phase (c : StreamRouteCollection) (w : World) :
  streams_valid c ->
  prepareRouting c w = Done (spec_match_phase (registered c) c w)
  /\ (NoDup (registered c) ->
      forall c' w' t r,
        prepareRouting c w = Done (c', w', t) ->
        (List.length (bound_to r t) <= 1)%nat).
Proof.
  intros Hvalid.
  assert (Hrun : prepareRouting c w = Done (spec_match_phase (registered c) c w))
    by (apply prepareRouting_loop_spec, Hvalid).
  split; [exact Hrun |].
  intros Hnodup c' w' t r Hdone. rewrite Hrun in Hdone.
  destruct (spec_match_phase_bound (registered c) r c w Hnodup) as [Hle _].
  injection Hdone as Hdone. rewrite Hdone in Hle. exact Hle.
Qed.

(** ** C9: a failed pairing ends the scan *)

(** C9. When the first eligible stream of the list refuses the route
    ([setStream] returns [false]), [setStreamForRoute] returns [false] at
    once: whatever follows in the list, another eligible stream included,
    is not offered the route. In [prepareRouting] the route then stays
    unused: [setUsed] is not called and the collection is unchanged. *)
Theorem failed_setStream_ends_scan (c : StreamRouteCollection) (w : World)
    (k : string) (r : RouteId) (l1 : list IoStreamPtr) (s : StreamId)
    (rest : list IoStreamPtr) :
  streams_of c (direction_of_isOut (isOut w r)) = l1 ++ Some s :: rest ->
  Forall (fun p : IoStreamPtr => p <> None) l1 ->
  (forall s', In s' (pointees l1) -> eligible w r s' = false) ->
  eligible w r s = true ->
  fst (setStream r s w) = false ->
  let w' := snd (setStream r s w) in
  let t := [matching_log w r; Call_setStream r s] in
  setStreamForRoute r c w = Done (false, w', t)
  /\ setStream_calls t = [(r, s)]
  /\ (isUsed w r = false ->
      prepareRouting_body (k, Some r) c w = Done (c, w', t)
      /\ setUsed_calls t = []).
Proof.
  intros Hlist Hvalid Hnone Hs Hfail. cbv zeta.
  assert (Hscan : setStreamForRoute r c w
                  = Done (false, snd (setStream r s w),
                          [matching_log w r; Call_setStream r s])).
  { rewrite setStreamForRoute_unfold, Hlist, scan_stops_at_eligible by exact Hs.
    rewrite scan_first_eligible.
    - assert (Hfind : find (eligible w r) (pointees (l1 ++ [Some s])) = Some s).
      { clear Hlist Hvalid. induction l1 as [| [s1 |] l1 IH]; cbn.
        - now rewrite Hs.
        - rewrite (Hnone s1) by (cbn; now left).
          apply IH. intros s' Hin. apply Hnone. cbn. now right.
        - apply IH. intros s' Hin. apply Hnone. exact Hin. }
      rewrite Hfind, Hfail. reflexivity.
    - apply Forall_app. split; [exact Hvalid |].
      constructor; [discriminate | constructor]. }
  split; [exact Hscan |]. split; [reflexivity |].
  intros Hunused. split; [| reflexivity].
  rewrite prepareRouting_body_run, Hunused, Hscan. reflexivity.
Qed.

(** ** C10: the masks only grow during the match phase *)

Lemma bits_included_refl (a : Z) : bits_included a a.
Proof. intros i Hi. exact Hi. Qed.

Lemma bits_included_trans (a b c : Z) :
  bits_included a b -> bits_included b c -> bits_included a c.
Proof. intros Hab Hbc i Hi. apply Hbc, Hab, Hi. Qed.

Lemma bits_included_lor (a b : Z) : bits_included a (Z.lor a b).
Proof. intros i Hi. rewrite Z.lor_spec, Hi. reflexivity. Qed.

Lemma masks_grow_refl (c : StreamRouteCollection) : masks_grow c c.
Proof.
  intros d. repeat split; apply bits_included_refl.
Qed.

Lemma masks_grow_trans (c1 c2 c3 : StreamRouteCollection) :
  masks_grow c1 c2 -> masks_grow c2 c3 -> masks_grow c1 c3.
Proof.
  intros H12 H23 d.
  destruct (H12 d) as (He & Hf & Hp & Hprev).
  destruct (H23 d) as (He' & Hf' & Hp' & Hprev').
  repeat split; try (eapply bits_included_trans; eassumption).
  congruence.
Qed.

Lemma fold_route_masks_grow (w : World) (r : RouteId) (c : StreamRouteCollection) :
  masks_grow c (fold_route_masks w r c).
Proof.
  intros d. unfold fold_route_masks.
  destruct (isOut w r), d; cbn;
    destruct (needReflow w r), (needRepath w r);
    repeat split;
    first [apply bits_included_lor | apply bits_included_refl].
Qed.

Lemma prepareRouting_body_grow (it : string * AudioStreamRoutePtr)
    (c : StreamRouteCollection) (w : World)
    (c' : StreamRouteCollection) (w' : World) (t : list Event) :
  prepareRouting_body it c w = Done (c', w', t) -> masks_grow c c'.
Proof.
  destruct it as [k [r |]].
  - rewrite prepareRouting_body_run.
    destruct (isUsed w r).
    + intros E. injection E as <- _ _. apply masks_grow_refl.
    + destruct (setStreamForRoute r c w) as [[[[|] w1] t1] |]; [| | discriminate];
        intros E; injection E as <- _ _.
      * apply fold_route_masks_grow.
      * apply masks_grow_refl.
  - rewrite prepareRouting_body_null. intros E. injection E as <- _ _.
    apply masks_grow_refl.
Qed.

(** The masks stay in the range of [uint32_t]: the hypothesis of the
    derived route sets is an invariant of the collection. *)
Lemma init_wf : RouteMasks.wf RouteMasks.init.
Proof. unfold RouteMasks.wf, is_u32; cbn. lia. Qed.

Lemma reset_wf (m : RouteMasks.t) : RouteMasks.wf m -> RouteMasks.wf (RouteMasks.reset m).
Proof.
  intros (_ & _ & He & _).
  unfold RouteMasks.wf, is_u32, u32_modulus in *; cbn in *. lia.
Qed.

Lemma fold_route_masks_wf (w : World) (r : RouteId) (c : StreamRouteCollection) :
  (forall d, RouteMasks.wf (masks_of c d)) ->
  forall d, RouteMasks.wf (masks_of (fold_route_masks w r c) d).
Proof.
  intros Hwf d. pose proof (getMask_u32 w r) as Hmask.
  pose proof (Hwf Input) as (? & ? & ? & ?).
  pose proof (Hwf Output) as (? & ? & ? & ?).
  unfold fold_route_masks.
  destruct (isOut w r), d; cbn in *;
    destruct (needReflow w r), (needRepath w r);
    (split; [| split; [| split]]);
    first [assumption | apply lor_is_u32; assumption].
Qed.

Lemma prepareRouting_wf (c : StreamRouteCollection) (w : World)
    (c' : StreamRouteCollection) (w' : World) (t : list Event) :
  prepareRouting c w = Done (c', w', t) ->
  (forall d, RouteMasks.wf (masks_of c d)) ->
  forall d, RouteMasks.wf (masks_of c' d).
Proof.
  intros Hdone.
  refine (for_each_preserves
            (fun c1 c2 => (forall d, RouteMasks.wf (masks_of c1 d)) ->
                          forall d, RouteMasks.wf (masks_of c2 d))
            prepareRouting_body (routes c) _ _ _ c w c' w' t Hdone).
  - intros s Hs. exact Hs.
  - intros s1 s2 s3 H12 H23 Hs. apply H23, H12, Hs.
  - intros [k [r |]] s w0 s' w0' t0 _.
    + rewrite prepareRouting_body_run.
      destruct (isUsed w0 r).
      * intros E. injection E as <- _ _. intros Hs. exact Hs.
      * destruct (setStreamForRoute r s w0) as [[[[|] w1] t1] |];
          [| | discriminate]; intros E; injection E as <- _ _.
        -- apply fold_route_masks_wf.
        -- intros Hs. exact Hs.
    + rewrite prepareRouting_body_null. intros E. injection E as <- _ _.
      intros Hs. exact Hs.
Qed.

(** C10. [prepareRouting] returns when no stream is [NULL], and whenever it
    returns, for every direction, each of [enabled], [needReflow] and
    [needRepath] contains every bit it had before, and [previouslyEnabled]
    is unchanged. *)
Theorem prepareRouting_monotone (c : StreamRouteCollection) (w : World) :
  (streams_valid c -> exists c' w' t, prepareRouting c w = Done (c', w', t))
  /\ forall c' w' t,
       prepareRouting c w = Done (c', w', t) ->
       forall d,
         bits_included (enabledRouteMask c d) (enabledRouteMask c' d)
         /\ bits_included (needReflowRouteMask c d) (needReflowRouteMask c' d)
         /\ bits_included (needRepathRouteMask c d) (needRepathRouteMask c' d)
         /\ prevEnabledRouteMask c' d = prevEnabledRouteMask c d.
Proof.
  split.
  - intros Hvalid.
    destruct (spec_match_phase (registered c) c w) as [[c' w'] t] eqn:E.
    exists c', w', t. rewrite <- E. apply prepareRouting_loop_spec, Hvalid.
  - intros c' w' t Hdone.
    apply (for_each_preserves masks_grow prepareRouting_body (routes c)
             masks_grow_refl masks_grow_trans) in Hdone; [exact Hdone |].
    intros x s w0 s' w0' t0 _. apply prepareRouting_body_grow.
Qed.

(** ** C3: enableRoutes and disableRoutes *)

Lemma filter_ext_in_bool {A : Type} (f g : A -> bool) (l : list A) :
  (forall x, In x l -> f x = g x) -> filter f l = filter g l.
Proof.
  induction l as [| x l IH]; intros Hfg; [reflexivity |].
  cbn. rewrite (Hfg x) by now left.
  rewrite IH; [reflexivity |]. intros y Hy. apply Hfg. now right.
Qed.

(** The body of the loop of [enableRoutes] for a route. *)
Lemma enableRoutes_body_run (isPreEnable : bool) (k : string) (r : RouteId)
    (w : World) :
  exists t,
    enableRoutes_body isPreEnable (@pair string AudioStreamRoutePtr k (Some r)) tt w
    = Done (tt, if to_enable w r then snd (route r isPreEnable w) else w, t)
    /\ route_calls t = (if to_enable w r then [(r, isPreEnable)] else [])
    /\ unroute_calls t = [].
Proof.
  unfold enableRoutes_body. cbn [snd].
  rewrite bind_query. fold (to_enable w r).
  destruct (to_enable w r).
  - rewrite bind_query, bind_log, bind_action.
    destruct (negb (fst (route r isPreEnable w) =? OK)).
    + rewrite bind_query. eexists. split; [reflexivity |]. split; reflexivity.
    + eexists. split; [reflexivity |]. split; reflexivity.
  - eexists. split; [reflexivity |]. split; reflexivity.
Qed.

Lemma disableRoutes_body_run (isPostDisable : bool) (k : string) (r : RouteId)
    (w : World) :
  exists t,
    disableRoutes_body isPostDisable (@pair string AudioStreamRoutePtr k (Some r)) tt w
    = Done (tt, if to_disable w r then unroute r isPostDisable w else w, t)
    /\ unroute_calls t = (if to_disable w r then [(r, isPostDisable)] else [])
    /\ route_calls t = [].
Proof.
  unfold disableRoutes_body. cbn [snd].
  rewrite bind_query. fold (to_disable w r).
  destruct (to_disable w r).
  - rewrite bind_query, bind_log.
    eexists. split; [reflexivity |]. split; reflexivity.
  - eexists. split; [reflexivity |]. split; reflexivity.
Qed.

Lemma route_calls_app (t1 t2 : list Event) :
  route_calls (t1 ++ t2) = route_calls t1 ++ route_calls t2.
Proof. apply flat_map_app. Qed.

Lemma unroute_calls_app (t1 t2 : list Event) :
  unroute_calls (t1 ++ t2) = unroute_calls t1 ++ unroute_calls t2.
Proof. apply flat_map_app. Qed.

Lemma enableRoutes_loop (isPreEnable : bool) (l : RouteMap) (w : World) :
  exists w' t,
    for_each l (enableRoutes_body isPreEnable) tt w = Done (tt, w', t)
    /\ route_calls t
       = map (fun r => (r, isPreEnable))
             (routes_to_enable isPreEnable (registered_in l) w)
    /\ unroute_calls t = [].
Proof.
  revert w. induction l as [| [k [r |]] l IH]; intros w.
  - exists w, []. repeat split.
  - change (registered_in ((k, Some r) :: l)) with (r :: registered_in l).
    cbn [for_each routes_to_enable]. unfold bind at 1.
    destruct (enableRoutes_body_run isPreEnable k r w) as (t1 & E & Hr1 & Hu1).
    rewrite E.
    destruct (IH (if to_enable w r then snd (route r isPreEnable w) else w))
      as (w' & t2 & -> & Hr2 & Hu2).
    exists w', (t1 ++ t2). split; [reflexivity |].
    rewrite route_calls_app, unroute_calls_app, Hr1, Hr2, Hu1, Hu2.
    split; [| reflexivity].
    destruct (to_enable w r); reflexivity.
  - change (registered_in ((k, None) :: l)) with (registered_in l).
    cbn [for_each]. unfold bind at 1. cbn [enableRoutes_body snd ret].
    destruct (IH w) as (w' & t & -> & Hr & Hu).
    exists w', t. repeat split; assumption.
Qed.

Lemma disableRoutes_loop (isPostDisable : bool) (l : RouteMap) (w : World) :
  exists w' t,
    for_each l (disableRoutes_body isPostDisable) tt w = Done (tt, w', t)
    /\ unroute_calls t
       = map (fun r => (r, isPostDisable))
             (routes_to_disable isPostDisable (registered_in l) w)
    /\ route_calls t = [].
Proof.
  revert w. induction l as [| [k [r |]] l IH]; intros w.
  - exists w, []. repeat split.
  - change (registered_in ((k, Some r) :: l)) with (r :: registered_in l).
    cbn [for_each routes_to_disable]. unfold bind at 1.
    destruct (disableRoutes_body_run isPostDisable k r w) as (t1 & E & Hu1 & Hr1).
    rewrite E.
    destruct (IH (if to_disable w r then unroute r isPostDisable w else w))
      as (w' & t2 & -> & Hu2 & Hr2).
    exists w', (t1 ++ t2). split; [reflexivity |].
    rewrite route_calls_app, unroute_calls_app, Hr1, Hr2, Hu1, Hu2.
    split; [| reflexivity].
    destruct (to_disable w r); reflexivity.
  - change (registered_in ((k, None) :: l)) with (registered_in l).
    cbn [for_each]. unfold bind at 1. cbn [disableRoutes_body snd ret].
    destruct (IH w) as (w' & t & -> & Hu & Hr).
    exists w', t. repeat split; assumption.
Qed.

(** When the device actions of a route leave the transitions of the other
    routes alone, the transitions can be read before the loop. *)
Lemma routes_to_enable_filter (flag : bool) (l : list RouteId) (w : World) :
  NoDup l -> route_is_local ->
  routes_to_enable flag l w = filter (to_enable w) l.
Proof.
  intros Hnodup Hlocal. revert w.
  induction Hnodup as [| r l Hnotin Hnodup IH]; intros w; [reflexivity |].
  cbn [routes_to_enable filter]. rewrite !IH.
  destruct (to_enable w r); [| reflexivity].
  f_equal. apply filter_ext_in_bool. intros r' Hin.
  apply Hlocal. intros ->. contradiction.
Qed.

Lemma routes_to_disable_filter (flag : bool) (l : list RouteId) (w : World) :
  NoDup l -> unroute_is_local ->
  routes_to_disable flag l w = filter (to_disable w) l.
Proof.
  intros Hnodup Hlocal. revert w.
  induction Hnodup as [| r l Hnotin Hnodup IH]; intros w; [reflexivity |].
  cbn [routes_to_disable filter]. rewrite !IH.
  destruct (to_disable w r); [| reflexivity].
  f_equal. apply filter_ext_in_bool. intros r' Hin.
  apply Hlocal. intros ->. contradiction.
Qed.

(** C3. [enableRoutes] always returns, and calls [route(isPreEnable)] on
    exactly the registered routes that, when the loop reaches them, go from
    unused to used (not previously used and now used) or need a repath;
    [disableRoutes] always returns, and calls [unroute(isPostDisable)] on
    exactly those that go from used to unused or need a repath; neither
    calls the other action. When each route is registered once and the
    device actions of a route leave the transitions of the other routes
    alone, these are the routes in transition when the function is called.
    The pre and post variants are the same functions with the flag set, so
    they test the same transitions as the default ones. *)
Theorem enable_disable_transitions (flag : bool) (c : StreamRouteCollection)
    (w : World) :
  (exists w' t,
      enableRoutes flag c w = Done (tt, w', t)
      /\ route_calls t
         = map (fun r => (r, flag)) (routes_to_enable flag (registered c) w)
      /\ unroute_calls t = [])
  /\ (exists w' t,
         disableRoutes flag c w = Done (tt, w', t)
         /\ unroute_calls t
            = map (fun r => (r, flag)) (routes_to_disable flag (registered c) w)
         /\ route_calls t = [])
  /\ (NoDup (registered c) -> route_is_local ->
      routes_to_enable flag (registered c) w
      = filter (to_enable w) (registered c))
  /\ (NoDup (registered c) -> unroute_is_local ->
      routes_to_disable flag (registered c) w
      = filter (to_disable w) (registered c))
  /\ preEnableRoutes c = enableRoutes true c
  /\ postDisableRoutes c = disableRoutes true c.
Proof.
  split; [apply enableRoutes_loop |].
  split; [apply disableRoutes_loop |].
  split; [apply routes_to_enable_filter |].
  split; [apply routes_to_disable_filter |].
  split; reflexivity.
Qed.

(** ** C8: addStream and the priority of direct streams *)

Lemma addStream_run (stream : StreamId) (c : StreamRouteCollection) (w : World) :
  addStream stream c w
  = Done (let d := direction_of_isOut (IoStream_isOut w stream) in
          set_streams c d
            (if isDirect w stream then Some stream :: streams_of c d
             else streams_of c d ++ [Some stream]),
          w, []).
Proof.
  unfold addStream. rewrite bind_query.
  destruct (isDirect w stream); rewrite bind_query; reflexivity.
Qed.

Lemma streams_of_set_streams_same (c : StreamRouteCollection) (d : Direction)
    (l : list IoStreamPtr) :
  streams_of (set_streams c d l) d = l.
Proof. destruct d; reflexivity. Qed.

Lemma streams_of_set_streams_other (c : StreamRouteCollection) (d d' : Direction)
    (l : list IoStreamPtr) :
  d' <> d -> streams_of (set_streams c d l) d' = streams_of c d'.
Proof. destruct d, d'; intros Hneq; try reflexivity; contradiction. Qed.

Lemma direction_eq_dec (d d' : Direction) : {d = d'} + {d <> d'}.
Proof. decide equality. Qed.

(** A call of [addStream] adds at one end of a list: what is in a list
    stays in it, in the same order. *)
Lemma addStream_extends (stream : StreamId) (c c' : StreamRouteCollection)
    (w w' : World) (t : list Event) (d : Direction) :
  addStream stream c w = Done (c', w', t) ->
  exists front back, streams_of c' d = front ++ streams_of c d ++ back.
Proof.
  rewrite addStream_run. intros E. injection E as <- _ _. cbv zeta.
  destruct (direction_eq_dec d (direction_of_isOut (IoStream_isOut w stream)))
    as [-> | Hneq].
  - rewrite streams_of_set_streams_same. destruct (isDirect w stream).
    + exists [Some stream], []. now rewrite app_nil_r.
    + exists [], [Some stream]. reflexivity.
  - rewrite streams_of_set_streams_other by exact Hneq.
    exists [], []. now rewrite app_nil_r.
Qed.

Lemma after_adds_extends (c c' : StreamRouteCollection) (d : Direction) :
  after_adds c c' ->
  exists front back, streams_of c' d = front ++ streams_of c d ++ back.
Proof.
  induction 1 as [| c1 c2 s w w' t Hreach IH Hadd].
  - exists [], []. now rewrite app_nil_r.
  - destruct IH as (f1 & b1 & E1).
    destruct (addStream_extends s c1 c2 w w' t d Hadd) as (f2 & b2 & E2).
    exists (f2 ++ f1), (b1 ++ b2). rewrite E2, E1.
    now rewrite <- !app_assoc.
Qed.

(** The elements that calls of [addStream] put in front of a list are
    streams that were direct when they were added. *)
Lemma addStream_fronts (stream : StreamId) (c c' : StreamRouteCollection)
    (w w' : World) (t : list Event) (d : Direction) :
  addStream stream c w = Done (c', w', t) ->
  exists front back,
    streams_of c' d = front ++ streams_of c d ++ back
    /\ Forall (fun p : IoStreamPtr =>
                 exists s w0, p = Some s /\ isDirect w0 s = true) front.
Proof.
  rewrite addStream_run. intros E. injection E as <- _ _. cbv zeta.
  destruct (direction_eq_dec d (direction_of_isOut (IoStream_isOut w stream)))
    as [-> | Hneq].
  - rewrite streams_of_set_streams_same. destruct (isDirect w stream) eqn:Hdirect.
    + exists [Some stream], []. split; [now rewrite app_nil_r |].
      constructor; [| constructor]. exists stream, w. split; [reflexivity | exact Hdirect].
    + exists [], [Some stream]. split; [reflexivity | constructor].
  - rewrite streams_of_set_streams_other by exact Hneq.
    exists [], []. split; [now rewrite app_nil_r | constructor].
Qed.

Lemma after_adds_fronts (c c' : StreamRouteCollection) (d : Direction) :
  after_adds c c' ->
  exists front back,
    streams_of c' d = front ++ streams_of c d ++ back
    /\ Forall (fun p : IoStreamPtr =>
                 exists s w0, p = Some s /\ isDirect w0 s = true) front.
Proof.
  induction 1 as [| c1 c2 s w w' t Hreach IH Hadd].
  - exists [], []. split; [now rewrite app_nil_r | constructor].
  - destruct IH as (f1 & b1 & E1 & Hf1).
    destruct (addStream_fronts s c1 c2 w w' t d Hadd) as (f2 & b2 & E2 & Hf2).
    exists (f2 ++ f1), (b1 ++ b2). split.
    + rewrite E2, E1. now rewrite <- !app_assoc.
    + apply Forall_app. split; assumption.
Qed.

Lemma pointees_app (l1 l2 : list IoStreamPtr) :
  pointees (l1 ++ l2) = pointees l1 ++ pointees l2.
Proof. apply flat_map_app. Qed.

Lemma pointees_In (s : StreamId) (l : list IoStreamPtr) :
  In s (pointees l) -> In (Some s) l.
Proof.
  unfold pointees. rewrite in_flat_map.
  intros ([s' |] & Hin & Hs); cbn in Hs; [| contradiction].
  destruct Hs as [-> | []]. exact Hin.
Qed.

(** The scan of a list that starts with streams [l1], none of them [NULL],
    followed by an eligible stream [s]: the route is offered, by a call of
    [setStream], to the first eligible stream of [l1], or to [s] when [l1]
    has none, and to nothing that follows [s]. *)
Lemma scan_offers_up_to_eligible (w : World) (r : RouteId) (s : StreamId)
    (l1 rest : list IoStreamPtr) :
  Forall (fun p : IoStreamPtr => p <> None) l1 ->
  eligible w r s = true ->
  exists s',
    find (eligible w r) (pointees (l1 ++ [Some s])) = Some s'
    /\ setStreamForRoute_loop r (l1 ++ Some s :: rest) w
       = Done (fst (setStream r s' w), snd (setStream r s' w),
               [matching_log w r; Call_setStream r s'])
    /\ ((forall s0, In (Some s0) l1 -> eligible w r s0 = false) -> s' = s).
Proof.
  intros Hvalid Hs.
  assert (Hvalid' : Forall (fun p : IoStreamPtr => p <> None) (l1 ++ [Some s])).
  { apply Forall_app. split; [exact Hvalid |].
    constructor; [discriminate | constructor]. }
  rewrite scan_stops_at_eligible by exact Hs.
  rewrite scan_first_eligible by exact Hvalid'.
  destruct (find (eligible w r) (pointees (l1 ++ [Some s]))) as [s' |] eqn:Hfind.
  - exists s'. split; [reflexivity |]. split; [reflexivity |].
    intros Hnone. apply find_some in Hfind. destruct Hfind as [Hin Helig].
    rewrite pointees_app in Hin. apply in_app_or in Hin.
    destruct Hin as [Hin | [-> | []]]; [| reflexivity].
    apply pointees_In in Hin. rewrite (Hnone s' Hin) in Helig. discriminate.
  - exfalso.
    assert (Hin : In s (pointees (l1 ++ [Some s]))).
    { rewrite pointees_app. apply in_or_app. right. now left. }
    pose proof (find_none _ _ Hfind s Hin) as Hno. cbn in Hno. congruence.
Qed.

(** C8. [addStream] puts a direct stream at the front of the list of its
    direction and any other stream at the back. Therefore, when a stream
    that is not direct is added and a direct stream of the same direction
    is added later, whatever other streams are added in between and after,
    the direct stream stands before the other one in the list, and only
    streams that were direct when they were added later stand before it.
    The scan for a route that the direct stream is eligible for then offers
    the route, by a call of [setStream], to the direct stream, unless one
    of those later direct streams is eligible, which is offered the route
    instead; it never reaches the other stream. In particular, just after
    the direct stream is added the route is offered to it. *)
Theorem direct_streams_first :
  (forall stream c w,
      addStream stream c w
      = Done (let d := direction_of_isOut (IoStream_isOut w stream) in
              set_streams c d
                (if isDirect w stream then Some stream :: streams_of c d
                 else streams_of c d ++ [Some stream]),
              w, []))
  /\ (forall (out : bool) (other direct : StreamId)
             (c0 c1 c2 c3 c4 : StreamRouteCollection) (w1 w2 : World),
         isDirect w1 other = false -> IoStream_isOut w1 other = out ->
         addStream other c0 w1 = Done (c1, w1, []) ->
         after_adds c1 c2 ->
         isDirect w2 direct = true -> IoStream_isOut w2 direct = out ->
         addStream direct c2 w2 = Done (c3, w2, []) ->
         after_adds c3 c4 ->
         exists l1 l2 l3,
           streams_of c4 (direction_of_isOut out)
           = l1 ++ Some direct :: l2 ++ Some other :: l3
           /\ Forall (fun p : IoStreamPtr =>
                        exists s w0, p = Some s /\ isDirect w0 s = true) l1
           /\ forall (r : RouteId) (w : World),
                isOut w r = out ->
                eligible w r direct = true ->
                setStreamForRoute r c4 w
                = setStreamForRoute_loop r (l1 ++ [Some direct]) w
                /\ exists s',
                     find (eligible w r) (pointees (l1 ++ [Some direct]))
                     = Some s'
                     /\ setStreamForRoute r c4 w
                        = Done (fst (setStream r s' w), snd (setStream r s' w),
                                [matching_log w r; Call_setStream r s'])
                     /\ ((forall s, In (Some s) l1 -> eligible w r s = false) ->
                         s' = direct))
  /\ (forall (direct : StreamId) (c2 c3 : StreamRouteCollection) (w2 : World),
         isDirect w2 direct = true ->
         addStream direct c2 w2 = Done (c3, w2, []) ->
         forall (r : RouteId) (w : World),
           direction_of_isOut (isOut w r)
           = direction_of_isOut (IoStream_isOut w2 direct) ->
           eligible w r direct = true ->
           setStreamForRoute r c3 w
           = Done (fst (setStream r direct w), snd (setStream r direct w),
                   [matching_log w r; Call_setStream r direct])).
Proof.
  split; [exact addStream_run |]. split.
  - intros out other direct c0 c1 c2 c3 c4 w1 w2
           Hnd Hout1 Hadd1 Hreach12 Hd Hout2 Hadd2 Hreach34.
    set (d := direction_of_isOut out).
    rewrite addStream_run in Hadd1, Hadd2.
    injection Hadd1 as Hc1. injection Hadd2 as Hc3. cbv zeta in Hc1, Hc3.
    rewrite Hnd, Hout1 in Hc1. rewrite Hd, Hout2 in Hc3. fold d in Hc1, Hc3.
    destruct (after_adds_extends c1 c2 d Hreach12) as (f1 & b1 & E12).
    destruct (after_adds_fronts c3 c4 d Hreach34) as (f2 & b2 & E34 & Hfront).
    rewrite <- Hc1, streams_of_set_streams_same in E12.
    rewrite <- Hc3, streams_of_set_streams_same, E12 in E34.
    exists f2, (f1 ++ streams_of c0 d), (b1 ++ b2).
    assert (Hshape : streams_of c4 d
                     = f2 ++ Some direct :: (f1 ++ streams_of c0 d)
                          ++ Some other :: b1 ++ b2).
    { rewrite E34. cbn [app]. rewrite <- !app_assoc. reflexivity. }
    split; [exact Hshape |]. split; [exact Hfront |].
    intros r w Hdir Helig.
    rewrite setStreamForRoute_unfold, Hdir. fold d. rewrite Hshape.
    split; [now apply scan_stops_at_eligible |].
    apply scan_offers_up_to_eligible; [| exact Helig].
    eapply Forall_impl; [| exact Hfront].
    intros p (s & w0 & -> & _). discriminate.
  - intros direct c2 c3 w2 Hd Hadd r w Hdir Helig.
    rewrite addStream_run in Hadd. injection Hadd as <-. cbv zeta.
    rewrite Hd, setStreamForRoute_unfold, Hdir, streams_of_set_streams_same.
    now apply scan_step_eligible.
Qed.

(** ** The member functions store no NULL pointer

    The validity that the properties above assume holds of every collection
    built by the member functions: [push_back] calls a member of its
    argument before storing it and [addStream] takes a reference. *)

Lemma empty_collection_valid :
  routes_valid empty_collection /\ streams_valid empty_collection.
Proof.
  split; [constructor | intros []; constructor].
Qed.

Lemma map_assign_valid (key : string) (r : RouteId) (m : RouteMap) :
  Forall (fun it : string * AudioStreamRoutePtr => snd it <> None) m ->
  Forall (fun it : string * AudioStreamRoutePtr => snd it <> None)
         (map_assign key (Some r) m).
Proof.
  induction 1 as [| [k v] m Hv Hm IH]; cbn [map_assign].
  - constructor; [discriminate | constructor].
  - destruct (String.compare key k).
    + constructor; [discriminate | exact Hm].
    + constructor; [discriminate |]. constructor; assumption.
    + constructor; assumption.
Qed.

Lemma push_back_valid (element : AudioStreamRoutePtr)
    (c c' : StreamRouteCollection) (w w' : World) (t : list Event) :
  push_back element c w = Done (c', w', t) ->
  (routes_valid c -> routes_valid c')
  /\ (streams_valid c -> streams_valid c').
Proof.
  destruct element as [e |]; [| discriminate].
  unfold push_back. rewrite bind_deref, !bind_query.
  destruct (map_find _ (routes c)) as [old |].
  - rewrite bind_log. unfold ret. intros E. injection E as <- _ _. tauto.
  - unfold ret. intros E. injection E as <- _ _. split.
    + apply map_assign_valid.
    + intros Hvalid. exact Hvalid.
Qed.

Lemma addStream_valid (stream : StreamId) (c c' : StreamRouteCollection)
    (w w' : World) (t : list Event) :
  addStream stream c w = Done (c', w', t) ->
  (routes_valid c -> routes_valid c')
  /\ (streams_valid c -> streams_valid c').
Proof.
  rewrite addStream_run. intros E. injection E as <- _ _. cbv zeta.
  split; [intros Hvalid; exact Hvalid |].
  intros Hvalid d.
  destruct (direction_eq_dec d (direction_of_isOut (IoStream_isOut w stream)))
    as [-> | Hneq].
  - rewrite streams_of_set_streams_same. destruct (isDirect w stream).
    + constructor; [discriminate | apply Hvalid].
    + apply Forall_app. split; [apply Hvalid |].
      constructor; [discriminate | constructor].
  - rewrite streams_of_set_streams_other by exact Hneq. apply Hvalid.
Qed.

Lemma prepareRouting_keeps_pointers (c c' : StreamRouteCollection)
    (w w' : World) (t : list Event) :
  prepareRouting c w = Done (c', w', t) ->
  routes c' = routes c /\ mOrderedStreamList c' = mOrderedStreamList c.
Proof.
  intros Hdone.
  refine (for_each_preserves
            (fun c1 c2 => routes c2 = routes c1
                          /\ mOrderedStreamList c2 = mOrderedStreamList c1)
            prepareRouting_body (routes c) _ _ _ c w c' w' t Hdone).
  - intros s. split; reflexivity.
  - intros s1 s2 s3 [Hr12 Hs12] [Hr23 Hs23]. split; congruence.
  - intros [k [r |]] s w0 s' w0' t0 _.
    + rewrite prepareRouting_body_run.
      destruct (isUsed w0 r).
      * intros E. injection E as <- _ _. split; reflexivity.
      * destruct (setStreamForRoute r s w0) as [[[[|] w1] t1] |];
          [| | discriminate]; intros E; injection E as <- _ _;
          split; reflexivity.
    + rewrite prepareRouting_body_null. intros E. injection E as <- _ _.
      split; reflexivity.
Qed.

(** * Further properties of the collection *)

(** ** removeStream *)

Lemma IoStreamPtr_eqb_eq (p q : IoStreamPtr) : IoStreamPtr_eqb p q = true <-> p = q.
Proof.
  destruct p as [a |], q as [b |]; cbn; try (split; [discriminate | discriminate]).
  - rewrite Nat.eqb_eq. split; [intros ->; reflexivity | intros E; now injection E].
  - split; reflexivity.
Qed.

Lemma list_remove_In (p q : IoStreamPtr) (l : list IoStreamPtr) :
  In q (list_remove p l) <-> In q l /\ q <> p.
Proof.
  unfold list_remove. rewrite filter_In, negb_true_iff.
  split; intros [Hin Hneq]; (split; [exact Hin |]).
  - intros ->. assert (E : IoStreamPtr_eqb p p = true) by now apply IoStreamPtr_eqb_eq.
    congruence.
  - destruct (IoStreamPtr_eqb q p) eqn:E; [| reflexivity].
    apply IoStreamPtr_eqb_eq in E. contradiction.
Qed.

Lemma list_remove_absent (p : IoStreamPtr) (l : list IoStreamPtr) :
  ~ In p l -> list_remove p l = l.
Proof.
  induction l as [| q l IH]; intros Hnot; [reflexivity |].
  unfold list_remove in *. cbn [filter].
  destruct (IoStreamPtr_eqb q p) eqn:E.
  - apply IoStreamPtr_eqb_eq in E. subst q. exfalso. apply Hnot. now left.
  - cbn [negb]. f_equal. apply IH. intros Hin. apply Hnot. now right.
Qed.

Lemma list_remove_app (p : IoStreamPtr) (l1 l2 : list IoStreamPtr) :
  list_remove p (l1 ++ l2) = list_remove p l1 ++ list_remove p l2.
Proof. apply filter_app. Qed.

Lemma list_remove_same (p : IoStreamPtr) (l : list IoStreamPtr) :
  list_remove p (p :: l) = list_remove p l.
Proof.
  unfold list_remove. cbn [filter].
  assert (E : IoStreamPtr_eqb p p = true) by now apply IoStreamPtr_eqb_eq.
  now rewrite E.
Qed.

Lemma set_streams_same (c : StreamRouteCollection) (d : Direction) :
  set_streams c d (streams_of c d) = c.
Proof. destruct c as [m [li lo] masks], d; reflexivity. Qed.

Lemma set_streams_twice (c : StreamRouteCollection) (d : Direction)
    (l l' : list IoStreamPtr) :
  set_streams (set_streams c d l) d l' = set_streams c d l'.
Proof. destruct d; reflexivity. Qed.

Lemma removeStream_run (s : StreamId) (c : StreamRouteCollection) (w : World) :
  removeStream s c w
  = Done (let d := direction_of_isOut (IoStream_isOut w s) in
          set_streams c d (list_remove (Some s) (streams_of c d)),
          w, []).
Proof. unfold removeStream. now rewrite bind_query. Qed.

Lemma list_remove_subsequence (p : IoStreamPtr) (l : list IoStreamPtr) :
  subsequence (list_remove p l) l.
Proof.
  induction l as [| q l IH]; [constructor |].
  unfold list_remove in *. cbn [filter].
  destruct (negb (IoStreamPtr_eqb q p)); now constructor.
Qed.

Lemma list_remove_occurrences (p q : IoStreamPtr) (l : list IoStreamPtr) :
  q <> p -> occurrences q (list_remove p l) = occurrences q l.
Proof.
  intros Hneq. unfold occurrences, list_remove.
  induction l as [| x l IH]; [reflexivity |]. cbn [filter].
  destruct (IoStreamPtr_eqb x p) eqn:Exp; cbn [negb].
  - apply IoStreamPtr_eqb_eq in Exp. subst x.
    destruct (IoStreamPtr_eqb q p) eqn:Eqp; [| exact IH].
    apply IoStreamPtr_eqb_eq in Eqp. contradiction.
  - cbn [filter]. destruct (IoStreamPtr_eqb q x); cbn [List.length]; now rewrite IH.
Qed.

Lemma subsequence_occurrences {q : IoStreamPtr} {l' l : list IoStreamPtr} :
  subsequence l' l -> (occurrences q l' <= occurrences q l)%nat.
Proof.
  unfold occurrences. induction 1 as [| x l' l Hsub IH | x l' l Hsub IH];
    cbn [filter]; [lia | |].
  - destruct (IoStreamPtr_eqb q x); cbn [List.length]; lia.
  - destruct (IoStreamPtr_eqb q x); cbn [List.length]; lia.
Qed.

(** The three facts that [removeStream] is stated with leave no choice:
    a list that is [l] with elements left out in order, that holds no [p]
    and as many of every other element as [l], is [l.remove(p)]. *)
Lemma removal_is_determined (p : IoStreamPtr) (l' l : list IoStreamPtr) :
  subsequence l' l ->
  ~ In p l' ->
  (forall q, q <> p -> occurrences q l' = occurrences q l) ->
  l' = list_remove p l.
Proof.
  induction 1 as [| x l' l Hsub IH | x l' l Hsub IH]; intros Hnot Hcount.
  - reflexivity.
  - assert (Hneq : x <> p) by (intros ->; apply Hnot; now left).
    unfold list_remove. cbn [filter].
    destruct (IoStreamPtr_eqb x p) eqn:E;
      [apply IoStreamPtr_eqb_eq in E; contradiction |].
    cbn [negb]. f_equal. apply IH.
    + intros Hin. apply Hnot. now right.
    + intros q Hq. specialize (Hcount q Hq). unfold occurrences in *.
      cbn [filter] in Hcount.
      destruct (IoStreamPtr_eqb q x); cbn [List.length] in Hcount; lia.
  - destruct (IoStreamPtr_eqb x p) eqn:E.
    + unfold list_remove. cbn [filter]. rewrite E. cbn [negb].
      apply IH; [exact Hnot |].
      intros q Hq. specialize (Hcount q Hq). unfold occurrences in *.
      cbn [filter] in Hcount.
      destruct (IoStreamPtr_eqb q x) eqn:Eqx; [| exact Hcount].
      apply IoStreamPtr_eqb_eq in Eqx, E. congruence.
    + exfalso.
      assert (Hneq : x <> p).
      { intros ->. assert (IoStreamPtr_eqb p p = true) by now apply IoStreamPtr_eqb_eq.
        congruence. }
      specialize (Hcount x Hneq).
      pose proof (@subsequence_occurrences x l' l Hsub) as Hle.
      unfold occurrences in *. cbn [filter] in Hcount.
      assert (Hxx : IoStreamPtr_eqb x x = true) by now apply IoStreamPtr_eqb_eq.
      rewrite Hxx in Hcount. cbn [List.length] in Hcount. lia.
Qed.

(** X1. [removeStream] always returns and touches nothing but the list of
    the direction of the stream. The new list is the old one with elements
    left out, the others in the order they had; it holds no occurrence of
    the stream and as many occurrences of every other element as before:
    exactly the occurrences of the stream are erased. When the stream is
    not in the list the collection is unchanged. *)
Theorem removeStream_spec (s : StreamId) (c : StreamRouteCollection) (w : World) :
  let d := direction_of_isOut (IoStream_isOut w s) in
  exists c',
    removeStream s c w = Done (c', w, [])
    /\ ~ In (Some s) (streams_of c' d)
    /\ (forall p, In p (streams_of c' d) <-> In p (streams_of c d) /\ p <> Some s)
    /\ (forall l1 l2,
           streams_of c d = l1 ++ l2 ->
           ~ In (Some s) l1 ->
           exists l2', streams_of c' d = l1 ++ l2')
    /\ (forall d', d' <> d -> streams_of c' d' = streams_of c d')
    /\ routes c' = routes c
    /\ mRoutes c' = mRoutes c
    /\ (~ In (Some s) (streams_of c d) -> c' = c)
    /\ subsequence (streams_of c' d) (streams_of c d)
    /\ (forall p, p <> Some s ->
                  occurrences p (streams_of c' d) = occurrences p (streams_of c d))
    /\ (forall l,
           subsequence l (streams_of c d) ->
           ~ In (Some s) l ->
           (forall p, p <> Some s -> occurrences p l = occurrences p (streams_of c d)) ->
           l = streams_of c' d).
Proof.
  cbv zeta. eexists. split; [apply removeStream_run |]. cbv zeta.
  set (d := direction_of_isOut (IoStream_isOut w s)).
  rewrite streams_of_set_streams_same.
  split; [intros Hin; apply list_remove_In in Hin; now destruct Hin |].
  split; [intros p; apply list_remove_In |].
  split.
  { intros l1 l2 Hsplit Hnot. exists (list_remove (Some s) l2).
    now rewrite Hsplit, list_remove_app, (list_remove_absent _ l1). }
  split; [intros d' Hneq; now apply streams_of_set_streams_other |].
  split; [reflexivity |]. split; [reflexivity |].
  split.
  { intros Hnot. rewrite list_remove_absent by exact Hnot. apply set_streams_same. }
  split; [apply list_remove_subsequence |].
  split; [intros p Hp; now apply list_remove_occurrences |].
  intros l Hsub Hnot Hcount. now apply removal_is_determined.
Qed.

(** X2. Adding a stream that is not in the list of its direction and
    removing it gives the collection back, and so does adding it twice and
    removing it once: [removeStream] erases the stream however many times it
    was added. *)
Theorem addStream_removeStream (s : StreamId) (c : StreamRouteCollection)
    (w : World) :
  ~ In (Some s) (streams_of c (direction_of_isOut (IoStream_isOut w s))) ->
  exists c1 c2,
    addStream s c w = Done (c1, w, [])
    /\ removeStream s c1 w = Done (c, w, [])
    /\ addStream s c1 w = Done (c2, w, [])
    /\ removeStream s c2 w = Done (c, w, []).
Proof.
  intros Hnot. eexists _, _.
  split; [apply addStream_run |]. cbv zeta.
  set (d := direction_of_isOut (IoStream_isOut w s)) in *.
  assert (Hback : forall l,
             list_remove (Some s) l = streams_of c d ->
             removeStream s (set_streams c d l) w = Done (c, w, [])).
  { intros l Hl. rewrite removeStream_run. cbv zeta. fold d.
    rewrite streams_of_set_streams_same, set_streams_twice, Hl.
    now rewrite set_streams_same. }
  assert (Hone : list_remove (Some s)
                   (if isDirect w s then Some s :: streams_of c d
                    else streams_of c d ++ [Some s]) = streams_of c d).
  { destruct (isDirect w s).
    - rewrite list_remove_same. now apply list_remove_absent.
    - rewrite list_remove_app, list_remove_same, list_remove_absent by exact Hnot.
      apply app_nil_r. }
  split; [apply Hback, Hone |].
  split; [apply addStream_run |]. cbv zeta. fold d.
  rewrite streams_of_set_streams_same, set_streams_twice.
  apply Hback.
  destruct (isDirect w s).
  - rewrite list_remove_same. exact Hone.
  - rewrite list_remove_app, list_remove_same. cbn. rewrite app_nil_r. exact Hone.
Qed.

(** ** findMatchingRouteForStream *)

Lemma findMatchingRouteForStream_loop_run (s : StreamId) (l : RouteMap) (w : World) :
  Forall (fun it : string * AudioStreamRoutePtr => snd it <> None) l ->
  findMatchingRouteForStream_loop s l w
  = Done (find (fun r => isMatchingWithStream w r s) (registered_in l), w, []).
Proof.
  induction 1 as [| [k [r |]] l Hr Hl IH].
  - reflexivity.
  - change (registered_in ((k, Some r) :: l)) with (r :: registered_in l).
    cbn [findMatchingRouteForStream_loop snd find].
    rewrite bind_deref, bind_query.
    destruct (isMatchingWithStream w r s); [reflexivity | exact IH].
  - now contradiction Hr.
Qed.

(** X3. With no [NULL] route in the registry, [findMatchingRouteForStream]
    returns the first route, in the order of the keys, that matches the
    stream, and [NULL] exactly when no registered route matches; it changes
    nothing and logs nothing. Only the matching predicate of the route is
    asked: a route of the other direction or in use is returned as well. *)
Theorem findMatchingRouteForStream_spec (s : StreamId)
    (c : StreamRouteCollection) (w : World) :
  routes_valid c ->
  exists found : AudioStreamRoutePtr,
    findMatchingRouteForStream s c w = Done (found, w, [])
    /\ (forall r,
           found = Some r <->
           exists l1 l2,
             registered c = l1 ++ r :: l2
             /\ isMatchingWithStream w r s = true
             /\ forall r', In r' l1 -> isMatchingWithStream w r' s = false)
    /\ (found = None <->
        forall r, In r (registered c) -> isMatchingWithStream w r s = false).
Proof.
  intros Hvalid. eexists. split.
  { unfold findMatchingRouteForStream.
    apply findMatchingRouteForStream_loop_run, Hvalid. }
  unfold registered. generalize (registered_in (routes c)) as l. intros l.
  split.
  - intros r. split.
    + induction l as [| r0 l IH]; [discriminate |]. cbn [find].
      destruct (isMatchingWithStream w r0 s) eqn:E.
      * intros Hfound. injection Hfound as ->.
        exists [], l. split; [reflexivity |]. split; [exact E |].
        intros r' [].
      * intros Hfound. destruct (IH Hfound) as (l1 & l2 & -> & Hr & Hbefore).
        exists (r0 :: l1), l2. split; [reflexivity |]. split; [exact Hr |].
        intros r' [<- | Hin]; [exact E | now apply Hbefore].
    + intros (l1 & l2 & -> & Hr & Hbefore).
      induction l1 as [| r0 l1 IH]; cbn [app find].
      * now rewrite Hr.
      * rewrite (Hbefore r0) by now left.
        apply IH. intros r' Hin. apply Hbefore. now right.
  - split.
    + intros Hnone r Hin. exact (find_none _ _ Hnone r Hin).
    + intros Hall. induction l as [| r0 l IH]; [reflexivity |]. cbn [find].
      rewrite (Hall r0) by now left.
      apply IH. intros r Hin. apply Hall. now right.
Qed.

(** ** NULL entries of the registry *)

Lemma resetAvailability_loop_null (l1 : RouteMap) (k : string) (l2 : RouteMap)
    (c : StreamRouteCollection) (w : World) :
  for_each (l1 ++ (k, None) :: l2) resetAvailability_body c w = Undefined.
Proof.
  revert w. induction l1 as [| [k1 [r |]] l1 IH]; intros w; cbn [app for_each].
  - reflexivity.
  - unfold bind at 1, resetAvailability_body. cbn [snd].
    rewrite bind_deref, bind_action. unfold ret at 1. cbn [fst snd].
    now rewrite IH.
  - reflexivity.
Qed.

Lemma entry_valid_dec (it : string * AudioStreamRoutePtr) :
  {snd it <> None} + {~ snd it <> None}.
Proof.
  destruct (snd it) as [r |]; [left; discriminate | right].
  intros H. now apply H.
Qed.

(** X4. [resetAvailability] calls a member of every entry of the registry
    without a test: it returns exactly when no entry is [NULL], and is
    undefined otherwise. [findMatchingRouteForStream] does the same on the
    entries that it reaches: it is undefined when a [NULL] entry comes
    before the first route that matches. *)
Theorem null_entries_are_not_skipped (c : StreamRouteCollection) (w : World) :
  (routes_valid c <-> resetAvailability c w <> Undefined)
  /\ forall (s : StreamId) (l1 : RouteMap) (k : string) (l2 : RouteMap),
       routes c = l1 ++ (k, None) :: l2 ->
       (forall r, In r (registered_in l1) -> isMatchingWithStream w r s = false) ->
       findMatchingRouteForStream s c w = Undefined.
Proof.
  split.
  - split.
    + intros Hvalid. rewrite resetAvailability_run by exact Hvalid. discriminate.
    + intros Hdefined.
      unfold routes_valid.
      destruct (Forall_Exists_dec _ entry_valid_dec
                  (routes c)) as [Hall | Hex]; [exact Hall |].
      exfalso. apply Hdefined.
      apply Exists_exists in Hex. destruct Hex as ([k p] & Hin & Hnull).
      destruct p as [r |]; [exfalso; apply Hnull; discriminate |].
      apply in_split in Hin. destruct Hin as (l1 & l2 & Hsplit).
      unfold resetAvailability. cbn [all_directions fold_left routes set_masks].
      rewrite Hsplit. apply resetAvailability_loop_null.
  - intros s l1 k l2 Hsplit Hnone. unfold findMatchingRouteForStream.
    rewrite Hsplit. clear Hsplit.
    induction l1 as [| [k1 [r |]] l1 IH]; cbn [app findMatchingRouteForStream_loop snd].
    + reflexivity.
    + rewrite bind_deref, bind_query, (Hnone r) by (cbn; now left).
      apply IH. intros r' Hin. apply Hnone. cbn. now right.
    + reflexivity.
Qed.

(** ** Match phases that pair nothing *)

Lemma prepareRouting_loop_all_used (l : RouteMap) (c : StreamRouteCollection)
    (w : World) :
  (forall r, In r (registered_in l) -> isUsed w r = true) ->
  for_each l prepareRouting_body c w = Done (c, w, []).
Proof.
  induction l as [| [k [r |]] l IH]; intros Hused.
  - reflexivity.
  - cbn [for_each]. unfold bind.
    rewrite prepareRouting_body_run, (Hused r) by (cbn; now left).
    rewrite IH; [reflexivity |]. intros r' Hin. apply Hused. cbn. now right.
  - cbn [for_each]. unfold bind. rewrite prepareRouting_body_null.
    rewrite IH; [reflexivity |]. exact Hused.
Qed.

Lemma find_none_of_all_false {A : Type} (f : A -> bool) (l : list A) :
  (forall x, In x l -> f x = false) -> find f l = None.
Proof.
  induction l as [| x l IH]; intros Hall; [reflexivity |]. cbn [find].
  rewrite (Hall x) by now left. apply IH. intros y Hy. apply Hall. now right.
Qed.

Lemma In_pointees (s : StreamId) (l : list IoStreamPtr) :
  In s (pointees l) <-> In (Some s) l.
Proof.
  unfold pointees. rewrite in_flat_map. split.
  - intros ([s' |] & Hin & Hs); cbn in Hs; [| contradiction].
    destruct Hs as [-> | []]. exact Hin.
  - intros Hin. exists (Some s). split; [exact Hin | now left].
Qed.

Lemma spec_match_phase_no_eligible (l : list RouteId) (c : StreamRouteCollection)
    (w : World) :
  (forall r s, In r l ->
               In (Some s) (streams_of c (direction_of_isOut (isOut w r))) ->
               eligible w r s = false) ->
  spec_match_phase l c w = (c, w, []).
Proof.
  induction l as [| r l IH]; intros Hnone; [reflexivity |].
  cbn [spec_match_phase]. unfold spec_match_route.
  rewrite find_none_of_all_false.
  - destruct (isUsed w r); (rewrite IH; [reflexivity |]);
      intros r' s' Hin; apply Hnone; now right.
  - intros s Hs. apply In_pointees in Hs. apply Hnone; [now left | exact Hs].
Qed.

(** X5. A match phase pairs nothing, calls nothing and changes nothing when
    every registered route is in use already, whatever the stream lists
    hold, and, with no [NULL] stream, when no route has an eligible stream
    in the list of its direction: empty lists, streams that are not
    started, not routed by policy, with a new route already, or that do
    not match. *)
Theorem prepareRouting_nothing_to_pair (c : StreamRouteCollection) (w : World) :
  ((forall r, In r (registered c) -> isUsed w r = true) ->
   prepareRouting c w = Done (c, w, []))
  /\ (streams_valid c ->
      (forall r s,
          In r (registered c) ->
          In (Some s) (streams_of c (direction_of_isOut (isOut w r))) ->
          eligible w r s = false) ->
      prepareRouting c w = Done (c, w, [])).
Proof.
  split.
  - apply prepareRouting_loop_all_used.
  - intros Hvalid Hnone. unfold prepareRouting.
    rewrite prepareRouting_loop_spec by exact Hvalid.
    fold (registered c). now rewrite spec_match_phase_no_eligible.
Qed.

(** ** A cycle in which no route finds a stream *)

Lemma u32_not_0 : u32_not 0 = 2 ^ 32 - 1.
Proof. reflexivity. Qed.

Lemma land_u32_ones (p : Z) : is_u32 p -> Z.land p (u32_not 0) = p.
Proof.
  intros Hp. rewrite land_u32_not by exact Hp. apply Z.ldiff_0_r.
Qed.

(** X6. When the cycle starts with [resetAvailability] and the match phase
    then finds no eligible stream for any route, every route that was
    enabled is to be muted and disabled and no other: [enabled] is 0,
    [routesToMute] and [routesToDisable] are the old [enabled], nothing is
    left unmuted or opened, and [routingHasChanged] tells whether a route
    was enabled. *)
Theorem cycle_without_match (c : StreamRouteCollection) (w : World) :
  routes_valid c ->
  streams_valid c ->
  (forall d, RouteMasks.wf (masks_of c d)) ->
  let w1 := fold_left (fun w r => AudioStreamRoute_resetAvailability r w)
                      (registered c) w in
  (forall r s,
      In r (registered c) ->
      In (Some s) (streams_of c (direction_of_isOut (isOut w1 r))) ->
      eligible w1 r s = false) ->
  exists c1 t1,
    resetAvailability c w = Done (c1, w1, t1)
    /\ prepareRouting c1 w1 = Done (c1, w1, [])
    /\ (forall d,
           enabledRouteMask c1 d = 0
           /\ routesToMute c1 d = enabledRouteMask c d
           /\ routesToDisable c1 d = enabledRouteMask c d
           /\ unmutedRoutes c1 d = 0
           /\ openedRoutes c1 d = 0)
    /\ (routingHasChanged c1 = true
        <-> exists d, enabledRouteMask c d <> 0).
Proof.
  intros Hroutes Hstreams Hwf w1 Hnone.
  eexists _, _. split; [apply resetAvailability_run, Hroutes |].
  split.
  { unfold prepareRouting. cbn [routes].
    rewrite prepareRouting_loop_spec by exact Hstreams.
    now rewrite spec_match_phase_no_eligible. }
  assert (Hmasks : forall d,
             masks_of (mkCollection (routes c) (mOrderedStreamList c)
                         (mkPerDirection
                            (RouteMasks.mk 0 0 0 (RouteMasks.enabled (masks_of c Input)))
                            (RouteMasks.mk 0 0 0 (RouteMasks.enabled (masks_of c Output)))))
                      d
             = RouteMasks.mk 0 0 0 (RouteMasks.enabled (masks_of c d)))
    by (intros []; reflexivity).
  split.
  - intros d. destruct (Hwf d) as (_ & _ & He & _).
    unfold enabledRouteMask, routesToMute, routesToDisable, unmutedRoutes,
      openedRoutes. rewrite Hmasks.
    unfold RouteMasks.enabledRoutes, RouteMasks.routesToMute,
      RouteMasks.routesToDisable, RouteMasks.unmutedRoutes,
      RouteMasks.openedRoutes, RouteMasks.prevEnabledRoutes,
      RouteMasks.enabledRoutes, RouteMasks.needReflowRoutes,
      RouteMasks.needRepathRoutes.
    cbn [RouteMasks.enabled RouteMasks.prevEnabled RouteMasks.needReflow
         RouteMasks.needRepath].
    rewrite land_u32_ones by exact He.
    rewrite Z.lor_0_r, Z.land_0_r, Z.land_0_l.
    repeat split; reflexivity.
  - rewrite routingHasChanged_any_direction. split.
    + intros [d Hd]. exists d. rewrite Hmasks in Hd.
      unfold RouteMasks.routingHasChanged in Hd. cbn in Hd.
      rewrite !orb_false_r, negb_true_iff, Z.eqb_neq in Hd.
      exact Hd.
    + intros [d Hd]. exists d. rewrite Hmasks.
      unfold RouteMasks.routingHasChanged. cbn.
      rewrite !orb_false_r, negb_true_iff, Z.eqb_neq.
      exact Hd.
Qed.

(** ** What a match phase pairs and enables *)

Lemma Direction_eqb_eq (d d' : Direction) : Direction_eqb d d' = true <-> d = d'.
Proof. destruct d, d'; cbn; split; intros H; try reflexivity; discriminate. Qed.

Lemma setStream_calls_app (t1 t2 : list Event) :
  setStream_calls (t1 ++ t2) = setStream_calls t1 ++ setStream_calls t2.
Proof. apply flat_map_app. Qed.

Lemma setUsed_calls_app (t1 t2 : list Event) :
  setUsed_calls (t1 ++ t2) = setUsed_calls t1 ++ setUsed_calls t2.
Proof. apply flat_map_app. Qed.

Lemma fold_masks_of_ext (w w' : World) (d : Direction) (l : list RouteId) (m : Z) :
  (forall r, getMask w' r = getMask w r /\ isOut w' r = isOut w r) ->
  fold_masks_of w' d l m = fold_masks_of w d l m.
Proof.
  intros Hsame. unfold fold_masks_of. f_equal.
  induction l as [| r l IH]; [reflexivity |]. cbn [filter].
  destruct (Hsame r) as [Hmask Hout]. rewrite Hout.
  destruct (Direction_eqb _ d); cbn [map]; [rewrite Hmask |]; now rewrite IH.
Qed.

Lemma fold_masks_of_app (w : World) (d : Direction) (l1 l2 : list RouteId) (m : Z) :
  fold_masks_of w d (l1 ++ l2) m = fold_masks_of w d l2 (fold_masks_of w d l1 m).
Proof.
  unfold fold_masks_of. now rewrite filter_app, map_app, fold_left_app.
Qed.

Lemma fold_left_lor_bits (l : list Z) (m : Z) (i : Z) :
  Z.testbit (fold_left Z.lor l m) i = true
  <-> Z.testbit m i = true \/ exists x, In x l /\ Z.testbit x i = true.
Proof.
  revert m. induction l as [| x l IH]; intros m; cbn [fold_left].
  - split; [now left | intros [H | (x & [] & _)]; exact H].
  - rewrite IH, Z.lor_spec, orb_true_iff. split.
    + intros [[H | H] | (y & Hy & H)].
      * now left.
      * right. exists x. split; [now left | exact H].
      * right. exists y. split; [now right | exact H].
    + intros [H | (y & [<- | Hy] & H)].
      * left. now left.
      * left. now right.
      * right. exists y. split; assumption.
Qed.

Lemma fold_masks_of_bits (w : World) (d : Direction) (l : list RouteId)
    (m : Z) (i : Z) :
  Z.testbit (fold_masks_of w d l m) i = true
  <-> Z.testbit m i = true
      \/ exists r, In r l /\ direction_of_isOut (isOut w r) = d
                   /\ Z.testbit (getMask w r) i = true.
Proof.
  unfold fold_masks_of. rewrite fold_left_lor_bits. split.
  - intros [H | (x & Hx & H)]; [now left | right].
    apply in_map_iff in Hx. destruct Hx as (r & <- & Hr).
    apply filter_In in Hr. destruct Hr as [Hin Hd].
    exists r. split; [exact Hin |]. split; [now apply Direction_eqb_eq | exact H].
  - intros [H | (r & Hin & Hd & H)]; [now left | right].
    exists (getMask w r). split; [| exact H].
    apply in_map. apply filter_In. split; [exact Hin | now apply Direction_eqb_eq].
Qed.

Lemma masks_of_set_masks_same (c : StreamRouteCollection) (d : Direction)
    (m : RouteMasks.t) :
  masks_of (set_masks c d m) d = m.
Proof. destruct d; reflexivity. Qed.

Lemma masks_of_set_masks_other (c : StreamRouteCollection) (d d' : Direction)
    (m : RouteMasks.t) :
  d' <> d -> masks_of (set_masks c d m) d' = masks_of c d'.
Proof. destruct d, d'; intros Hneq; try reflexivity; contradiction. Qed.

(** One step of the match phase: what it pairs, marks and enables. *)
Lemma spec_match_route_facts (r : RouteId) (c : StreamRouteCollection) (w : World) :
  identity_is_stable ->
  forall c1 w1 t1,
    spec_match_route r c w = (c1, w1, t1) ->
    (forall r', getMask w1 r' = getMask w r' /\ isOut w1 r' = isOut w r')
    /\ (forall r' s,
           In (r', s) (setStream_calls t1) ->
           r' = r /\ In (Some s) (streams_of c (direction_of_isOut (isOut w r))))
    /\ (forall r',
           In r' (setUsed_calls t1) ->
           r' = r /\ exists s, In (r, s) (setStream_calls t1))
    /\ (forall d,
           RouteMasks.enabled (masks_of c1 d)
           = fold_masks_of w d (setUsed_calls t1) (RouteMasks.enabled (masks_of c d))).
Proof.
  intros Hstable c1 w1 t1. unfold spec_match_route.
  assert (Hnothing : forall x : StreamRouteCollection * World * list Event,
             x = (c, w, []) -> x = (c1, w1, t1) ->
             (forall r', getMask w1 r' = getMask w r' /\ isOut w1 r' = isOut w r')
             /\ (forall r' s,
                    In (r', s) (setStream_calls t1) ->
                    r' = r
                    /\ In (Some s) (streams_of c (direction_of_isOut (isOut w r))))
             /\ (forall r',
                    In r' (setUsed_calls t1) ->
                    r' = r /\ exists s, In (r, s) (setStream_calls t1))
             /\ (forall d,
                    RouteMasks.enabled (masks_of c1 d)
                    = fold_masks_of w d (setUsed_calls t1)
                        (RouteMasks.enabled (masks_of c d)))).
  { intros x -> E. injection E as <- <- <-.
    split; [intros r'; split; reflexivity |].
    split; [intros r' s [] |]. split; [intros r' [] | intros d; reflexivity]. }
  destruct (isUsed w r); [now apply Hnothing |].
  destruct (find _ _) as [s |] eqn:Hfind; [| now apply Hnothing].
  apply find_some in Hfind. destruct Hfind as [Hin _].
  apply In_pointees in Hin.
  destruct (Hstable r r w) as (Hset & _).
  pose proof (fun r' => proj1 (Hstable r r' w) s) as Hafter_set.
  destruct (setStream r s w) as [[|] w2] eqn:Eset; cbn [snd] in Hafter_set;
    intros E; injection E as <- <- <-.
  - pose proof (fun r' => proj2 (Hstable r r' w2)) as Hafter_used.
    assert (Hsame : forall r', getMask (setUsed r w2) r' = getMask w r'
                               /\ isOut (setUsed r w2) r' = isOut w r').
    { intros r'. destruct (Hafter_used r') as [Hm Ho].
      destruct (Hafter_set r') as [Hm' Ho']. split; congruence. }
    split; [exact Hsame |].
    split.
    { intros r' s' Hcall. cbn in Hcall. destruct Hcall as [E | []].
      injection E as <- <-. split; [reflexivity | exact Hin]. }
    split.
    { intros r' Hcall. cbn in Hcall. destruct Hcall as [<- | []].
      split; [reflexivity |]. exists s. cbn. now left. }
    intros d. unfold fold_route_masks.
    destruct (Hsame r) as [-> ->].
    cbn [app].
    change (setUsed_calls [matching_log w r; Call_setStream r s; Call_setUsed r])
      with [r].
    unfold fold_masks_of. cbn [filter].
    destruct (Direction_eqb (direction_of_isOut (isOut w r)) d) eqn:Ed;
      cbn [map fold_left].
    + apply Direction_eqb_eq in Ed. subst d.
      rewrite masks_of_set_masks_same. reflexivity.
    + rewrite masks_of_set_masks_other; [reflexivity |].
      intros ->. assert (Direction_eqb (direction_of_isOut (isOut w r))
                           (direction_of_isOut (isOut w r)) = true)
        by now apply Direction_eqb_eq.
      congruence.
  - split; [exact Hafter_set |].
    split.
    { intros r' s' Hcall. cbn in Hcall. destruct Hcall as [E | []].
      injection E as <- <-. split; [reflexivity | exact Hin]. }
    split; [intros r' [] | intros d; reflexivity].
Qed.

(** The whole match phase. *)
Lemma spec_match_phase_facts (l : list RouteId) (c : StreamRouteCollection)
    (w : World) :
  identity_is_stable ->
  forall c' w' t,
    spec_match_phase l c w = (c', w', t) ->
    (forall r', getMask w' r' = getMask w r' /\ isOut w' r' = isOut w r')
    /\ (forall r s,
           In (r, s) (setStream_calls t) ->
           In r l /\ In (Some s) (streams_of c (direction_of_isOut (isOut w r))))
    /\ (forall r,
           In r (setUsed_calls t) -> exists s, In (r, s) (setStream_calls t))
    /\ (forall d,
           RouteMasks.enabled (masks_of c' d)
           = fold_masks_of w d (setUsed_calls t) (RouteMasks.enabled (masks_of c d))).
Proof.
  intros Hstable. revert c w.
  induction l as [| r0 l IH]; intros c w c' w' t.
  - cbn. intros E. injection E as <- <- <-.
    split; [intros r'; split; reflexivity |].
    split; [intros r s [] |]. split; [intros r [] | intros d; reflexivity].
  - cbn [spec_match_phase].
    pose proof (spec_match_route_facts r0 c w Hstable) as Hhead.
    pose proof (spec_match_route_streams r0 c w) as Hstreams.
    destruct (spec_match_route r0 c w) as [[c1 w1] t1].
    specialize (Hhead c1 w1 t1 eq_refl).
    destruct Hhead as (Hsame1 & Hpair1 & Hused1 & Hmask1).
    cbn [fst] in Hstreams.
    specialize (IH c1 w1).
    destruct (spec_match_phase l c1 w1) as [[c2 w2] t2].
    specialize (IH c2 w2 t2 eq_refl).
    destruct IH as (Hsame2 & Hpair2 & Hused2 & Hmask2).
    intros E. injection E as <- <- <-.
    split.
    { intros r'. destruct (Hsame1 r'), (Hsame2 r'). split; congruence. }
    split.
    { intros r s Hcall. rewrite setStream_calls_app in Hcall.
      apply in_app_or in Hcall. destruct Hcall as [Hcall | Hcall].
      - destruct (Hpair1 r s Hcall) as [-> Hin]. split; [now left | exact Hin].
      - destruct (Hpair2 r s Hcall) as [Hr Hin]. split; [now right |].
        unfold streams_of in *. rewrite Hstreams in Hin.
        destruct (Hsame1 r) as [_ <-]. exact Hin. }
    split.
    { intros r Hcall. rewrite setUsed_calls_app in Hcall.
      apply in_app_or in Hcall. destruct Hcall as [Hcall | Hcall].
      - destruct (Hused1 r Hcall) as [-> (s & Hs)]. exists s.
        rewrite setStream_calls_app. apply in_or_app. now left.
      - destruct (Hused2 r Hcall) as (s & Hs). exists s.
        rewrite setStream_calls_app. apply in_or_app. now right. }
    intros d. rewrite Hmask2, Hmask1, setUsed_calls_app, fold_masks_of_app.
    apply fold_masks_of_ext. exact Hsame1.
Qed.

(** X7. With no [NULL] stream and a static topology (pairing and marking
    change no mask and no direction), a match phase only pairs registered
    routes, each with a stream of the list of its own direction, and marks
    a route used only when it has paired it with a stream. *)
Theorem match_phase_pairs_listed_streams (c : StreamRouteCollection) (w : World) :
  streams_valid c ->
  identity_is_stable ->
  exists c' w' t,
    prepareRouting c w = Done (c', w', t)
    /\ (forall r s,
           In (r, s) (setStream_calls t) ->
           In r (registered c)
           /\ In (Some s) (streams_of c (direction_of_isOut (isOut w r))))
    /\ (forall r,
           In r (setUsed_calls t) -> exists s, In (r, s) (setStream_calls t)).
Proof.
  intros Hvalid Hstable.
  destruct (spec_match_phase (registered c) c w) as [[c' w'] t] eqn:E.
  exists c', w', t.
  split; [unfold prepareRouting;
          rewrite prepareRouting_loop_spec by exact Hvalid;
          fold (registered c); now rewrite E |].
  destruct (spec_match_phase_facts (registered c) c w Hstable c' w' t E)
    as (_ & Hpair & Hused & _).
  split; assumption.
Qed.

(** X8. With no [NULL] stream and a static topology, after a match phase a
    bit of [enabled] of a direction is set exactly when it was set before
    or when it is a bit of the mask of a route of that direction that the
    phase has marked used. *)
Theorem enabled_after_match_phase (c : StreamRouteCollection) (w : World) :
  streams_valid c ->
  identity_is_stable ->
  exists c' w' t,
    prepareRouting c w = Done (c', w', t)
    /\ forall d i,
         Z.testbit (enabledRouteMask c' d) i = true
         <-> Z.testbit (enabledRouteMask c d) i = true
             \/ exists r,
                  In r (setUsed_calls t)
                  /\ direction_of_isOut (isOut w r) = d
                  /\ Z.testbit (getMask w r) i = true.
Proof.
  intros Hvalid Hstable.
  destruct (spec_match_phase (registered c) c w) as [[c' w'] t] eqn:E.
  exists c', w', t.
  split; [unfold prepareRouting;
          rewrite prepareRouting_loop_spec by exact Hvalid;
          fold (registered c); now rewrite E |].
  destruct (spec_match_phase_facts (registered c) c w Hstable c' w' t E)
    as (_ & _ & _ & Hmask).
  intros d i. unfold enabledRouteMask, RouteMasks.enabledRoutes.
  rewrite Hmask. apply fold_masks_of_bits.
Qed.

(** ** A removed stream is not paired *)

Lemma list_remove_valid (p : IoStreamPtr) (l : list IoStreamPtr) :
  Forall (fun q : IoStreamPtr => q <> None) l ->
  Forall (fun q : IoStreamPtr => q <> None) (list_remove p l).
Proof.
  intros Hvalid. apply Forall_forall. intros q Hq.
  apply list_remove_In in Hq. destruct Hq as [Hin _].
  rewrite Forall_forall in Hvalid. now apply Hvalid.
Qed.

(** X9. After [removeStream], with no [NULL] stream, the scan for a route of
    the direction of the removed stream returns and never calls [setStream]
    with that stream, in whatever state the stream and the routes are. *)
Theorem removed_stream_is_not_paired (s : StreamId) (c : StreamRouteCollection)
    (w : World) :
  streams_valid c ->
  exists c',
    removeStream s c w = Done (c', w, [])
    /\ streams_valid c'
    /\ forall (r : RouteId) (w2 : World),
         direction_of_isOut (isOut w2 r) = direction_of_isOut (IoStream_isOut w s) ->
         exists paired w3 t,
           setStreamForRoute r c' w2 = Done (paired, w3, t)
           /\ forall r', ~ In (r', s) (setStream_calls t).
Proof.
  intros Hvalid. eexists. split; [apply removeStream_run |]. cbv zeta.
  set (d := direction_of_isOut (IoStream_isOut w s)).
  assert (Hvalid' : streams_valid
                      (set_streams c d (list_remove (Some s) (streams_of c d)))).
  { intros d'. destruct (direction_eq_dec d' d) as [-> | Hneq].
    - rewrite streams_of_set_streams_same. apply list_remove_valid, Hvalid.
    - rewrite streams_of_set_streams_other by exact Hneq. apply Hvalid. }
  split; [exact Hvalid' |].
  intros r w2 Hdir.
  rewrite setStreamForRoute_unfold, scan_first_eligible by apply Hvalid'.
  rewrite Hdir. fold d. rewrite streams_of_set_streams_same.
  destruct (find _ _) as [s' |] eqn:Hfind.
  - eexists _, _, _. split; [reflexivity |].
    intros r' Hcall. cbn in Hcall. destruct Hcall as [E | []].
    injection E as _ ->.
    apply find_some in Hfind. destruct Hfind as [Hin _].
    apply In_pointees, list_remove_In in Hin. destruct Hin as [_ Hneq].
    now apply Hneq.
  - eexists _, _, _. split; [reflexivity |]. intros r' [].
Qed.

(** ** Registering a route twice *)

(** X10. [push_back] of a route always returns, and a second [push_back] of
    the same route is rejected with the warning and leaves the collection
    as the first call made it: a route is registered at most once under its
    key. *)
Theorem push_back_twice (element : RouteId) (c : StreamRouteCollection)
    (w : World) :
  let key := (getName w element
              ++ (if isOut w element then "_Playback" else "_Capture"))%string in
  exists c1 t1,
    push_back (Some element) c w = Done (c1, w, t1)
    /\ map_find key (routes c1) <> None
    /\ push_back (Some element) c1 w
       = Done (c1, w, [Log_Warning ("push_back: element(" ++ key
                                    ++ ") already added")%string]).
Proof.
  cbv zeta.
  set (key := (getName w element
               ++ (if isOut w element then "_Playback" else "_Capture"))%string).
  assert (Hagain : forall c1 old,
             map_find key (routes c1) = Some old ->
             push_back (Some element) c1 w
             = Done (c1, w, [Log_Warning ("push_back: element(" ++ key
                                          ++ ") already added")%string])).
  { intros c1 old Hfind. unfold push_back.
    rewrite bind_deref, !bind_query. fold key. rewrite Hfind. reflexivity. }
  destruct (map_find key (routes c)) as [old |] eqn:Hfind.
  - exists c, [Log_Warning ("push_back: element(" ++ key ++ ") already added")%string].
    split; [now apply Hagain with old |].
    split; [congruence | now apply Hagain with old].
  - exists (set_routes c (map_assign key (Some element) (routes c))), [].
    split.
    { unfold push_back. rewrite bind_deref, !bind_query. fold key.
      rewrite Hfind. reflexivity. }
    assert (Hnow : map_find key
                     (routes (set_routes c (map_assign key (Some element) (routes c))))
                   = Some (Some element)) by apply map_find_assign_same.
    split; [congruence | now apply Hagain with (Some element)].
Qed.

(** ** A registered route is found *)

Lemma registered_in_cons (k : string) (v : AudioStreamRoutePtr) (m : RouteMap) :
  registered_in ((k, v) :: m)
  = match v with Some r => [r] | None => [] end ++ registered_in m.
Proof. reflexivity. Qed.

Lemma registered_in_assign (key : string) (e : RouteId) (m : RouteMap) (r : RouteId) :
  map_find key m = None ->
  (In r (registered_in (map_assign key (Some e) m)) <-> r = e \/ In r (registered_in m)).
Proof.
  induction m as [| [k v] m IH]; cbn [map_find map_assign].
  - intros _. cbn. intuition.
  - destruct (String.eqb_spec key k) as [-> | Hneq]; [discriminate |].
    intros Hfind. destruct (String.compare key k) eqn:E.
    + apply String.compare_eq_iff in E. contradiction.
    + rewrite (registered_in_cons key). cbn [app In]. intuition.
    + rewrite !(registered_in_cons k), !in_app_iff, (IH Hfind). intuition.
Qed.

(** X11. With no [NULL] route, when no registered route matches a stream,
    a route that matches it and is registered by [push_back] under a fresh
    key is the route that [findMatchingRouteForStream] returns. *)
Theorem pushed_route_is_found (element : RouteId) (s : StreamId)
    (c : StreamRouteCollection) (w : World) :
  routes_valid c ->
  map_find (getName w element
            ++ (if isOut w element then "_Playback" else "_Capture"))%string
           (routes c) = None ->
  (forall r, In r (registered c) -> isMatchingWithStream w r s = false) ->
  isMatchingWithStream w element s = true ->
  exists c',
    push_back (Some element) c w = Done (c', w, [])
    /\ findMatchingRouteForStream s c' w = Done (Some element, w, []).
Proof.
  intros Hvalid Hfresh Hnone Hmatch. eexists. split.
  { unfold push_back. rewrite bind_deref, !bind_query, Hfresh. reflexivity. }
  unfold findMatchingRouteForStream. cbn [routes set_routes].
  rewrite findMatchingRouteForStream_loop_run by (apply map_assign_valid, Hvalid).
  destruct (find _ _) as [r |] eqn:Hfind.
  - apply find_some in Hfind. destruct Hfind as [Hin Hr].
    apply registered_in_assign in Hin; [| exact Hfresh].
    destruct Hin as [-> | Hin]; [reflexivity |].
    rewrite (Hnone r Hin) in Hr. discriminate.
  - exfalso.
    assert (Hin : In element
                     (registered_in (map_assign
                        (getName w element
                         ++ (if isOut w element then "_Playback" else "_Capture"))
                        (Some element) (routes c))))
      by (apply registered_in_assign; [exact Hfresh | now left]).
    pose proof (find_none _ _ Hfind element Hin) as Hno. cbn in Hno.
    congruence.
Qed.

(** ** The stream that getVoiceStreamRoute returns *)

(** X12. With no [NULL] stream, after [addStream] of an output stream
    [getVoiceStreamRoute] returns a stream and reports no error: the stream
    just added when it is direct or when the output list was empty, and
    the head of the output list as it was before otherwise. *)
Theorem getVoiceStreamRoute_after_addStream (s : StreamId)
    (c : StreamRouteCollection) (w w2 : World) :
  streams_valid c ->
  IoStream_isOut w s = true ->
  exists c' s',
    addStream s c w = Done (c', w, [])
    /\ getVoiceStreamRoute c' w2 = Done (Some s', w2, [])
    /\ (isDirect w s = true -> s' = s)
    /\ (streams_of c Output = [] -> s' = s)
    /\ (isDirect w s = false ->
        forall p l, streams_of c Output = p :: l -> p = Some s').
Proof.
  intros Hvalid Hout. rewrite addStream_run, Hout. cbv zeta. cbn [direction_of_isOut].
  destruct (isDirect w s).
  - eexists _, s. split; [reflexivity |].
    split; [reflexivity |]. split; [reflexivity |]. split; [reflexivity |].
    discriminate.
  - pose proof (Hvalid Output) as Hlist.
    destruct (streams_of c Output) as [| [s0 |] l] eqn:E.
    + eexists _, s. split; [reflexivity |].
      split; [unfold getVoiceStreamRoute; rewrite streams_of_set_streams_same;
              reflexivity |].
      split; [reflexivity |]. split; [reflexivity |]. discriminate.
    + eexists _, s0. split; [reflexivity |].
      split; [unfold getVoiceStreamRoute; rewrite streams_of_set_streams_same;
              reflexivity |].
      split; [discriminate |]. split; [discriminate |].
      intros _ p l' Hp. now injection Hp as <- _.
    + exfalso. apply Forall_inv in Hlist. now apply Hlist.
Qed.

(** ** Errors of enableRoutes *)

Lemma error_logs_app (t1 t2 : list Event) :
  error_logs (t1 ++ t2) = error_logs t1 ++ error_logs t2.
Proof. apply flat_map_app. Qed.

Lemma enableRoutes_body_errors (flag : bool) (k : string) (r : RouteId) (w : World) :
  exists t,
    enableRoutes_body flag (@pair string AudioStreamRoutePtr k (Some r)) tt w
    = Done (tt, if to_enable w r then snd (route r flag w) else w, t)
    /\ route_calls t = (if to_enable w r then [(r, flag)] else [])
    /\ error_logs t
       = if to_enable w r
         then (if negb (fst (route r flag w) =? OK)
               then [(tab ++ " error while routing "
                      ++ getName (snd (route r flag w)) r)%string]
               else [])
         else [].
Proof.
  unfold enableRoutes_body. cbn [snd].
  rewrite bind_query. fold (to_enable w r).
  destruct (to_enable w r).
  - rewrite bind_query, bind_log, bind_action.
    destruct (negb (fst (route r flag w) =? OK)).
    + rewrite bind_query. eexists. split; [reflexivity |]. split; reflexivity.
    + eexists. split; [reflexivity |]. split; reflexivity.
  - eexists. split; [reflexivity |]. split; reflexivity.
Qed.

Lemma enableRoutes_loop_errors (flag : bool) (l : RouteMap) (w : World) :
  exists w' t,
    for_each l (enableRoutes_body flag) tt w = Done (tt, w', t)
    /\ route_calls t
       = map (fun r => (r, flag)) (routes_to_enable flag (registered_in l) w)
    /\ error_logs t = route_failures flag (registered_in l) w.
Proof.
  revert w. induction l as [| [k [r |]] l IH]; intros w.
  - exists w, []. repeat split; reflexivity.
  - rewrite registered_in_cons. cbn [app for_each routes_to_enable route_failures].
    unfold bind at 1.
    destruct (enableRoutes_body_errors flag k r w) as (t1 & E & Hr1 & He1).
    rewrite E.
    destruct (IH (if to_enable w r then snd (route r flag w) else w))
      as (w' & t2 & -> & Hr2 & He2).
    exists w', (t1 ++ t2). split; [reflexivity |].
    rewrite error_logs_app, route_calls_app, Hr1, He1, Hr2, He2.
    destruct (to_enable w r); split; reflexivity.
  - rewrite registered_in_cons. cbn [app for_each]. unfold bind at 1.
    cbn [enableRoutes_body snd ret].
    destruct (IH w) as (w' & t & -> & H). exists w', t. split; [reflexivity | exact H].
Qed.

Lemma route_failures_length (flag : bool) (l : list RouteId) (w : World) :
  (List.length (route_failures flag l w)
   <= List.length (routes_to_enable flag l w))%nat
  /\ ((forall r b w0, fst (route r b w0) = OK) -> route_failures flag l w = [])
  /\ ((forall r b w0, fst (route r b w0) <> OK) ->
      List.length (route_failures flag l w)
      = List.length (routes_to_enable flag l w)).
Proof.
  revert w. induction l as [| r l IH]; intros w.
  - repeat split; reflexivity.
  - cbn [route_failures routes_to_enable].
    destruct (to_enable w r); [| apply IH].
    destruct (IH (snd (route r flag w))) as (Hle & Hok & Hko).
    rewrite List.length_app. cbn [List.length]. split; [| split].
    + destruct (negb (fst (route r flag w) =? OK)); cbn [List.length]; lia.
    + intros Hall. rewrite (Hok Hall), Hall. reflexivity.
    + intros Hall. rewrite (Hko Hall).
      assert (Hfail : negb (fst (route r flag w) =? OK) = true)
        by (apply negb_true_iff, Z.eqb_neq, Hall).
      rewrite Hfail. reflexivity.
Qed.

Lemma disableRoutes_body_errors (flag : bool) (k : string) (r : RouteId)
    (w : World) :
  exists w1 t,
    disableRoutes_body flag (@pair string AudioStreamRoutePtr k (Some r)) tt w
    = Done (tt, w1, t)
    /\ error_logs t = [].
Proof.
  unfold disableRoutes_body. cbn [snd]. rewrite bind_query.
  destruct ((previouslyUsed w r && negb (isUsed w r)) || needRepath w r).
  - rewrite bind_query, bind_log, action_run.
    eexists _, _. split; reflexivity.
  - eexists _, _. split; reflexivity.
Qed.

Lemma disableRoutes_loop_errors (flag : bool) (l : RouteMap) (w : World) :
  exists w' t,
    for_each l (disableRoutes_body flag) tt w = Done (tt, w', t)
    /\ error_logs t = [].
Proof.
  revert w. induction l as [| [k [r |]] l IH]; intros w.
  - exists w, []. split; reflexivity.
  - cbn [for_each]. unfold bind at 1.
    destruct (disableRoutes_body_errors flag k r w) as (w1 & t1 & E & He1).
    rewrite E.
    destruct (IH w1) as (w' & t2 & -> & He2).
    exists w', (t1 ++ t2). split; [reflexivity |].
    now rewrite error_logs_app, He1, He2.
  - cbn [for_each]. unfold bind at 1. cbn [disableRoutes_body snd ret].
    destruct (IH w) as (w' & t & -> & Ht). exists w', t. split; [reflexivity | exact Ht].
Qed.

(** X13. A failed [route()] call does not stop [enableRoutes]: it always
    returns, having called [route()] on every registered route that is in
    transition when the loop reaches it, whatever the calls before it have
    answered, and having logged one error line for each of these calls
    that did not answer [OK], and no other error line. So there is at most
    one error line per call of [route()], none when every call answers
    [OK] and exactly one per call when every call fails; and when each
    route is registered once and [route()] leaves the transitions of the
    other routes alone, the calls are the routes in transition when the
    function is called. [disableRoutes] reports no error at all. *)
Theorem enableRoutes_reports_failures (flag : bool) (c : StreamRouteCollection)
    (w : World) :
  (exists w' t,
      enableRoutes flag c w = Done (tt, w', t)
      /\ route_calls t
         = map (fun r => (r, flag)) (routes_to_enable flag (registered c) w)
      /\ error_logs t = route_failures flag (registered c) w
      /\ (List.length (error_logs t) <= List.length (route_calls t))%nat
      /\ ((forall r b w0, fst (route r b w0) = OK) -> error_logs t = [])
      /\ ((forall r b w0, fst (route r b w0) <> OK) ->
          List.length (error_logs t) = List.length (route_calls t))
      /\ (NoDup (registered c) -> route_is_local ->
          route_calls t
          = map (fun r => (r, flag)) (filter (to_enable w) (registered c))))
  /\ (exists w' t,
         disableRoutes flag c w = Done (tt, w', t) /\ error_logs t = []).
Proof.
  split; [| apply disableRoutes_loop_errors].
  destruct (enableRoutes_loop_errors flag (routes c) w)
    as (w' & t & Hrun & Hcalls & Herrors).
  fold (registered c) in Hcalls, Herrors.
  destruct (route_failures_length flag (registered c) w) as (Hle & Hok & Hko).
  exists w', t. split; [exact Hrun |]. split; [exact Hcalls |].
  split; [exact Herrors |].
  rewrite Herrors, Hcalls, List.length_map.
  split; [exact Hle |]. split; [exact Hok |]. split; [exact Hko |].
  intros Hnodup Hlocal. now rewrite routes_to_enable_filter.
Qed.

(** ** The derived route sets partition the routes *)

Ltac bitwise :=
  apply Z.bits_inj'; intros ? ?;
  repeat (rewrite Z.land_spec || rewrite Z.lor_spec || rewrite Z.ldiff_spec
          || rewrite Z.bits_0);
  repeat match goal with
         | |- context [Z.testbit ?x ?n] => destruct (Z.testbit x n)
         end;
  reflexivity.

Lemma ldiff_is_u32 (a b : Z) : is_u32 a -> is_u32 (Z.ldiff a b).
Proof.
  intros Ha. apply is_u32_of_bits. intros n Hn.
  now rewrite Z.ldiff_spec, (u32_bits_high a n Ha Hn).
Qed.

(** X14. In every direction, with the masks in the range of [uint32_t]:
    [unmutedRoutes] and [routesToMute] have no route in common and together
    hold the routes previously enabled and those that need a reflow;
    [openedRoutes] and [routesToDisable] have no route in common and
    together hold the routes previously enabled and those that need a
    repath; outside the routes that need a reflow or a repath,
    [routesToMute] and [routesToDisable] are the same set; and the four
    results are in the range of [uint32_t]. *)
Theorem derived_sets_partition (c : StreamRouteCollection) (dir : Direction) :
  RouteMasks.wf (masks_of c dir) ->
  Z.land (unmutedRoutes c dir) (routesToMute c dir) = 0
  /\ Z.lor (unmutedRoutes c dir) (routesToMute c dir)
     = Z.lor (prevEnabledRouteMask c dir) (needReflowRouteMask c dir)
  /\ Z.land (openedRoutes c dir) (routesToDisable c dir) = 0
  /\ Z.lor (openedRoutes c dir) (routesToDisable c dir)
     = Z.lor (prevEnabledRouteMask c dir) (needRepathRouteMask c dir)
  /\ Z.ldiff (routesToMute c dir)
             (Z.lor (needReflowRouteMask c dir) (needRepathRouteMask c dir))
     = Z.ldiff (routesToDisable c dir)
               (Z.lor (needReflowRouteMask c dir) (needRepathRouteMask c dir))
  /\ is_u32 (unmutedRoutes c dir) /\ is_u32 (routesToMute c dir)
  /\ is_u32 (openedRoutes c dir) /\ is_u32 (routesToDisable c dir).
Proof.
  intros (Hf & Hp & He & Hpe).
  unfold unmutedRoutes, routesToMute, openedRoutes, routesToDisable,
    prevEnabledRouteMask, needReflowRouteMask, needRepathRouteMask,
    RouteMasks.unmutedRoutes, RouteMasks.routesToMute, RouteMasks.openedRoutes,
    RouteMasks.routesToDisable, RouteMasks.prevEnabledRoutes,
    RouteMasks.enabledRoutes, RouteMasks.needReflowRoutes,
    RouteMasks.needRepathRoutes.
  set (p := RouteMasks.prevEnabled (masks_of c dir)) in *.
  set (e := RouteMasks.enabled (masks_of c dir)) in *.
  set (f := RouteMasks.needReflow (masks_of c dir)) in *.
  set (q := RouteMasks.needRepath (masks_of c dir)) in *.
  rewrite !(land_u32_not (Z.land p e)) by (apply land_is_u32; exact Hpe).
  rewrite !(land_u32_not p) by exact Hpe.
  split; [bitwise |]. split; [bitwise |]. split; [bitwise |].
  split; [bitwise |]. split; [bitwise |].
  split; [apply ldiff_is_u32, land_is_u32, Hpe |].
  split; [apply lor_is_u32; [apply ldiff_is_u32, Hpe | exact Hf] |].
  split; [apply ldiff_is_u32, land_is_u32, Hpe |].
  apply lor_is_u32; [apply ldiff_is_u32, Hpe | exact Hp].
Qed.

(** ** What the member functions keep *)

Lemma push_back_sorted (element : AudioStreamRoutePtr)
    (c c' : StreamRouteCollection) (w w' : World) (t : list Event) :
  push_back element c w = Done (c', w', t) ->
  (map_sorted (routes c) -> map_sorted (routes c'))
  /\ mRoutes c' = mRoutes c.
Proof.
  destruct element as [e |]; [| discriminate].
  unfold push_back. rewrite bind_deref, !bind_query.
  destruct (map_find _ (routes c)) as [old |].
  - rewrite bind_log. unfold ret. intros E. injection E as <- _ _. tauto.
  - unfold ret. intros E. injection E as <- _ _.
    split; [apply map_sorted_assign | reflexivity].
Qed.

(** X18. Every collection that [push_back], [addStream], [removeStream],
    [resetAvailability] and [prepareRouting] build from the collection as
    constructed holds no [NULL] route and no [NULL] stream, has its keys in
    strictly increasing order, and has its masks in the range of
    [uint32_t]. *)
Theorem built_collections_are_valid (c : StreamRouteCollection) :
  built c ->
  routes_valid c /\ streams_valid c /\ map_sorted (routes c)
  /\ forall d, RouteMasks.wf (masks_of c d).
Proof.
  induction 1 as [| c element w c' w' t Hbuilt (Hr & Hs & Ho & Hm) Hrun
                  | c stream w c' w' t Hbuilt (Hr & Hs & Ho & Hm) Hrun
                  | c stream w c' w' t Hbuilt (Hr & Hs & Ho & Hm) Hrun
                  | c w c' w' t Hbuilt (Hr & Hs & Ho & Hm) Hrun
                  | c w c' w' t Hbuilt (Hr & Hs & Ho & Hm) Hrun].
  - destruct empty_collection_valid as [Hr Hs].
    split; [exact Hr |]. split; [exact Hs |]. split; [exact I |].
    intros []; apply init_wf.
  - destruct (push_back_valid element c c' w w' t Hrun) as [Hr' Hs'].
    destruct (push_back_sorted element c c' w w' t Hrun) as [Ho' Hm'].
    split; [now apply Hr' |]. split; [now apply Hs' |].
    split; [now apply Ho' |]. intros d. unfold masks_of. rewrite Hm'. apply Hm.
  - destruct (addStream_valid stream c c' w w' t Hrun) as [Hr' Hs'].
    rewrite addStream_run in Hrun. injection Hrun as <- _ _.
    split; [now apply Hr' |]. split; [now apply Hs' |].
    split; [exact Ho | exact Hm].
  - rewrite removeStream_run in Hrun. injection Hrun as <- _ _. cbv zeta.
    split; [exact Hr |]. split; [| split; [exact Ho | exact Hm]].
    intros d.
    destruct (direction_eq_dec d (direction_of_isOut (IoStream_isOut w stream)))
      as [-> | Hneq].
    + rewrite streams_of_set_streams_same. apply list_remove_valid, Hs.
    + rewrite streams_of_set_streams_other by exact Hneq. apply Hs.
  - rewrite resetAvailability_run in Hrun by exact Hr. injection Hrun as <- _ _.
    split; [exact Hr |]. split; [exact Hs |]. split; [exact Ho |].
    intros []; [exact (reset_wf _ (Hm Input)) | exact (reset_wf _ (Hm Output))].
  - destruct (prepareRouting_keeps_pointers c c' w w' t Hrun) as [Hroutes Hstreams].
    split; [unfold routes_valid; now rewrite Hroutes |].
    split; [intros d; unfold streams_of; rewrite Hstreams; apply Hs |].
    split; [now rewrite Hroutes |].
    exact (prepareRouting_wf c w c' w' t Hrun Hm).
Qed.

(** ** Removing the only output stream *)

(** X19. When the output list holds nothing but a stream, [removeStream] of
    that stream empties the list, and [getVoiceStreamRoute] is then
    undefined: it reads through [begin()] of an empty list. *)
Theorem getVoiceStreamRoute_after_removeStream (s : StreamId)
    (c : StreamRouteCollection) (w w2 : World) :
  IoStream_isOut w s = true ->
  (forall p, In p (streams_of c Output) -> p = Some s) ->
  exists c',
    removeStream s c w = Done (c', w, [])
    /\ streams_of c' Output = []
    /\ getVoiceStreamRoute c' w2 = Undefined.
Proof.
  intros Hout Honly. eexists. split; [apply removeStream_run |].
  rewrite Hout. cbv zeta. cbn [direction_of_isOut].
  assert (Hempty : list_remove (Some s) (streams_of c Output) = []).
  { induction (streams_of c Output) as [| p l IH]; [reflexivity |].
    rewrite (Honly p) by now left. rewrite list_remove_same.
    apply IH. intros q Hq. apply Honly. now right. }
  rewrite Hempty. split; [apply streams_of_set_streams_same |].
  unfold getVoiceStreamRoute. now rewrite streams_of_set_streams_same.
Qed.

End Properties.

(** ** Instances of the properties on the reference collaborators *)

Import Examples.

Lemma nth_update_nth_other {A : Type} (f : A -> A) (d : A) (l : list A) (n m : nat) :
  n <> m -> nth m (Reference.update_nth n f l) d = nth m l d.
Proof.
  revert n m. induction l as [| x l IH]; intros [| n] [| m] Hneq; cbn;
    try reflexivity; try contradiction.
  apply IH. congruence.
Qed.

Lemma reference_route_at_other (f : Reference.RouteState -> Reference.RouteState)
    (w : Reference.RefWorld) (r r' : RouteId) :
  r' <> r ->
  Reference.route_at (Reference.update_route r f w) r' = Reference.route_at w r'.
Proof.
  intros Hneq. unfold Reference.route_at, Reference.update_route. cbn.
  apply nth_update_nth_other. congruence.
Qed.

Lemma reference_route_is_local : route_is_local (HAL := reference_collaborators).
Proof.
  intros w r b r' Hneq. unfold to_enable.
  cbn -[Reference.route_at Reference.update_route].
  now rewrite reference_route_at_other.
Qed.

Lemma reference_unroute_is_local : unroute_is_local (HAL := reference_collaborators).
Proof.
  intros w r b r' Hneq. unfold to_disable.
  cbn -[Reference.route_at Reference.update_route].
  unfold Reference.ref_unroute.
  now rewrite reference_route_at_other.
Qed.

Lemma demo_streams_valid : streams_valid demo_collection.
Proof. intros []; repeat constructor; discriminate. Defined.

Lemma demo_routes_valid : routes_valid demo_collection.
Proof. repeat constructor; discriminate. Defined.

Lemma demo_registered_once : NoDup (registered demo_collection).
Proof.
  repeat constructor; cbn; intuition discriminate.
Defined.

Lemma derived_route_sets_witness :
  RouteMasks.wf (masks_of cycle_collection Output)
  /\ unmutedRoutes cycle_collection Output = 2
  /\ routesToMute cycle_collection Output = 5
  /\ openedRoutes cycle_collection Output = 0
  /\ routesToDisable cycle_collection Output = 6
  /\ RouteMasks.routingHasChanged (masks_of cycle_collection Output) = true.
Proof.
  assert (Hwf : RouteMasks.wf (masks_of cycle_collection Output)).
  { unfold RouteMasks.wf, is_u32; cbn. lia. }
  split; [exact Hwf |].
  destruct (derived_route_sets cycle_collection Output Hwf)
    as (Hunmuted & Hmute & Hopened & Hdisable & Hchanged).
  rewrite Hunmuted, Hmute, Hopened, Hdisable.
  repeat (split; [reflexivity |]).
  apply Hchanged. left. discriminate.
Defined.

Lemma prepareRouting_match_phase_witness :
  streams_valid demo_collection
  /\ NoDup (registered demo_collection)
  /\ exists c' w' t,
       prepareRouting (HAL := reference_collaborators) demo_collection before_match
       = Done (c', w', t)
       /\ enabledRouteMask c' Output = 1
       /\ bound_to 0%nat t = [1%nat]
       /\ (List.length (bound_to 1%nat t) <= 1)%nat.
Proof.
  split; [exact demo_streams_valid |]. split; [exact demo_registered_once |].
  destruct (prepareRouting_match_phase (HAL := reference_collaborators)
              demo_collection before_match demo_streams_valid) as [Hrun Hone].
  remember (spec_match_phase (HAL := reference_collaborators)
              (registered demo_collection) demo_collection before_match)
    as result eqn:Hresult.
  destruct result as [[c' w'] t]. exists c', w', t.
  split; [exact Hrun |].
  vm_compute in Hresult. injection Hresult as -> -> ->.
  split; [reflexivity |]. split; [reflexivity |].
  exact (Hone demo_registered_once _ _ _ 1%nat Hrun).
Defined.

Lemma enable_disable_transitions_witness :
  NoDup (registered demo_collection)
  /\ route_is_local (HAL := reference_collaborators)
  /\ unroute_is_local (HAL := reference_collaborators)
  /\ (exists w' t,
        enableRoutes (HAL := reference_collaborators) true demo_collection
          after_match = Done (tt, w', t)
        /\ route_calls t = [(0%nat, true)] /\ unroute_calls t = [])
  /\ (exists w' t,
        disableRoutes (HAL := reference_collaborators) true demo_collection
          after_match = Done (tt, w', t)
        /\ unroute_calls t = [(2%nat, true)] /\ route_calls t = []).
Proof.
  split; [exact demo_registered_once |].
  split; [exact reference_route_is_local |].
  split; [exact reference_unroute_is_local |].
  destruct (enable_disable_transitions (HAL := reference_collaborators)
              true demo_collection after_match)
    as (Henable & Hdisable & Hroute & Hunroute & _).
  specialize (Hroute demo_registered_once reference_route_is_local).
  specialize (Hunroute demo_registered_once reference_unroute_is_local).
  split.
  - destruct Henable as (w' & t & Hrun & Hcalls & Hnone).
    exists w', t. split; [exact Hrun |]. split; [| exact Hnone].
    rewrite Hcalls, Hroute. reflexivity.
  - destruct Hdisable as (w' & t & Hrun & Hcalls & Hnone).
    exists w', t. split; [exact Hrun |]. split; [| exact Hnone].
    rewrite Hcalls, Hunroute. reflexivity.
Defined.

Lemma resetAvailability_spec_witness :
  routes_valid demo_collection
  /\ exists c' w' t,
       resetAvailability (HAL := reference_collaborators)
         demo_collection after_match = Done (c', w', t)
       /\ masks_of c' Input = RouteMasks.mk 0 0 0 0
       /\ routes c' = routes demo_collection
       /\ t = [Call_resetAvailability 0%nat; Call_resetAvailability 2%nat;
               Call_resetAvailability 1%nat].
Proof.
  split; [exact demo_routes_valid |].
  destruct (resetAvailability_spec (HAL := reference_collaborators)
              demo_collection after_match demo_routes_valid)
    as (c' & w' & t & Hrun & Hmasks & Hroutes & _ & Htrace & _).
  exists c', w', t. split; [exact Hrun |].
  split; [apply (Hmasks Input) |]. split; [exact Hroutes | exact Htrace].
Defined.

(** C5 does not hold as the specification states it: from masks where the
    route of mask [0x1] is enabled, the first call moves [0x1] into
    [previouslyEnabled], so [previouslyEnabled] is affected, and the second
    call clears it, so the state after two calls is not the state after
    one. *)
Lemma resetAvailability_not_idempotent :
  let once := set_masks empty_collection Output (RouteMasks.mk 0 0 0 1) in
  let twice := empty_collection in
  resetAvailability (HAL := reference_collaborators)
    busy_collection empty_world
  = Done (once, empty_world, [])
  /\ resetAvailability (HAL := reference_collaborators) once empty_world
     = Done (twice, empty_world, [])
  /\ twice <> once
  /\ RouteMasks.prevEnabled (masks_of once Output)
     <> RouteMasks.prevEnabled (masks_of busy_collection Output).
Proof.
  cbv zeta.
  split; [reflexivity |]. split; [reflexivity |]. split; discriminate.
Qed.

Lemma resetAvailability_twice_witness :
  routes_valid demo_collection
  /\ exists c1 w1 t1 c2 w2 t2,
       resetAvailability (HAL := reference_collaborators)
         demo_collection after_match = Done (c1, w1, t1)
       /\ resetAvailability c1 w1 = Done (c2, w2, t2)
       /\ masks_of c2 Input = masks_of c1 Input
       /\ masks_of c2 Input = RouteMasks.mk 0 0 0 0.
Proof.
  split; [exact demo_routes_valid |].
  destruct (resetAvailability_twice (HAL := reference_collaborators)
              demo_collection after_match demo_routes_valid)
    as (c1 & w1 & t1 & c2 & w2 & t2 & H1 & H2 & Hmasks).
  exists c1, w1, t1, c2, w2, t2. split; [exact H1 |]. split; [exact H2 |].
  destruct (Hmasks Input) as (_ & Hzero & Hiff).
  split; [apply Hiff; reflexivity | exact Hzero].
Defined.

Lemma push_back_spec_witness :
  map_find "Media_Playback" (routes demo_collection) = Some (Some 0%nat)
  /\ push_back (HAL := reference_collaborators) (Some 0%nat) demo_collection
       before_match
     = Done (demo_collection, before_match,
             [Log_Warning "push_back: element(Media_Playback) already added"])
  /\ map_find "Voice_Playback" (routes empty_collection) = None
  /\ exists c',
       push_back (HAL := reference_collaborators) (Some 1%nat) empty_collection
         before_match = Done (c', before_match, [])
       /\ map_find "Voice_Playback" (routes c') = Some (Some 1%nat).
Proof.
  split; [reflexivity |].
  split.
  - exact (proj1 (push_back_spec (HAL := reference_collaborators)
                    demo_collection before_match 0%nat)
                 (Some 0%nat) eq_refl).
  - split; [reflexivity |].
    destruct (proj2 (push_back_spec (HAL := reference_collaborators)
                       empty_collection before_match 1%nat) eq_refl)
      as (c' & Hrun & Hfind & _).
    exists c'. split; [exact Hrun | exact Hfind].
Defined.

Lemma direct_streams_first_witness :
  let w := before_match in
  let c1 := set_streams empty_collection Output [Some 0%nat] in
  let c3 := set_streams empty_collection Output [Some 1%nat; Some 0%nat] in
  isDirect (Collaborators := reference_collaborators) w 0%nat = false
  /\ isDirect (Collaborators := reference_collaborators) w 1%nat = true
  /\ addStream (HAL := reference_collaborators) 0%nat empty_collection w
     = Done (c1, w, [])
  /\ addStream (HAL := reference_collaborators) 1%nat c1 w = Done (c3, w, [])
  /\ eligible (HAL := reference_collaborators) w 0%nat 1%nat = true
  /\ eligible (HAL := reference_collaborators) w 0%nat 0%nat = true
  /\ (exists l1 l2 l3,
        streams_of c3 Output = l1 ++ Some 1%nat :: l2 ++ Some 0%nat :: l3
        /\ exists s',
             find (eligible (HAL := reference_collaborators) w 0%nat)
                  (pointees (l1 ++ [Some 1%nat])) = Some s'
             /\ setStreamForRoute (HAL := reference_collaborators) 0%nat c3 w
                = Done (fst (setStream (Collaborators := reference_collaborators)
                               0%nat s' w),
                        snd (setStream (Collaborators := reference_collaborators)
                               0%nat s' w),
                        [matching_log (HAL := reference_collaborators) w 0%nat;
                         Call_setStream 0%nat s']))
  /\ setStreamForRoute (HAL := reference_collaborators) 0%nat c3 w
     = Done (true,
             snd (setStream (Collaborators := reference_collaborators)
                    0%nat 1%nat w),
             [Log_Verbose "setStreamForRoute: route Media is maching with the stream";
              Call_setStream 0%nat 1%nat]).
Proof.
  cbv zeta.
  split; [reflexivity |]. split; [reflexivity |].
  split; [reflexivity |]. split; [reflexivity |]. split; [reflexivity |].
  split; [reflexivity |].
  destruct (direct_streams_first (HAL := reference_collaborators))
    as (_ & Horder & Hnow).
  split.
  - destruct (Horder true 0%nat 1%nat empty_collection
                (set_streams empty_collection Output [Some 0%nat])
                (set_streams empty_collection Output [Some 0%nat])
                (set_streams empty_collection Output [Some 1%nat; Some 0%nat])
                (set_streams empty_collection Output [Some 1%nat; Some 0%nat])
                before_match before_match
                eq_refl eq_refl eq_refl (after_adds_refl _)
                eq_refl eq_refl eq_refl (after_adds_refl _))
      as (l1 & l2 & l3 & Hshape & _ & Hscan).
    exists l1, l2, l3. split; [exact Hshape |].
    destruct (Hscan 0%nat before_match eq_refl eq_refl)
      as (_ & s' & Hfind & Hrun & _).
    exists s'. split; [exact Hfind | exact Hrun].
  - exact (Hnow 1%nat (set_streams empty_collection Output [Some 0%nat])
                (set_streams empty_collection Output [Some 1%nat; Some 0%nat])
                before_match eq_refl eq_refl 0%nat before_match eq_refl eq_refl).
Defined.

Lemma failed_setStream_ends_scan_witness :
  let w := before_match in
  streams_of demo_collection Output = [] ++ Some 1%nat :: [Some 0%nat]
  /\ eligible (HAL := reference_collaborators) w 1%nat 1%nat = true
  /\ eligible (HAL := reference_collaborators) w 1%nat 0%nat = true
  /\ fst (setStream (Collaborators := reference_collaborators) 1%nat 1%nat w)
     = false
  /\ isUsed (Collaborators := reference_collaborators) w 1%nat = false
  /\ setStreamForRoute (HAL := reference_collaborators) 1%nat demo_collection w
     = Done (false, w,
             [Log_Verbose "setStreamForRoute: route Voice is maching with the stream";
              Call_setStream 1%nat 1%nat])
  /\ prepareRouting_body (HAL := reference_collaborators)
       ("Voice_Playback"%string, Some 1%nat) demo_collection w
     = Done (demo_collection, w,
             [Log_Verbose "setStreamForRoute: route Voice is maching with the stream";
              Call_setStream 1%nat 1%nat]).
Proof.
  cbv zeta.
  split; [reflexivity |]. split; [reflexivity |]. split; [reflexivity |].
  split; [reflexivity |]. split; [reflexivity |].
  destruct (failed_setStream_ends_scan (HAL := reference_collaborators)
              demo_collection before_match "Voice_Playback"%string 1%nat
              [] 1%nat [Some 0%nat]
              eq_refl (Forall_nil _) (fun s' (Hin : In s' []) => match Hin with end)
              eq_refl eq_refl)
    as (Hscan & _ & Hbody).
  split; [exact Hscan |]. exact (proj1 (Hbody eq_refl)).
Defined.

Lemma prepareRouting_monotone_witness :
  streams_valid demo_collection
  /\ exists c' w' t,
       prepareRouting (HAL := reference_collaborators) demo_collection before_match
       = Done (c', w', t)
       /\ forall d,
            bits_included (enabledRouteMask demo_collection d)
                          (enabledRouteMask c' d)
            /\ bits_included (needReflowRouteMask demo_collection d)
                             (needReflowRouteMask c' d)
            /\ bits_included (needRepathRouteMask demo_collection d)
                             (needRepathRouteMask c' d)
            /\ prevEnabledRouteMask c' d = prevEnabledRouteMask demo_collection d.
Proof.
  split; [exact demo_streams_valid |].
  destruct (prepareRouting_monotone (HAL := reference_collaborators)
              demo_collection before_match) as [Hreturns Hgrow].
  destruct (Hreturns demo_streams_valid) as (c' & w' & t & Hrun).
  exists c', w', t. split; [exact Hrun |].
  exact (Hgrow c' w' t Hrun).
Defined.

(** * handleDeviceConnectionState and reset *)

Section LifecycleProperties.

Context `{HAL : Collaborators} `{LC : !RouteLifecycle}.

Lemma supports_iff (device : Z) (w : World) (r : RouteId) :
  supports device w r = true
  <-> bits_included device (getSupportedDeviceMask w r).
Proof.
  unfold supports, bits_included. rewrite Z.eqb_eq. split.
  - intros E i Hi. rewrite <- E, Z.land_spec in Hi.
    now apply andb_true_iff in Hi.
  - intros Hincl. apply Z.bits_inj'. intros n _. rewrite Z.land_spec.
    destruct (Z.testbit device n) eqn:E.
    + now rewrite (Hincl n E).
    + apply andb_false_r.
Qed.

Lemma loaded_cons_load (r : RouteId) (t : list LifecycleCall) :
  loaded (Call_loadCapabilities r :: t) = r :: loaded t
  /\ unloaded (Call_loadCapabilities r :: t) = unloaded t
  /\ deleted_routes (Call_loadCapabilities r :: t) = deleted_routes t.
Proof. repeat split. Qed.

Lemma loaded_cons_reset (r : RouteId) (t : list LifecycleCall) :
  loaded (Call_resetCapabilities r :: t) = loaded t
  /\ unloaded (Call_resetCapabilities r :: t) = r :: unloaded t
  /\ deleted_routes (Call_resetCapabilities r :: t) = deleted_routes t.
Proof. repeat split. Qed.

Lemma handleDeviceConnectionState_loop_run (device : Z) (isConnected : bool)
    (l : RouteMap) (w : World) :
  Forall (fun it : string * AudioStreamRoutePtr => snd it <> None) l ->
  NoDup (registered_in l) ->
  capabilities_are_local ->
  exists w' t,
    handleDeviceConnectionState_loop device isConnected l w = Done (w', t)
    /\ (if isConnected then loaded t else unloaded t)
       = filter (supports device w) (registered_in l)
    /\ (if isConnected then unloaded t else loaded t) = []
    /\ deleted_routes t = [].
Proof.
  intros Hvalid Hnodup Hlocal. revert w.
  induction Hvalid as [| [k [r |]] l Hr Hl IH]; intros w.
  - exists w, []. destruct isConnected; repeat split.
  - rewrite registered_in_cons in Hnodup. cbn [app] in Hnodup.
    apply NoDup_cons_iff in Hnodup. destruct Hnodup as [Hnotin Hnodup].
    specialize (IH Hnodup).
    rewrite registered_in_cons. cbn [app filter handleDeviceConnectionState_loop snd].
    fold (supports device w r).
    destruct (supports device w r).
    + assert (Hsame : forall w1,
                 (w1 = loadCapabilities r w \/ w1 = resetCapabilities r w) ->
                 filter (supports device w1) (registered_in l)
                 = filter (supports device w) (registered_in l)).
      { intros w1 Hw1. apply filter_ext_in_bool. intros r' Hin.
        assert (Hneq : r' <> r) by (intros ->; contradiction).
        destruct (Hlocal w r r' Hneq) as [Hload Hreset].
        unfold supports. destruct Hw1 as [-> | ->]; congruence. }
      destruct isConnected.
      * destruct (IH (loadCapabilities r w)) as (w' & t & -> & Hcalls & Hnone & Hdel).
        eexists _, _. split; [reflexivity |].
        destruct (loaded_cons_load r t) as (-> & -> & ->).
        rewrite Hcalls, Hsame by now left. repeat split; assumption.
      * destruct (IH (resetCapabilities r w)) as (w' & t & -> & Hcalls & Hnone & Hdel).
        eexists _, _. split; [reflexivity |].
        destruct (loaded_cons_reset r t) as (-> & -> & ->).
        rewrite Hcalls, Hsame by now right. repeat split; assumption.
    + apply IH.
  - now contradiction Hr.
Qed.

(** X15. With no [NULL] route, each route registered once and the
    capabilities of a route not changing the devices of the others,
    [handleDeviceConnectionState] calls [loadCapabilities] when the device
    is connected, [resetCapabilities] when it is disconnected, on exactly
    the registered routes whose supported devices contain every bit of
    [device], in the order of the keys; it never calls the other one. *)
Theorem handleDeviceConnectionState_spec (device : Z) (isConnected : bool)
    (c : StreamRouteCollection) (w : World) :
  routes_valid c ->
  NoDup (registered c) ->
  capabilities_are_local ->
  exists w' t,
    handleDeviceConnectionState device isConnected c w = Done (w', t)
    /\ (if isConnected then loaded t else unloaded t)
       = filter (supports device w) (registered c)
    /\ (if isConnected then unloaded t else loaded t) = []
    /\ deleted_routes t = []
    /\ forall r,
         supports device w r = true
         <-> bits_included device (getSupportedDeviceMask w r).
Proof.
  intros Hvalid Hnodup Hlocal.
  destruct (handleDeviceConnectionState_loop_run device isConnected (routes c) w
              Hvalid Hnodup Hlocal) as (w' & t & Hrun & Hcalls & Hnone & Hdel).
  exists w', t. repeat split; try assumption; apply supports_iff.
Qed.

Lemma handleDeviceConnectionState_loop_zero (isConnected : bool) (l : RouteMap)
    (w : World) :
  Forall (fun it : string * AudioStreamRoutePtr => snd it <> None) l ->
  exists w' t,
    handleDeviceConnectionState_loop 0 isConnected l w = Done (w', t)
    /\ (if isConnected then loaded t else unloaded t) = registered_in l.
Proof.
  intros Hvalid. revert w.
  induction Hvalid as [| [k [r |]] l Hr Hl IH]; intros w.
  - exists w, []. destruct isConnected; split; reflexivity.
  - rewrite registered_in_cons. cbn [app handleDeviceConnectionState_loop snd].
    rewrite Z.land_0_r. cbn [Z.eqb].
    destruct isConnected.
    + destruct (IH (loadCapabilities r w)) as (w' & t & -> & Hcalls).
      eexists _, _. split; [reflexivity |].
      destruct (loaded_cons_load r t) as (-> & _). now rewrite Hcalls.
    + destruct (IH (resetCapabilities r w)) as (w' & t & -> & Hcalls).
      eexists _, _. split; [reflexivity |].
      destruct (loaded_cons_reset r t) as (_ & -> & _). now rewrite Hcalls.
  - now contradiction Hr.
Qed.

Lemma handleDeviceConnectionState_loop_null (device : Z) (isConnected : bool)
    (l1 : RouteMap) (k : string) (l2 : RouteMap) (w : World) :
  handleDeviceConnectionState_loop device isConnected (l1 ++ (k, None) :: l2) w
  = Undefined.
Proof.
  revert w. induction l1 as [| [k1 [r |]] l1 IH]; intros w;
    cbn [app handleDeviceConnectionState_loop snd].
  - reflexivity.
  - destruct (Z.land _ device =? device).
    + destruct isConnected; now rewrite IH.
    + apply IH.
  - reflexivity.
Qed.

(** X16. [handleDeviceConnectionState] does not test the routes against
    [NULL]: it returns exactly when no entry of the registry is [NULL]. And
    since [(mask & 0) == 0] for every mask, the device [0] (no device)
    reaches every registered route, whatever it supports. *)
Theorem handleDeviceConnectionState_edges (device : Z) (isConnected : bool)
    (c : StreamRouteCollection) (w : World) :
  (routes_valid c
   <-> handleDeviceConnectionState device isConnected c w <> Undefined)
  /\ (routes_valid c ->
      exists w' t,
        handleDeviceConnectionState 0 isConnected c w = Done (w', t)
        /\ (if isConnected then loaded t else unloaded t) = registered c).
Proof.
  split; [| apply handleDeviceConnectionState_loop_zero].
  unfold handleDeviceConnectionState, routes_valid. split.
  - intros Hvalid. revert w.
    induction Hvalid as [| [k [r |]] l Hr Hl IH]; intros w;
      cbn [handleDeviceConnectionState_loop snd].
    + discriminate.
    + destruct (Z.land _ device =? device); [| apply IH].
      destruct isConnected.
      * specialize (IH (loadCapabilities r w)).
        destruct (handleDeviceConnectionState_loop device true l _) as [[w' t] |];
          [discriminate | contradiction].
      * specialize (IH (resetCapabilities r w)).
        destruct (handleDeviceConnectionState_loop device false l _) as [[w' t] |];
          [discriminate | contradiction].
    + now contradiction Hr.
  - intros Hdefined.
    destruct (Forall_Exists_dec _ entry_valid_dec (routes c)) as [Hall | Hex];
      [exact Hall |].
    exfalso. apply Hdefined.
    apply Exists_exists in Hex. destruct Hex as ([k p] & Hin & Hnull).
    destruct p as [r |]; [exfalso; apply Hnull; discriminate |].
    apply in_split in Hin. destruct Hin as (l1 & l2 & ->).
    apply handleDeviceConnectionState_loop_null.
Qed.

(** ** reset *)

Lemma existsb_eqb_In (r : RouteId) (l : list RouteId) :
  existsb (Nat.eqb r) l = true <-> In r l.
Proof.
  rewrite existsb_exists. split.
  - intros (x & Hin & E). apply Nat.eqb_eq in E. now subst x.
  - intros Hin. exists r. split; [exact Hin | apply Nat.eqb_refl].
Qed.

Lemma reset_loop_run (l : RouteMap) (deleted : list RouteId) (w : World) :
  NoDup (registered_in l) ->
  (forall r, In r (registered_in l) -> ~ In r deleted) ->
  reset_loop l deleted w
  = Done (fold_left (fun w r => delete_route r w) (registered_in l) w,
          map Call_delete (registered_in l)).
Proof.
  revert deleted w. induction l as [| [k [r |]] l IH]; intros deleted w Hnodup Hfresh.
  - reflexivity.
  - rewrite registered_in_cons in *. cbn [app] in *.
    apply NoDup_cons_iff in Hnodup. destruct Hnodup as [Hnotin Hnodup].
    cbn [reset_loop snd].
    destruct (existsb (Nat.eqb r) deleted) eqn:E.
    + apply existsb_eqb_In in E. exfalso. apply (Hfresh r); [now left | exact E].
    + rewrite IH; [reflexivity | exact Hnodup |].
      intros r' Hin [<- | Hdel]; [contradiction |].
      apply (Hfresh r'); [now right | exact Hdel].
  - rewrite registered_in_cons in *. cbn [app] in *.
    cbn [reset_loop snd]. now apply IH.
Qed.

Lemma reset_loop_defined (l : RouteMap) (deleted : list RouteId) (w : World) :
  reset_loop l deleted w <> Undefined ->
  NoDup (registered_in l)
  /\ forall r, In r (registered_in l) -> ~ In r deleted.
Proof.
  revert deleted w. induction l as [| [k [r |]] l IH]; intros deleted w Hdefined.
  - split; [constructor | intros r []].
  - rewrite registered_in_cons. cbn [app].
    cbn [reset_loop snd] in Hdefined.
    destruct (existsb (Nat.eqb r) deleted) eqn:E; [contradiction |].
    assert (Hfresh : ~ In r deleted).
    { intros Hin. apply existsb_eqb_In in Hin. congruence. }
    destruct (IH (r :: deleted) (delete_route r w)) as [Hnodup Hdisjoint].
    { intros Hundef. rewrite Hundef in Hdefined. contradiction. }
    split.
    + constructor; [| exact Hnodup].
      intros Hin. apply (Hdisjoint r Hin). now left.
    + intros r' [<- | Hin]; [exact Hfresh |].
      intros Hdel. apply (Hdisjoint r' Hin). now right.
  - rewrite registered_in_cons. cbn [app].
    cbn [reset_loop snd] in Hdefined. now apply IH with w.
Qed.

(** X17. [reset] returns exactly when no route is registered twice (a
    second [delete] of a pointer is undefined; a [NULL] entry is harmless).
    It then deletes every registered route once, in the order of the keys,
    and leaves the registry empty. It does not touch the stream lists and
    the masks: after [reset] they are what they were, so the mask queries
    still report the routes of the last cycle. *)
Theorem reset_spec (c : StreamRouteCollection) (w : World) :
  (NoDup (registered c) <-> reset c w <> Undefined)
  /\ (NoDup (registered c) ->
      exists c' w' t,
        reset c w = Done (c', w', t)
        /\ routes c' = []
        /\ deleted_routes t = registered c
        /\ loaded t = [] /\ unloaded t = []
        /\ w' = fold_left (fun w r => delete_route r w) (registered c) w
        /\ mOrderedStreamList c' = mOrderedStreamList c
        /\ mRoutes c' = mRoutes c
        /\ forall d, enabledRouteMask c' d = enabledRouteMask c d
                     /\ prevEnabledRouteMask c' d = prevEnabledRouteMask c d).
Proof.
  assert (Hrun : NoDup (registered c) ->
                 reset c w
                 = Done (set_routes c [],
                         fold_left (fun w r => delete_route r w) (registered c) w,
                         map Call_delete (registered c))).
  { intros Hnodup. unfold reset.
    rewrite reset_loop_run; [reflexivity | exact Hnodup | intros r _ []]. }
  split.
  - split.
    + intros Hnodup. rewrite (Hrun Hnodup). discriminate.
    + intros Hdefined. unfold reset in Hdefined.
      apply (reset_loop_defined (routes c) [] w).
      intros Hundef. rewrite Hundef in Hdefined. now apply Hdefined.
  - intros Hnodup. eexists _, _, _. split; [apply Hrun, Hnodup |].
    split; [reflexivity |].
    assert (Hcalls : forall l,
               deleted_routes (map Call_delete l) = l
               /\ loaded (map Call_delete l) = []
               /\ unloaded (map Call_delete l) = []).
    { induction l as [| r l (IH1 & IH2 & IH3)]; [repeat split |].
      cbn [map]. unfold deleted_routes, loaded, unloaded in *.
      cbn [flat_map app]. rewrite IH1, IH2, IH3. repeat split. }
    destruct (Hcalls (registered c)) as (-> & -> & ->).
    repeat split.
Qed.

End LifecycleProperties.

(** ** Instances of the further properties on the reference collaborators *)

Import MoreExamples.

Lemma nth_update_nth_field {A B : Type} (g : A -> B) (f : A -> A) (d : A)
    (l : list A) (n m : nat) :
  (forall x, g (f x) = g x) ->
  g (nth m (Reference.update_nth n f l) d) = g (nth m l d).
Proof.
  intros Hg. revert n m.
  induction l as [| x l IH]; intros [| n] [| m]; cbn; try reflexivity.
  - apply Hg.
  - apply IH.
Qed.

Lemma reference_identity_is_stable :
  identity_is_stable (HAL := reference_collaborators).
Proof.
  intros r r' w. split; [| split].
  - intros s. cbn -[Reference.route_at Reference.update_route Reference.update_stream].
    unfold Reference.ref_setStream.
    destruct (_ && _); cbn [snd]; [| split; reflexivity].
    unfold Reference.route_at, Reference.update_stream, Reference.update_route.
    cbn [Reference.route_objects].
    split.
    + f_equal. apply (nth_update_nth_field Reference.r_mask). reflexivity.
    + apply (nth_update_nth_field Reference.r_isOut). reflexivity.
  - cbn. unfold Reference.route_at. f_equal.
    apply (nth_update_nth_field Reference.r_mask). reflexivity.
  - cbn. unfold Reference.route_at.
    apply (nth_update_nth_field Reference.r_isOut). reflexivity.
Qed.

Lemma reference_capabilities_are_local :
  capabilities_are_local (HAL := reference_collaborators)
                         (LC := ReferenceLifecycle.demo_lifecycle).
Proof. intros w r r' _. split; reflexivity. Qed.

Lemma one_stream_valid : streams_valid one_stream_collection.
Proof. intros []; repeat constructor; discriminate. Defined.

Lemma empty_streams_valid : streams_valid empty_collection.
Proof. intros []; constructor. Defined.

Lemma addStream_removeStream_witness :
  ~ In (Some 1%nat) (streams_of one_stream_collection Output)
  /\ exists c1 c2,
       addStream (HAL := reference_collaborators) 1%nat one_stream_collection
         before_match = Done (c1, before_match, [])
       /\ streams_of c1 Output = [Some 1%nat; Some 0%nat]
       /\ removeStream (HAL := reference_collaborators) 1%nat c1 before_match
          = Done (one_stream_collection, before_match, [])
       /\ addStream (HAL := reference_collaborators) 1%nat c1 before_match
          = Done (c2, before_match, [])
       /\ removeStream (HAL := reference_collaborators) 1%nat c2 before_match
          = Done (one_stream_collection, before_match, []).
Proof.
  assert (Hnot : ~ In (Some 1%nat) (streams_of one_stream_collection Output)).
  { cbn. intros [E | []]. discriminate E. }
  split; [exact Hnot |].
  destruct (addStream_removeStream (HAL := reference_collaborators) 1%nat
              one_stream_collection before_match Hnot)
    as (c1 & c2 & Hadd & Hremove & Hadd2 & Hremove2).
  exists c1, c2. split; [exact Hadd |].
  split; [| repeat split; assumption].
  vm_compute in Hadd. injection Hadd as <-. reflexivity.
Defined.

Lemma findMatchingRouteForStream_spec_witness :
  routes_valid demo_collection
  /\ findMatchingRouteForStream (HAL := reference_collaborators) 0%nat
       demo_collection before_match
     = Done (Some 0%nat, before_match, []).
Proof.
  split; [exact demo_routes_valid |].
  destruct (findMatchingRouteForStream_spec (HAL := reference_collaborators)
              0%nat demo_collection before_match demo_routes_valid)
    as (found & Hrun & _).
  rewrite Hrun. vm_compute in Hrun. injection Hrun as <-. reflexivity.
Defined.

Lemma used_collection_valid :
  routes_valid used_collection /\ streams_valid used_collection
  /\ forall d, RouteMasks.wf (masks_of used_collection d).
Proof.
  split; [exact demo_routes_valid |]. split; [exact demo_streams_valid |].
  intros []; unfold RouteMasks.wf, is_u32; cbn; lia.
Defined.

Lemma cycle_without_match_witness :
  routes_valid used_collection
  /\ streams_valid used_collection
  /\ (forall d, RouteMasks.wf (masks_of used_collection d))
  /\ exists c1 w1 t1,
       resetAvailability (HAL := reference_collaborators) used_collection
         quiet_world = Done (c1, w1, t1)
       /\ prepareRouting c1 w1 = Done (c1, w1, [])
       /\ enabledRouteMask c1 Output = 0
       /\ routesToDisable c1 Output = 1
       /\ routesToMute c1 Output = 1
       /\ routingHasChanged c1 = true.
Proof.
  destruct used_collection_valid as (Hroutes & Hstreams & Hwf).
  split; [exact Hroutes |]. split; [exact Hstreams |]. split; [exact Hwf |].
  assert (Hnone : forall r s,
             In r (registered used_collection) ->
             In (Some s)
                (streams_of used_collection
                   (direction_of_isOut
                      (isOut (Collaborators := reference_collaborators)
                         (fold_left
                            (fun w r =>
                               AudioStreamRoute_resetAvailability
                                 (Collaborators := reference_collaborators) r w)
                            (registered used_collection) quiet_world) r))) ->
             eligible (HAL := reference_collaborators)
               (fold_left
                  (fun w r =>
                     AudioStreamRoute_resetAvailability
                       (Collaborators := reference_collaborators) r w)
                  (registered used_collection) quiet_world) r s = false).
  { intros r s Hr. cbn in Hr.
    destruct Hr as [<- | [<- | [<- | []]]]; intros Hs; cbn in Hs;
      repeat (destruct Hs as [E | Hs]; [injection E as <-; reflexivity |]);
      destruct Hs. }
  destruct (cycle_without_match (HAL := reference_collaborators)
              used_collection quiet_world Hroutes Hstreams Hwf Hnone)
    as (c1 & t1 & Hreset & Hmatch & Hmasks & Hchanged).
  exists c1. eexists. exists t1. split; [exact Hreset |]. split; [exact Hmatch |].
  destruct (Hmasks Output) as (He & Hm & Hd & _).
  split; [exact He |]. split; [rewrite Hd; reflexivity |].
  split; [rewrite Hm; reflexivity |].
  apply Hchanged. exists Output. discriminate.
Defined.

Lemma match_phase_pairs_listed_streams_witness :
  streams_valid demo_collection
  /\ identity_is_stable (HAL := reference_collaborators)
  /\ exists c' w' t,
       prepareRouting (HAL := reference_collaborators) demo_collection
         before_match = Done (c', w', t)
       /\ setStream_calls t = [(0%nat, 1%nat); (1%nat, 0%nat)]
       /\ setUsed_calls t = [0%nat]
       /\ forall r s,
            In (r, s) (setStream_calls t) ->
            In r (registered demo_collection)
            /\ In (Some s)
                  (streams_of demo_collection
                     (direction_of_isOut
                        (isOut (Collaborators := reference_collaborators)
                           before_match r))).
Proof.
  split; [exact demo_streams_valid |].
  split; [exact reference_identity_is_stable |].
  destruct (match_phase_pairs_listed_streams (HAL := reference_collaborators)
              demo_collection before_match demo_streams_valid
              reference_identity_is_stable)
    as (c' & w' & t & Hrun & Hpairs & _).
  exists c', w', t. split; [exact Hrun |].
  split; [| split; [| exact Hpairs]];
    vm_compute in Hrun; injection Hrun as _ _ <-; reflexivity.
Defined.

Lemma enabled_after_match_phase_witness :
  streams_valid demo_collection
  /\ identity_is_stable (HAL := reference_collaborators)
  /\ exists c' w' t,
       prepareRouting (HAL := reference_collaborators) demo_collection
         before_match = Done (c', w', t)
       /\ Z.testbit (enabledRouteMask c' Output) 0 = true.
Proof.
  split; [exact demo_streams_valid |].
  split; [exact reference_identity_is_stable |].
  destruct (enabled_after_match_phase (HAL := reference_collaborators)
              demo_collection before_match demo_streams_valid
              reference_identity_is_stable)
    as (c' & w' & t & Hrun & Hbits).
  exists c', w', t. split; [exact Hrun |].
  apply Hbits. right. exists 0%nat.
  split; [| split; reflexivity].
  vm_compute in Hrun. injection Hrun as _ _ <-. cbn. now left.
Defined.

Lemma removed_stream_is_not_paired_witness :
  streams_valid demo_collection
  /\ exists c',
       removeStream (HAL := reference_collaborators) 1%nat demo_collection
         before_match = Done (c', before_match, [])
       /\ exists paired w3 t,
            setStreamForRoute (HAL := reference_collaborators) 0%nat c'
              before_match = Done (paired, w3, t)
            /\ ~ In (0%nat, 1%nat) (setStream_calls t).
Proof.
  split; [exact demo_streams_valid |].
  destruct (removed_stream_is_not_paired (HAL := reference_collaborators)
              1%nat demo_collection before_match demo_streams_valid)
    as (c' & Hremove & _ & Hscan).
  exists c'. split; [exact Hremove |].
  destruct (Hscan 0%nat before_match eq_refl) as (paired & w3 & t & Hrun & Hnot).
  exists paired, w3, t. split; [exact Hrun | apply Hnot].
Defined.

Lemma pushed_route_is_found_witness :
  routes_valid empty_collection
  /\ isMatchingWithStream (Collaborators := reference_collaborators)
       before_match 0%nat 0%nat = true
  /\ exists c',
       push_back (HAL := reference_collaborators) (Some 0%nat) empty_collection
         before_match = Done (c', before_match, [])
       /\ findMatchingRouteForStream (HAL := reference_collaborators) 0%nat c'
            before_match = Done (Some 0%nat, before_match, []).
Proof.
  assert (Hvalid : routes_valid empty_collection) by constructor.
  split; [exact Hvalid |]. split; [reflexivity |].
  exact (pushed_route_is_found (HAL := reference_collaborators) 0%nat 0%nat
           empty_collection before_match Hvalid eq_refl
           (fun r (Hin : In r []) => match Hin with end) eq_refl).
Defined.

Lemma getVoiceStreamRoute_after_addStream_witness :
  streams_valid one_stream_collection
  /\ IoStream_isOut (Collaborators := reference_collaborators) before_match 1%nat
     = true
  /\ exists c',
       addStream (HAL := reference_collaborators) 1%nat one_stream_collection
         before_match = Done (c', before_match, [])
       /\ getVoiceStreamRoute (HAL := reference_collaborators) c' after_match
          = Done (Some 1%nat, after_match, []).
Proof.
  split; [exact one_stream_valid |]. split; [reflexivity |].
  destruct (getVoiceStreamRoute_after_addStream (HAL := reference_collaborators)
              1%nat one_stream_collection before_match after_match
              one_stream_valid eq_refl)
    as (c' & s' & Hadd & Hvoice & Hdirect & _).
  exists c'. split; [exact Hadd |].
  rewrite <- (Hdirect eq_refl). exact Hvoice.
Defined.

Lemma derived_sets_partition_witness :
  RouteMasks.wf (masks_of cycle_collection Output)
  /\ Z.land (unmutedRoutes cycle_collection Output)
            (routesToMute cycle_collection Output) = 0
  /\ Z.lor (unmutedRoutes cycle_collection Output)
           (routesToMute cycle_collection Output) = 7
  /\ Z.land (openedRoutes cycle_collection Output)
            (routesToDisable cycle_collection Output) = 0.
Proof.
  assert (Hwf : RouteMasks.wf (masks_of cycle_collection Output)).
  { unfold RouteMasks.wf, is_u32; cbn. lia. }
  split; [exact Hwf |].
  destruct (derived_sets_partition cycle_collection Output Hwf)
    as (Hdisjoint & Hcover & Hdisjoint' & _).
  split; [exact Hdisjoint |]. split; [rewrite Hcover; reflexivity | exact Hdisjoint'].
Defined.

Lemma handleDeviceConnectionState_spec_witness :
  routes_valid demo_collection
  /\ NoDup (registered demo_collection)
  /\ capabilities_are_local (HAL := reference_collaborators)
       (LC := ReferenceLifecycle.demo_lifecycle)
  /\ exists w' t,
       handleDeviceConnectionState (HAL := reference_collaborators)
         (LC := ReferenceLifecycle.demo_lifecycle) 4 false demo_collection
         before_match = Done (w', t)
       /\ unloaded t = [0%nat; 1%nat]
       /\ loaded t = [].
Proof.
  split; [exact demo_routes_valid |]. split; [exact demo_registered_once |].
  split; [exact reference_capabilities_are_local |].
  destruct (handleDeviceConnectionState_spec (HAL := reference_collaborators)
              (LC := ReferenceLifecycle.demo_lifecycle) 4 false demo_collection
              before_match demo_routes_valid demo_registered_once
              reference_capabilities_are_local)
    as (w' & t & Hrun & Hcalls & Hnone & _).
  exists w', t. split; [exact Hrun |]. cbv iota in Hcalls, Hnone.
  split; [rewrite Hcalls; reflexivity | exact Hnone].
Defined.

Lemma reset_spec_witness :
  NoDup (registered demo_collection)
  /\ ~ NoDup (registered twice_registered)
  /\ (exists c' w' t,
        reset (HAL := reference_collaborators)
          (LC := ReferenceLifecycle.demo_lifecycle) demo_collection before_match
        = Done (c', w', t)
        /\ routes c' = []
        /\ deleted_routes t = [0%nat; 2%nat; 1%nat]
        /\ prevEnabledRouteMask c' Input = 1)
  /\ reset (HAL := reference_collaborators)
       (LC := ReferenceLifecycle.demo_lifecycle) twice_registered before_match
     = Undefined.
Proof.
  split; [exact demo_registered_once |].
  assert (Htwice : ~ NoDup (registered twice_registered)).
  { intros Hnodup. apply NoDup_cons_iff in Hnodup. destruct Hnodup as [Hnotin _].
    apply Hnotin. now left. }
  split; [exact Htwice |]. split.
  - destruct (proj2 (reset_spec (HAL := reference_collaborators)
                       (LC := ReferenceLifecycle.demo_lifecycle)
                       demo_collection before_match) demo_registered_once)
      as (c' & w' & t & Hrun & Hroutes & Hdeleted & _ & _ & _ & _ & _ & Hmasks).
    exists c', w', t. split; [exact Hrun |]. split; [exact Hroutes |].
    split; [exact Hdeleted |]. destruct (Hmasks Input) as [_ ->]. reflexivity.
  - destruct (reset (HAL := reference_collaborators)
                (LC := ReferenceLifecycle.demo_lifecycle) twice_registered
                before_match) eqn:E; [| reflexivity].
    exfalso. apply Htwice.
    apply (proj1 (reset_spec (HAL := reference_collaborators)
                    (LC := ReferenceLifecycle.demo_lifecycle)
                    twice_registered before_match)).
    rewrite E. discriminate.
Defined.

Lemma null_entries_are_not_skipped_witness :
  ~ routes_valid null_entry_collection
  /\ resetAvailability (HAL := reference_collaborators) null_entry_collection
       before_match = Undefined
  /\ findMatchingRouteForStream (HAL := reference_collaborators) 0%nat
       null_entry_collection picky_world = Undefined
  /\ resetAvailability (HAL := reference_collaborators) demo_collection
       before_match <> Undefined.
Proof.
  destruct (null_entries_are_not_skipped (HAL := reference_collaborators)
              null_entry_collection before_match) as [Hreset _].
  destruct (null_entries_are_not_skipped (HAL := reference_collaborators)
              null_entry_collection picky_world) as [_ Hfind].
  destruct (null_entries_are_not_skipped (HAL := reference_collaborators)
              demo_collection before_match) as [Hdemo _].
  assert (Hinvalid : ~ routes_valid null_entry_collection).
  { intros Hvalid. apply Forall_inv_tail, Forall_inv in Hvalid. now apply Hvalid. }
  split; [exact Hinvalid |]. split; [| split].
  - destruct (resetAvailability (HAL := reference_collaborators)
                null_entry_collection before_match) eqn:E; [| reflexivity].
    exfalso. apply Hinvalid, Hreset. discriminate.
  - apply (Hfind 0%nat [("Media_Playback"%string, Some 0%nat)]
                 "Null_Playback"%string [] eq_refl).
    intros r [<- | []]. reflexivity.
  - apply Hdemo, demo_routes_valid.
Defined.

Lemma prepareRouting_nothing_to_pair_witness :
  (forall r, In r (registered twice_registered) ->
             isUsed (Collaborators := reference_collaborators) failing_world r
             = true)
  /\ prepareRouting (HAL := reference_collaborators) twice_registered
       failing_world = Done (twice_registered, failing_world, [])
  /\ prepareRouting (HAL := reference_collaborators) demo_collection quiet_world
     = Done (demo_collection, quiet_world, []).
Proof.
  assert (Hused : forall r, In r (registered twice_registered) ->
                            isUsed (Collaborators := reference_collaborators)
                              failing_world r = true).
  { intros r [<- | [<- | []]]; reflexivity. }
  split; [exact Hused |]. split.
  - exact (proj1 (prepareRouting_nothing_to_pair
                    (HAL := reference_collaborators) twice_registered
                    failing_world) Hused).
  - apply (proj2 (prepareRouting_nothing_to_pair
                    (HAL := reference_collaborators) demo_collection quiet_world)
                 demo_streams_valid).
    intros r s Hr. cbn in Hr.
    destruct Hr as [<- | [<- | [<- | []]]]; intros Hs; cbn in Hs;
      repeat (destruct Hs as [E | Hs]; [injection E as <-; reflexivity |]);
      destruct Hs.
Defined.

Lemma enableRoutes_reports_failures_witness :
  NoDup (registered demo_collection)
  /\ route_is_local (HAL := reference_collaborators)
  /\ exists w' t,
       enableRoutes (HAL := reference_collaborators) false demo_collection
         failing_world = Done (tt, w', t)
       /\ route_calls t = [(0%nat, false); (1%nat, false)]
       /\ error_logs t
          = [(tab ++ " error while routing Media")%string;
             (tab ++ " error while routing Voice")%string]
       /\ (List.length (error_logs t) <= List.length (route_calls t))%nat.
Proof.
  split; [exact demo_registered_once |].
  split; [exact reference_route_is_local |].
  destruct (proj1 (enableRoutes_reports_failures (HAL := reference_collaborators)
                     false demo_collection failing_world))
    as (w' & t & Hrun & _ & Herrors & Hle & _ & _ & Hcalls).
  exists w', t. split; [exact Hrun |].
  split; [rewrite (Hcalls demo_registered_once reference_route_is_local);
          reflexivity |].
  split; [rewrite Herrors; reflexivity | exact Hle].
Defined.

Lemma handleDeviceConnectionState_edges_witness :
  routes_valid demo_collection
  /\ (exists w' t,
        handleDeviceConnectionState (HAL := reference_collaborators)
          (LC := ReferenceLifecycle.demo_lifecycle) 0 true demo_collection
          before_match = Done (w', t)
        /\ loaded t = [0%nat; 2%nat; 1%nat])
  /\ handleDeviceConnectionState (HAL := reference_collaborators)
       (LC := ReferenceLifecycle.demo_lifecycle) 4 true null_entry_collection
       before_match = Undefined.
Proof.
  split; [exact demo_routes_valid |]. split.
  - destruct (proj2 (handleDeviceConnectionState_edges
                       (HAL := reference_collaborators)
                       (LC := ReferenceLifecycle.demo_lifecycle) 0 true
                       demo_collection before_match) demo_routes_valid)
      as (w' & t & Hrun & Hcalls).
    exists w', t. split; [exact Hrun | exact Hcalls].
  - destruct (handleDeviceConnectionState (HAL := reference_collaborators)
                (LC := ReferenceLifecycle.demo_lifecycle) 4 true
                null_entry_collection before_match) eqn:E; [| reflexivity].
    exfalso.
    assert (Hvalid : routes_valid null_entry_collection).
    { apply (proj1 (handleDeviceConnectionState_edges
                      (HAL := reference_collaborators)
                      (LC := ReferenceLifecycle.demo_lifecycle) 4 true
                      null_entry_collection before_match)).
      rewrite E. discriminate. }
    apply Forall_inv_tail, Forall_inv in Hvalid. now apply Hvalid.
Defined.

Lemma fresh_collection_built :
  built (HAL := reference_collaborators) fresh_collection.
Proof.
  apply (built_addStream (HAL := reference_collaborators)
           (mkCollection (routes demo_collection)
              (mkPerDirection [Some 2%nat] [Some 0%nat])
              (mkPerDirection RouteMasks.init RouteMasks.init))
           1%nat before_match fresh_collection before_match []);
    [| reflexivity].
  apply (built_addStream (HAL := reference_collaborators)
           (mkCollection (routes demo_collection)
              (mkPerDirection [Some 2%nat] [])
              (mkPerDirection RouteMasks.init RouteMasks.init))
           0%nat before_match _ before_match []);
    [| reflexivity].
  apply (built_addStream (HAL := reference_collaborators)
           (set_routes empty_collection (routes demo_collection))
           2%nat before_match _ before_match []);
    [| reflexivity].
  apply (built_push_back (HAL := reference_collaborators)
           (set_routes empty_collection
              [("Media_Playback"%string, Some 0%nat);
               ("Voice_Playback"%string, Some 1%nat)])
           (Some 2%nat) before_match _ before_match []);
    [| reflexivity].
  apply (built_push_back (HAL := reference_collaborators)
           (set_routes empty_collection [("Voice_Playback"%string, Some 1%nat)])
           (Some 0%nat) before_match _ before_match []);
    [| reflexivity].
  apply (built_push_back (HAL := reference_collaborators) empty_collection
           (Some 1%nat) before_match _ before_match []);
    [| reflexivity].
  apply built_empty.
Defined.

Lemma built_collections_are_valid_witness :
  built (HAL := reference_collaborators) fresh_collection
  /\ routes_valid fresh_collection /\ streams_valid fresh_collection
  /\ map_sorted (routes fresh_collection).
Proof.
  split; [exact fresh_collection_built |].
  destruct (built_collections_are_valid (HAL := reference_collaborators)
              fresh_collection fresh_collection_built)
    as (Hr & Hs & Ho & _).
  split; [exact Hr |]. split; [exact Hs | exact Ho].
Defined.

Lemma getVoiceStreamRoute_after_removeStream_witness :
  IoStream_isOut (Collaborators := reference_collaborators) before_match 0%nat
  = true
  /\ (forall p, In p (streams_of one_stream_collection Output) -> p = Some 0%nat)
  /\ exists c',
       removeStream (HAL := reference_collaborators) 0%nat one_stream_collection
         before_match = Done (c', before_match, [])
       /\ getVoiceStreamRoute (HAL := reference_collaborators) c' before_match
          = Undefined.
Proof.
  assert (Honly : forall p, In p (streams_of one_stream_collection Output) ->
                            p = Some 0%nat).
  { intros p [<- | []]. reflexivity. }
  split; [reflexivity |]. split; [exact Honly |].
  destruct (getVoiceStreamRoute_after_removeStream
              (HAL := reference_collaborators) 0%nat one_stream_collection
              before_match before_match eq_refl Honly)
    as (c' & Hremove & _ & Hvoice).
  exists c'. split; [exact Hremove | exact Hvoice].
Defined.
